(** * Power tree editor: the topology-aware electrical evaluation engine

    A shallow embedding of [model/stage.py] (the stage record and its
    electrical calculator) and of [graphics/scene.py] (the graph store, the
    cycle-safe edge insertion, Kahn's ordering, the multi-pass recompute
    driver and the document codec), with the write-back of the property
    editor ([ui/inspector.py]) and the list of the error panel
    ([ui/error_panel.py]), followed by the properties of the engine.

    Conventions of the embedding.
    - Python floats are IEEE 754 binary64 numbers: Rocq's primitive [float].
      The integer literals the source mixes in ([vout = 12], [0], [1e6]) are
      the floats of the same value.
    - Python exceptions are the left summand of the monad [M].
    - [self.nodes] is an insertion-ordered dict keyed by [stage.id]; it is a
      list of node items in insertion order whose ids are pairwise distinct.
    - An [EdgeItem] is the pair of the ids of its two node items.
    - A diagnostic string is an f-string over a stage name and a few floats;
      it is the tagged tuple of the values the f-string formats. *)

From Stdlib Require Import Floats String Ascii List Bool Arith PeanoNat Lia.
From Stdlib Require Import Relations Relation_Operators Operators_Properties.
From Stdlib Require Import ZArith Permutation.
From Stdlib Require Uint63 DecimalString.
Import ListNotations.

Set Warnings "-inexact-float".

(* ================================================================== *)
(** ** Exceptions *)

Inductive error : Type :=
| ZeroDivisionError   (* float division by zero *)
| RecursionError      (* unbounded recursion of [depth] *)
| NotInScene.         (* a node argument that the scene does not hold *)

Definition M (A : Type) : Type := (error + A)%type.

Definition ret {A : Type} (a : A) : M A := inr a.
Definition raise {A : Type} (e : error) : M A := inl e.
Definition bind {A B : Type} (m : M A) (k : A -> M B) : M B :=
  match m with
  | inl e => inl e
  | inr a => k a
  end.

Notation "x <- m ;; k" := (bind m (fun x => k))
  (at level 61, m at next level, right associativity).

(* ================================================================== *)
(** ** Python numbers and strings *)

Module Py.

Local Open Scope float_scope.

(** [a / b] on floats: raises on a zero divisor. *)
Definition div (a b : float) : M float :=
  if b =? 0 then raise ZeroDivisionError else ret (a / b).

(** [min(a, b)]: the first argument unless the second is smaller. *)
Definition min (a b : float) : float := if b <? a then b else a.

(** [max(a, b)]: the first argument unless the second is greater. *)
Definition max (a b : float) : float := if a <? b then b else a.

(** [a != b]. *)
Definition ne (a b : float) : bool := negb (a =? b).

(** [math.isfinite]. *)
Definition isfinite (x : float) : bool := is_finite x.

(** [float("inf")]. *)
Definition inf : float := infinity.

(** [float(n)] for a small non-negative integer. *)
Definition of_nat (n : nat) : float := of_uint63 (Uint63.of_Z (Z.of_nat n)).

Local Close Scope float_scope.

(** [str.upper] on ASCII letters. *)
Definition upper_ascii (c : ascii) : ascii :=
  let n := nat_of_ascii c in
  if (97 <=? n)%nat && (n <=? 122)%nat then ascii_of_nat (n - 32) else c.

Fixpoint upper (s : string) : string :=
  match s with
  | EmptyString => EmptyString
  | String c r => String (upper_ascii c) (upper r)
  end.

(** [str(n)] for a natural number. *)
Definition str_of_nat (n : nat) : string :=
  DecimalString.NilEmpty.string_of_uint (Nat.to_uint n).

(** Truth value of an [Optional[str]]: [None] and the empty string are
    false. *)
Definition truthy (o : option string) : bool :=
  match o with
  | None => false
  | Some s => negb (s =? "")%string
  end.

End Py.

(* ================================================================== *)
(** ** The stage record ([model/stage.py]) *)

(** The diagnostics [compute] and the supply check append.  Each carries
    the stage name and the numbers its message formats. *)
Inductive diagnostic : Type :=
| OutputOutsideSourceRange (name : string) (vout vin_min vin_max : float)
| VinMustExceedVout (name : string) (vin_effective vout : float)
| IcMaxCurrentBelowRequest (name : string) (iout_max_ic iout_user : float)
| VinCloseOrOutsideRange (name : string) (vin_effective lo hi : float)
| TotalLoadAboveSourceImax (name : string) (total_request iout_max_ic : float)
| TotalLoadCloseToSourceImax (name : string) (total_request iout_max_ic : float).

Record PowerStage : Type := mkPowerStage {
  id : string;
  stage_type : string;
  name : string;
  ic_name : string;
  vin_min : float;
  vin_max : float;
  vin_nom : float;
  vout : float;
  iout_user : float;
  iout_max_ic : float;
  efficiency_user : float;
  iq : float;
  notes : string;
  upstream : option string;
  color : string;
  vin_effective : float;
  eff_effective : float;
  p_out : float;
  p_in : float;
  p_diss : float;
  p_iq : float;
  p_tot : float;
  i_in : float;
  load_current : float;
  errors : list diagnostic
}.

Definition set_id (self : PowerStage) (v : string) : PowerStage :=
  mkPowerStage v (stage_type self) (name self) (ic_name self) (vin_min self)
  (vin_max self) (vin_nom self) (vout self) (iout_user self) (iout_max_ic
  self) (efficiency_user self) (iq self) (notes self) (upstream self) (color
  self) (vin_effective self) (eff_effective self) (p_out self) (p_in self)
  (p_diss self) (p_iq self) (p_tot self) (i_in self) (load_current self)
  (errors self).

Definition set_stage_type (self : PowerStage) (v : string) : PowerStage :=
  mkPowerStage (id self) v (name self) (ic_name self) (vin_min self) (vin_max
  self) (vin_nom self) (vout self) (iout_user self) (iout_max_ic self)
  (efficiency_user self) (iq self) (notes self) (upstream self) (color self)
  (vin_effective self) (eff_effective self) (p_out self) (p_in self) (p_diss
  self) (p_iq self) (p_tot self) (i_in self) (load_current self) (errors self).

Definition set_name (self : PowerStage) (v : string) : PowerStage :=
  mkPowerStage (id self) (stage_type self) v (ic_name self) (vin_min self)
  (vin_max self) (vin_nom self) (vout self) (iout_user self) (iout_max_ic
  self) (efficiency_user self) (iq self) (notes self) (upstream self) (color
  self) (vin_effective self) (eff_effective self) (p_out self) (p_in self)
  (p_diss self) (p_iq self) (p_tot self) (i_in self) (load_current self)
  (errors self).

Definition set_ic_name (self : PowerStage) (v : string) : PowerStage :=
  mkPowerStage (id self) (stage_type self) (name self) v (vin_min self)
  (vin_max self) (vin_nom self) (vout self) (iout_user self) (iout_max_ic
  self) (efficiency_user self) (iq self) (notes self) (upstream self) (color
  self) (vin_effective self) (eff_effective self) (p_out self) (p_in self)
  (p_diss self) (p_iq self) (p_tot self) (i_in self) (load_current self)
  (errors self).

Definition set_vin_min (self : PowerStage) (v : float) : PowerStage :=
  mkPowerStage (id self) (stage_type self) (name self) (ic_name self) v
  (vin_max self) (vin_nom self) (vout self) (iout_user self) (iout_max_ic
  self) (efficiency_user self) (iq self) (notes self) (upstream self) (color
  self) (vin_effective self) (eff_effective self) (p_out self) (p_in self)
  (p_diss self) (p_iq self) (p_tot self) (i_in self) (load_current self)
  (errors self).

Definition set_vin_max (self : PowerStage) (v : float) : PowerStage :=
  mkPowerStage (id self) (stage_type self) (name self) (ic_name self) (vin_min
  self) v (vin_nom self) (vout self) (iout_user self) (iout_max_ic self)
  (efficiency_user self) (iq self) (notes self) (upstream self) (color self)
  (vin_effective self) (eff_effective self) (p_out self) (p_in self) (p_diss
  self) (p_iq self) (p_tot self) (i_in self) (load_current self) (errors self).

Definition set_vin_nom (self : PowerStage) (v : float) : PowerStage :=
  mkPowerStage (id self) (stage_type self) (name self) (ic_name self) (vin_min
  self) (vin_max self) v (vout self) (iout_user self) (iout_max_ic self)
  (efficiency_user self) (iq self) (notes self) (upstream self) (color self)
  (vin_effective self) (eff_effective self) (p_out self) (p_in self) (p_diss
  self) (p_iq self) (p_tot self) (i_in self) (load_current self) (errors self).

Definition set_vout (self : PowerStage) (v : float) : PowerStage :=
  mkPowerStage (id self) (stage_type self) (name self) (ic_name self) (vin_min
  self) (vin_max self) (vin_nom self) v (iout_user self) (iout_max_ic self)
  (efficiency_user self) (iq self) (notes self) (upstream self) (color self)
  (vin_effective self) (eff_effective self) (p_out self) (p_in self) (p_diss
  self) (p_iq self) (p_tot self) (i_in self) (load_current self) (errors self).

Definition set_iout_user (self : PowerStage) (v : float) : PowerStage :=
  mkPowerStage (id self) (stage_type self) (name self) (ic_name self) (vin_min
  self) (vin_max self) (vin_nom self) (vout self) v (iout_max_ic self)
  (efficiency_user self) (iq self) (notes self) (upstream self) (color self)
  (vin_effective self) (eff_effective self) (p_out self) (p_in self) (p_diss
  self) (p_iq self) (p_tot self) (i_in self) (load_current self) (errors self).

Definition set_iout_max_ic (self : PowerStage) (v : float) : PowerStage :=
  mkPowerStage (id self) (stage_type self) (name self) (ic_name self) (vin_min
  self) (vin_max self) (vin_nom self) (vout self) (iout_user self) v
  (efficiency_user self) (iq self) (notes self) (upstream self) (color self)
  (vin_effective self) (eff_effective self) (p_out self) (p_in self) (p_diss
  self) (p_iq self) (p_tot self) (i_in self) (load_current self) (errors self).

Definition set_efficiency_user (self : PowerStage) (v : float) : PowerStage :=
  mkPowerStage (id self) (stage_type self) (name self) (ic_name self) (vin_min
  self) (vin_max self) (vin_nom self) (vout self) (iout_user self)
  (iout_max_ic self) v (iq self) (notes self) (upstream self) (color self)
  (vin_effective self) (eff_effective self) (p_out self) (p_in self) (p_diss
  self) (p_iq self) (p_tot self) (i_in self) (load_current self) (errors self).

Definition set_iq (self : PowerStage) (v : float) : PowerStage :=
  mkPowerStage (id self) (stage_type self) (name self) (ic_name self) (vin_min
  self) (vin_max self) (vin_nom self) (vout self) (iout_user self)
  (iout_max_ic self) (efficiency_user self) v (notes self) (upstream self)
  (color self) (vin_effective self) (eff_effective self) (p_out self) (p_in
  self) (p_diss self) (p_iq self) (p_tot self) (i_in self) (load_current self)
  (errors self).

Definition set_notes (self : PowerStage) (v : string) : PowerStage :=
  mkPowerStage (id self) (stage_type self) (name self) (ic_name self) (vin_min
  self) (vin_max self) (vin_nom self) (vout self) (iout_user self)
  (iout_max_ic self) (efficiency_user self) (iq self) v (upstream self) (color
  self) (vin_effective self) (eff_effective self) (p_out self) (p_in self)
  (p_diss self) (p_iq self) (p_tot self) (i_in self) (load_current self)
  (errors self).

Definition set_upstream (self : PowerStage) (v : option string) : PowerStage :=
  mkPowerStage (id self) (stage_type self) (name self) (ic_name self) (vin_min
  self) (vin_max self) (vin_nom self) (vout self) (iout_user self)
  (iout_max_ic self) (efficiency_user self) (iq self) (notes self) v (color
  self) (vin_effective self) (eff_effective self) (p_out self) (p_in self)
  (p_diss self) (p_iq self) (p_tot self) (i_in self) (load_current self)
  (errors self).

Definition set_color (self : PowerStage) (v : string) : PowerStage :=
  mkPowerStage (id self) (stage_type self) (name self) (ic_name self) (vin_min
  self) (vin_max self) (vin_nom self) (vout self) (iout_user self)
  (iout_max_ic self) (efficiency_user self) (iq self) (notes self) (upstream
  self) v (vin_effective self) (eff_effective self) (p_out self) (p_in self)
  (p_diss self) (p_iq self) (p_tot self) (i_in self) (load_current self)
  (errors self).

Definition set_vin_effective (self : PowerStage) (v : float) : PowerStage :=
  mkPowerStage (id self) (stage_type self) (name self) (ic_name self) (vin_min
  self) (vin_max self) (vin_nom self) (vout self) (iout_user self)
  (iout_max_ic self) (efficiency_user self) (iq self) (notes self) (upstream
  self) (color self) v (eff_effective self) (p_out self) (p_in self) (p_diss
  self) (p_iq self) (p_tot self) (i_in self) (load_current self) (errors self).

Definition set_eff_effective (self : PowerStage) (v : float) : PowerStage :=
  mkPowerStage (id self) (stage_type self) (name self) (ic_name self) (vin_min
  self) (vin_max self) (vin_nom self) (vout self) (iout_user self)
  (iout_max_ic self) (efficiency_user self) (iq self) (notes self) (upstream
  self) (color self) (vin_effective self) v (p_out self) (p_in self) (p_diss
  self) (p_iq self) (p_tot self) (i_in self) (load_current self) (errors self).

Definition set_p_out (self : PowerStage) (v : float) : PowerStage :=
  mkPowerStage (id self) (stage_type self) (name self) (ic_name self) (vin_min
  self) (vin_max self) (vin_nom self) (vout self) (iout_user self)
  (iout_max_ic self) (efficiency_user self) (iq self) (notes self) (upstream
  self) (color self) (vin_effective self) (eff_effective self) v (p_in self)
  (p_diss self) (p_iq self) (p_tot self) (i_in self) (load_current self)
  (errors self).

Definition set_p_in (self : PowerStage) (v : float) : PowerStage :=
  mkPowerStage (id self) (stage_type self) (name self) (ic_name self) (vin_min
  self) (vin_max self) (vin_nom self) (vout self) (iout_user self)
  (iout_max_ic self) (efficiency_user self) (iq self) (notes self) (upstream
  self) (color self) (vin_effective self) (eff_effective self) (p_out self) v
  (p_diss self) (p_iq self) (p_tot self) (i_in self) (load_current self)
  (errors self).

Definition set_p_diss (self : PowerStage) (v : float) : PowerStage :=
  mkPowerStage (id self) (stage_type self) (name self) (ic_name self) (vin_min
  self) (vin_max self) (vin_nom self) (vout self) (iout_user self)
  (iout_max_ic self) (efficiency_user self) (iq self) (notes self) (upstream
  self) (color self) (vin_effective self) (eff_effective self) (p_out self)
  (p_in self) v (p_iq self) (p_tot self) (i_in self) (load_current self)
  (errors self).

Definition set_p_iq (self : PowerStage) (v : float) : PowerStage :=
  mkPowerStage (id self) (stage_type self) (name self) (ic_name self) (vin_min
  self) (vin_max self) (vin_nom self) (vout self) (iout_user self)
  (iout_max_ic self) (efficiency_user self) (iq self) (notes self) (upstream
  self) (color self) (vin_effective self) (eff_effective self) (p_out self)
  (p_in self) (p_diss self) v (p_tot self) (i_in self) (load_current self)
  (errors self).

Definition set_p_tot (self : PowerStage) (v : float) : PowerStage :=
  mkPowerStage (id self) (stage_type self) (name self) (ic_name self) (vin_min
  self) (vin_max self) (vin_nom self) (vout self) (iout_user self)
  (iout_max_ic self) (efficiency_user self) (iq self) (notes self) (upstream
  self) (color self) (vin_effective self) (eff_effective self) (p_out self)
  (p_in self) (p_diss self) (p_iq self) v (i_in self) (load_current self)
  (errors self).

Definition set_i_in (self : PowerStage) (v : float) : PowerStage :=
  mkPowerStage (id self) (stage_type self) (name self) (ic_name self) (vin_min
  self) (vin_max self) (vin_nom self) (vout self) (iout_user self)
  (iout_max_ic self) (efficiency_user self) (iq self) (notes self) (upstream
  self) (color self) (vin_effective self) (eff_effective self) (p_out self)
  (p_in self) (p_diss self) (p_iq self) (p_tot self) v (load_current self)
  (errors self).

Definition set_load_current (self : PowerStage) (v : float) : PowerStage :=
  mkPowerStage (id self) (stage_type self) (name self) (ic_name self) (vin_min
  self) (vin_max self) (vin_nom self) (vout self) (iout_user self)
  (iout_max_ic self) (efficiency_user self) (iq self) (notes self) (upstream
  self) (color self) (vin_effective self) (eff_effective self) (p_out self)
  (p_in self) (p_diss self) (p_iq self) (p_tot self) (i_in self) v (errors
  self).

Definition set_errors (self : PowerStage) (v : list diagnostic) : PowerStage :=
  mkPowerStage (id self) (stage_type self) (name self) (ic_name self) (vin_min
  self) (vin_max self) (vin_nom self) (vout self) (iout_user self)
  (iout_max_ic self) (efficiency_user self) (iq self) (notes self) (upstream
  self) (color self) (vin_effective self) (eff_effective self) (p_out self)
  (p_in self) (p_diss self) (p_iq self) (p_tot self) (i_in self) (load_current
  self) v.

(** [PowerStage()]: the dataclass defaults.  The default [id] is a fresh
    [uuid4] string, supplied by the caller. *)
Definition default_stage (fresh_id : string) : PowerStage :=
  {| id := fresh_id; stage_type := "LDO"; name := "Stage"; ic_name := "";
     vin_min := 0.0; vin_max := 20.0; vin_nom := 12.0; vout := 12;
     iout_user := 0.0; iout_max_ic := 1.0; efficiency_user := 0.9;
     iq := 0.0; notes := ""; upstream := None; color := "ffffff";
     vin_effective := 0.0; eff_effective := 1.0; p_out := 0.0; p_in := 0.0;
     p_diss := 0.0; p_iq := 0.0; p_tot := 0.0; i_in := 0.0;
     load_current := 0.0; errors := [] |}.

Definition append_error (self : PowerStage) (d : diagnostic) : PowerStage :=
  set_errors self (errors self ++ [d]).

(** [self.stage_type.upper()]. *)
Definition stype (self : PowerStage) : string := Py.upper (stage_type self).

Section Compute.

Local Open Scope float_scope.

(** The [INPUT] branch of [compute], after the common preamble. *)
Definition compute_input (self : PowerStage) : PowerStage :=
  let self :=
    if negb ((vin_min self <=? vout self) && (vout self <=? vin_max self))
    then append_error self
           (OutputOutsideSourceRange (name self) (vout self) (vin_min self)
              (vin_max self))
    else self in
  let self := set_p_out self (vout self * iout_user self) in
  let self := set_p_in self (p_out self) in
  set_i_in self (iout_user self).

(** The [LOAD] branch. *)
Definition compute_load (upstream_vout : option float) (self : PowerStage)
  : PowerStage :=
  let self :=
    set_vin_nom self
      (match upstream_vout with Some v => v | None => vin_nom self end) in
  let self := set_vout self (vin_nom self) in
  let self := set_p_out self (abs (vout self) * load_current self) in
  let self := set_p_in self (p_out self) in
  set_i_in self (load_current self).

(** The [LDO] / [DCDC] branch. *)
Definition compute_regulator (self : PowerStage) : M PowerStage :=
  let is_ldo := (stype self =? "LDO")%string in
  let self :=
    if is_ldo && (abs (vin_effective self) <=? abs (vout self) + 0.1)
    then append_error self
           (VinMustExceedVout (name self) (vin_effective self) (vout self))
    else self in
  eff <- (if is_ldo then
            if Py.ne (vin_effective self) 0
            then Py.div (abs (vout self)) (abs (vin_effective self))
            else ret 0.0
          else ret (Py.max 0.0 (Py.min 1.0 (efficiency_user self)))) ;;
  let eff := Py.max 0.0 (Py.min 1.0 eff) in
  let self := set_eff_effective self eff in
  let self := set_p_out self (abs (vout self) * iout_user self) in
  pin <- (if 0 <? eff then Py.div (p_out self) eff else ret Py.inf) ;;
  let self := set_p_in self pin in
  iin <- (if Py.ne (vin_effective self) 0
          then Py.div (p_in self) (abs (vin_effective self))
          else ret Py.inf) ;;
  let self := set_i_in self iin in
  q <- Py.div (iq self) 1e6 ;;
  let self := set_p_iq self (q * vin_effective self) in
  let self :=
    set_p_diss self
      (if Py.isfinite (p_in self) then p_in self - p_out self else Py.inf) in
  let self :=
    set_p_tot self
      ((if Py.isfinite (p_diss self) then p_diss self else 0.0) + p_iq self) in
  let self :=
    if iout_max_ic self <? iout_user self
    then append_error self
           (IcMaxCurrentBelowRequest (name self) (iout_max_ic self)
              (iout_user self))
    else self in
  let self :=
    if negb ((vin_min self * 1.05 <=? vin_effective self)
             && (vin_effective self <=? vin_max self * 0.95))
    then append_error self
           (VinCloseOrOutsideRange (name self) (vin_effective self)
              (vin_min self * 1.1) (vin_max self * 0.9))
    else self in
  ret self.

(** [PowerStage.compute]. *)
Definition compute (upstream_vout : option float) (self : PowerStage)
  : M PowerStage :=
  let self := set_errors self [] in
  let vin :=
    match upstream_vout with Some v => v | None => vin_nom self end in
  let self := set_vin_effective self vin in
  if (stype self =? "INPUT")%string then ret (compute_input self)
  else if (stype self =? "LOAD")%string
  then ret (compute_load upstream_vout self)
  else if (stype self =? "LDO")%string || (stype self =? "DCDC")%string
  then compute_regulator self
  else ret self.

End Compute.

(* ================================================================== *)
(** ** The scene ([graphics/scene.py]) *)

(** A [NodeItem]: the stage it shows and its position in the scene. *)
Record NodeItem : Type := mkNodeItem {
  stage : PowerStage;
  pos : float * float
}.

Definition node_id (n : NodeItem) : string := id (stage n).

(** [n.stage.upstream == k]. *)
Definition upstream_is (n : NodeItem) (k : string) : bool :=
  match upstream (stage n) with
  | Some u => (u =? k)%string
  | None => false
  end.

(** The state of a [PowerScene] the engine reads and writes. *)
Record PowerScene : Type := mkPowerScene {
  nodes : list NodeItem;
  edges : list (string * string)     (* (src id, dst id) of each EdgeItem *)
}.

(** *** The dict [self.nodes] *)

(** [nodes.get(k)]. *)
Definition nodes_get (ns : list NodeItem) (k : string) : option NodeItem :=
  find (fun n => (node_id n =? k)%string) ns.

(** [nodes[n.stage.id] = n]: replaces the value of an existing key where
    it stands, appends a new key. *)
Fixpoint nodes_set (ns : list NodeItem) (n : NodeItem) : list NodeItem :=
  match ns with
  | [] => [n]
  | m :: r =>
      if (node_id m =? node_id n)%string then n :: r else m :: nodes_set r n
  end.

(** [del nodes[k]]. *)
Definition nodes_del (ns : list NodeItem) (k : string) : list NodeItem :=
  filter (fun n => negb (node_id n =? k)%string) ns.

(** A write through the reference held under key [k]: the stage of that
    node item becomes [f] of what it was. *)
Definition update_stage (ns : list NodeItem) (k : string)
    (f : PowerStage -> PowerStage) : list NodeItem :=
  map (fun n => if (node_id n =? k)%string
                then mkNodeItem (f (stage n)) (pos n) else n) ns.

(** A loop [for k in keys: body(k)] over the store, with exceptions. *)
Fixpoint for_each (keys : list string)
    (body : string -> list NodeItem -> M (list NodeItem))
    (ns : list NodeItem) : M (list NodeItem) :=
  match keys with
  | [] => ret ns
  | k :: r => ns' <- body k ns ;; for_each r body ns'
  end.

(** *** Kahn's ordering, as both [compute_requested_currents] and
    [recompute_all] write it *)

(** The dict [incoming_count], in the key order of [self.nodes]. *)
Definition counts : Type := list (string * Z).

Definition count_get (c : counts) (k : string) : Z :=
  match find (fun kv => (fst kv =? k)%string) c with
  | Some kv => snd kv
  | None => 0%Z
  end.

(** [incoming_count[k] += d]. *)
Definition count_add (c : counts) (k : string) (d : Z) : counts :=
  map (fun kv => if (fst kv =? k)%string then (fst kv, (snd kv + d)%Z)
                 else kv) c.

Definition init_counts (ns : list NodeItem) : counts :=
  fold_left
    (fun c n => if Py.truthy (upstream (stage n))
                then count_add c (node_id n) 1 else c)
    ns (map (fun n => (node_id n, 0%Z)) ns).

(** [k in visited]. *)
Definition mem (k : string) (l : list string) : bool :=
  existsb (fun x => (x =? k)%string) l.

(** The loop state.  [work_stack] holds the ids of the stacked node items
    with the top of the stack first: [pop()] takes the head and [append]
    conses. *)
Record kahn_state : Type := mkKahn {
  incoming_count : counts;
  work_stack : list string;
  topo_order : list string;
  visited : list string
}.

(** The inner [for neighbor in self.nodes.values()] of one iteration. *)
Definition push_neighbors (ns : list NodeItem) (current : string)
    (seen : list string) (cw : counts * list string)
  : counts * list string :=
  fold_left
    (fun cw neighbor =>
       if upstream_is neighbor current then
         let c := count_add (fst cw) (node_id neighbor) (-1) in
         if (count_get c (node_id neighbor) =? 0)%Z
            && negb (mem (node_id neighbor) seen)
         then (c, node_id neighbor :: snd cw)
         else (c, snd cw)
       else cw)
    ns cw.

(** One iteration of [while work_stack]. *)
Definition kahn_step (ns : list NodeItem) (st : kahn_state) : kahn_state :=
  match work_stack st with
  | [] => st
  | current :: rest =>
      let seen := current :: visited st in
      let cw := push_neighbors ns current seen (incoming_count st, rest) in
      mkKahn (fst cw) (snd cw) (topo_order st ++ [current]) seen
  end.

(** The [while] loop, for at most [fuel] iterations. *)
Fixpoint kahn_loop (fuel : nat) (ns : list NodeItem) (st : kahn_state)
  : kahn_state :=
  match fuel with
  | O => st
  | S fuel' =>
      match work_stack st with
      | [] => st
      | _ :: _ => kahn_loop fuel' ns (kahn_step ns st)
      end
  end.

Definition kahn_init (ns : list NodeItem) : kahn_state :=
  let c := init_counts ns in
  mkKahn c
    (rev (map node_id (filter (fun n => (count_get c (node_id n) =? 0)%Z) ns)))
    [] [].

(** The loop from its initial state.  Every node is stacked at most once,
    so [length ns] iterations empty the stack ([kahn_terminates] below). *)
Definition kahn (ns : list NodeItem) : kahn_state :=
  kahn_loop (length ns) ns (kahn_init ns).

(** *** [compute_requested_currents] *)

(** [sum(child.field for child in nodes.values() if child.upstream == k)],
    accumulated from [0.0] in dict order. *)
Definition sum_children (field : PowerStage -> float) (ns : list NodeItem)
    (k : string) : float :=
  fold_left
    (fun total child =>
       if upstream_is child k then (total + field (stage child))%float
       else total)
    ns 0.0%float.

(** The body of the bottom-up loop for the node item under key [k]. *)
Definition request_current (k : string) (ns : list NodeItem)
  : list NodeItem :=
  match nodes_get ns k with
  | None => ns
  | Some n =>
      if (stype (stage n) =? "LOAD")%string
      then update_stage ns k (fun s => set_iout_user s (load_current s))
      else
        let total_child_iin := sum_children i_in ns k in
        update_stage ns k (fun s => set_iout_user s total_child_iin)
  end.

Definition compute_requested_currents (ns : list NodeItem)
  : list NodeItem :=
  fold_left (fun ns k => request_current k ns)
    (rev (topo_order (kahn ns))) ns.

(** *** [depth] *)

Fixpoint mapM {A B : Type} (f : A -> M B) (l : list A) : M (list B) :=
  match l with
  | [] => ret []
  | a :: r => b <- f a ;; bs <- mapM f r ;; ret (b :: bs)
  end.

(** [depth(node)], with the recursion bounded by [fuel] nested calls. *)
Fixpoint depth (fuel : nat) (ns : list NodeItem) (k : string) : M nat :=
  match fuel with
  | O => raise RecursionError
  | S fuel' =>
      let children := filter (fun n => upstream_is n k) ns in
      match children with
      | [] => ret 1
      | _ :: _ =>
          ds <- mapM (fun child => depth fuel' ns (node_id child)) children ;;
          ret (1 + list_max ds)
      end
  end.

(** The bound on nested calls.  A chain of children without a repeated node
    has at most [length ns] nodes, so this bound is reached only when the
    children relation has a cycle, where the recursion of the source does
    not end either.  (The interpreter's own recursion limit is not
    modelled.) *)
Definition depth_fuel (ns : list NodeItem) : nat := S (length ns).

(** *** [recompute_all] *)

(** The first loop: the largest [depth] of an [INPUT] node. *)
Fixpoint max_input_depth (ns all : list NodeItem) (max_depth : nat)
  : M nat :=
  match ns with
  | [] => ret max_depth
  | n :: r =>
      if (stype (stage n) =? "INPUT")%string
      then d <- depth (depth_fuel all) all (node_id n) ;;
           max_input_depth r all (Nat.max max_depth d)
      else max_input_depth r all max_depth
  end.

(** The order of the compute sweep: Kahn's order, then every node it did
    not reach. *)
Definition compute_order (ns : list NodeItem) : list string :=
  let order := topo_order (kahn ns) in
  order ++ filter (fun k => negb (mem k order)) (map node_id ns).

(** The voltage handed to [compute]. *)
Definition upstream_vout_of (ns : list NodeItem) (s : PowerStage)
  : option float :=
  if Py.truthy (upstream s) then
    match upstream s with
    | Some u =>
        match nodes_get ns u with
        | Some upstream_node => Some (vout (stage upstream_node))
        | None => None
        end
    | None => None
    end
  else None.

Definition compute_node (k : string) (ns : list NodeItem)
  : M (list NodeItem) :=
  match nodes_get ns k with
  | None => ret ns
  | Some n =>
      s' <- compute (upstream_vout_of ns (stage n)) (stage n) ;;
      ret (update_stage ns k (fun _ => s'))
  end.

(** The supply check of one node item. *)
Definition check_supply (k : string) (ns : list NodeItem) : list NodeItem :=
  match nodes_get ns k with
  | None => ns
  | Some n =>
      if (stype (stage n) =? "INPUT")%string then
        let total_request := sum_children iout_user ns k in
        let imax := iout_max_ic (stage n) in
        if (imax <? total_request)%float
        then update_stage ns k (fun s =>
               append_error s
                 (TotalLoadAboveSourceImax (name s) total_request imax))
        else if (imax * 0.9 <? total_request)%float
        then update_stage ns k (fun s =>
               append_error s
                 (TotalLoadCloseToSourceImax (name s) total_request imax))
        else ns
      else ns
  end.

(** One pass of the main loop. *)
Definition pass (ns : list NodeItem) : M (list NodeItem) :=
  let ns := compute_requested_currents ns in
  ns <- for_each (compute_order ns) compute_node ns ;;
  ret (fold_left (fun ns k => check_supply k ns) (map node_id ns) ns).

Fixpoint passes (n : nat) (ns : list NodeItem) : M (list NodeItem) :=
  match n with
  | O => ret ns
  | S n' => ns' <- pass ns ;; passes n' ns'
  end.

(** The number of passes [recompute_all] runs. *)
Definition pass_count (ns : list NodeItem) : M nat :=
  d <- max_input_depth ns ns 0 ;; ret (Nat.max 1 d).

Definition recompute_all (sc : PowerScene) : M PowerScene :=
  n <- pass_count (nodes sc) ;;
  ns <- passes n (nodes sc) ;;
  ret (mkPowerScene ns (edges sc)).

(** *** Node and edge management *)

(** [color_map.get(stage_type.upper(), "#ffffff")]. *)
Definition default_color (stage_type : string) : string :=
  let t := Py.upper stage_type in
  if (t =? "INPUT")%string then "#cfefff"
  else if (t =? "LDO")%string then "#d4f7d4"
  else if (t =? "DCDC")%string then "#fff2c2"
  else if (t =? "LOAD")%string then "#e8e8e8"
  else "#ffffff".

(** [add_stage(stage_type, pos)].  [fresh_id] is the [uuid4] drawn for the
    new stage. *)
Definition add_stage (sc : PowerScene) (fresh_id : string)
    (stage_type : string) (position : option (float * float))
  : M PowerScene :=
  let len := length (nodes sc) in
  let new_stage := default_stage fresh_id in
  let new_stage := set_stage_type new_stage stage_type in
  let new_stage :=
    set_name new_stage (stage_type ++ "_" ++ Py.str_of_nat (len + 1)) in
  let new_stage := set_color new_stage (default_color stage_type) in
  let new_stage :=
    if (Py.upper stage_type =? "INPUT")%string then
      let s := set_vin_nom new_stage 12.0 in
      let s := set_vin_min s 11.0 in
      let s := set_vin_max s 13.0 in
      set_iout_max_ic s 2.0
    else new_stage in
  let p :=
    match position with
    | None => (Py.of_nat (50 + len), Py.of_nat (50 + len))
    | Some p => p
    end in
  recompute_all
    (mkPowerScene (nodes_set (nodes sc) (mkNodeItem new_stage p)) (edges sc)).

(** [remove_node(node_item)], for the node item under key [k]. *)
Definition remove_node (sc : PowerScene) (k : string) : M PowerScene :=
  let es :=
    filter (fun e => negb ((fst e =? k)%string || (snd e =? k)%string))
      (edges sc) in
  let ns :=
    map (fun n => if upstream_is n k
                  then mkNodeItem (set_upstream (stage n) None) (pos n)
                  else n) (nodes sc) in
  recompute_all (mkPowerScene (nodes_del ns k) es).

(** The walk of [_creates_cycle], for at most [fuel] iterations; [None]
    when the iterations run out. *)
Fixpoint cycle_walk (fuel : nat) (ns : list NodeItem) (current : NodeItem)
    (seen : list string) (dst : string) : option bool :=
  match fuel with
  | O => None
  | S fuel' =>
      if Py.truthy (upstream (stage current)) then
        match upstream (stage current) with
        | None => Some false
        | Some upid =>
            if mem upid seen then Some false
            else
              match nodes_get ns upid with
              | None => Some false
              | Some upnode =>
                  if (node_id upnode =? dst)%string then Some true
                  else cycle_walk fuel' ns upnode (upid :: seen) dst
              end
        end
      else Some false
  end.

(** [_creates_cycle(src, dst)].  Each iteration that goes on adds to
    [visited] the id of one more node of the scene, so [S (length ns)]
    iterations are enough ([cycle_walk_terminates] below). *)
Definition _creates_cycle (ns : list NodeItem) (src : NodeItem)
    (dst : string) : bool :=
  match cycle_walk (S (length ns)) ns src [] dst with
  | Some b => b
  | None => false
  end.

(** The three warnings of [add_edge]; each branch that shows one returns
    without touching the scene. *)
Inductive rejection : Type :=
| DestinationAlreadyConnected
| SelfLoop
| CycleDetected.

(** The text [add_edge] hands to [QMessageBox.warning]. *)
Definition warning_text (r : rejection) : string :=
  match r with
  | DestinationAlreadyConnected =>
      "Destination node already has an upstream connection."
  | SelfLoop => "Cannot connect a node to itself."
  | CycleDetected => "Connection would create a cycle."
  end.

(** What [add_edge] returns: [None] after a warning, the new edge
    otherwise. *)
Inductive edge_result : Type :=
| Rejected (r : rejection)
| Connected (edge : string * string).

(** The validation at the head of [add_edge]. *)
Definition validate_edge (ns : list NodeItem) (src dst : NodeItem)
  : option rejection :=
  match upstream (stage dst) with
  | Some _ => Some DestinationAlreadyConnected
  | None =>
      if (node_id src =? node_id dst)%string then Some SelfLoop
      else if _creates_cycle ns src (node_id dst) then Some CycleDetected
      else None
  end.

(** [add_edge(src, dst)] for the node items under the keys [src] and [dst].
    Two node items of the scene are the same object exactly when their ids
    are equal. *)
Definition add_edge (sc : PowerScene) (src dst : string)
  : M (PowerScene * edge_result) :=
  match nodes_get (nodes sc) src, nodes_get (nodes sc) dst with
  | Some s, Some d =>
      match validate_edge (nodes sc) s d with
      | Some r => ret (sc, Rejected r)
      | None =>
          let ns :=
            update_stage (nodes sc) dst (fun st => set_upstream st (Some src)) in
          sc' <- recompute_all (mkPowerScene ns (edges sc ++ [(src, dst)])) ;;
          ret (sc', Connected (src, dst))
      end
  | _, _ => raise NotInScene
  end.

(* ================================================================== *)
(** ** The document codec *)

(** One entry of a stage dict: a field name of the dataclass with a value
    of the field's type, or a key that names no field. *)
Inductive attr : Type :=
| A_id (v : string)
| A_stage_type (v : string)
| A_name (v : string)
| A_ic_name (v : string)
| A_vin_min (v : float)
| A_vin_max (v : float)
| A_vin_nom (v : float)
| A_vout (v : float)
| A_iout_user (v : float)
| A_iout_max_ic (v : float)
| A_efficiency_user (v : float)
| A_iq (v : float)
| A_notes (v : string)
| A_upstream (v : option string)
| A_color (v : string)
| A_vin_effective (v : float)
| A_eff_effective (v : float)
| A_p_out (v : float)
| A_p_in (v : float)
| A_p_diss (v : float)
| A_p_iq (v : float)
| A_p_tot (v : float)
| A_i_in (v : float)
| A_load_current (v : float)
| A_errors (v : list diagnostic)
| A_unknown (key : string).

(** [setattr(ps, key, val)]; a key that names no field leaves every field
    as it is. *)
Definition setattr (ps : PowerStage) (a : attr) : PowerStage :=
  match a with
  | A_id v => set_id ps v
  | A_stage_type v => set_stage_type ps v
  | A_name v => set_name ps v
  | A_ic_name v => set_ic_name ps v
  | A_vin_min v => set_vin_min ps v
  | A_vin_max v => set_vin_max ps v
  | A_vin_nom v => set_vin_nom ps v
  | A_vout v => set_vout ps v
  | A_iout_user v => set_iout_user ps v
  | A_iout_max_ic v => set_iout_max_ic ps v
  | A_efficiency_user v => set_efficiency_user ps v
  | A_iq v => set_iq ps v
  | A_notes v => set_notes ps v
  | A_upstream v => set_upstream ps v
  | A_color v => set_color ps v
  | A_vin_effective v => set_vin_effective ps v
  | A_eff_effective v => set_eff_effective ps v
  | A_p_out v => set_p_out ps v
  | A_p_in v => set_p_in ps v
  | A_p_diss v => set_p_diss ps v
  | A_p_iq v => set_p_iq ps v
  | A_p_tot v => set_p_tot ps v
  | A_i_in v => set_i_in ps v
  | A_load_current v => set_load_current ps v
  | A_errors v => set_errors ps v
  | A_unknown _ => ps
  end.

(** [to_dict]: [asdict(self)], every field in declaration order. *)
Definition to_dict (self : PowerStage) : list attr :=
  [ A_id (id self); A_stage_type (stage_type self); A_name (name self);
  A_ic_name (ic_name self); A_vin_min (vin_min self); A_vin_max (vin_max
  self); A_vin_nom (vin_nom self); A_vout (vout self); A_iout_user
  (iout_user self); A_iout_max_ic (iout_max_ic self); A_efficiency_user
  (efficiency_user self); A_iq (iq self); A_notes (notes self); A_upstream
  (upstream self); A_color (color self); A_vin_effective (vin_effective
  self); A_eff_effective (eff_effective self); A_p_out (p_out self); A_p_in
  (p_in self); A_p_diss (p_diss self); A_p_iq (p_iq self); A_p_tot (p_tot
  self); A_i_in (i_in self); A_load_current (load_current self); A_errors
  (errors self) ].

(** [from_dict(data)]: the defaults, then one [setattr] per entry.
    [fresh_id] is the [uuid4] drawn by [PowerStage()]. *)
Definition from_dict (fresh_id : string) (data : list attr) : PowerStage :=
  fold_left setattr data (default_stage fresh_id).

(** A document: the nodes with their positions, and the edges. *)
Record doc_node : Type := mkDocNode {
  doc_stage : list attr;
  doc_pos : option (float * float)       (* [nd.get("pos", [0, 0])] *)
}.

Record document : Type := mkDocument {
  doc_nodes : list doc_node;
  doc_edges : list (string * string)
}.

Definition serialize (sc : PowerScene) : document :=
  mkDocument
    (map (fun n => mkDocNode (to_dict (stage n)) (Some (pos n))) (nodes sc))
    (edges sc).

(** The loop that recreates the nodes; [fresh i] is the [uuid4] drawn for
    the [i]-th record. *)
Fixpoint load_nodes (fresh : nat -> string) (i : nat) (l : list doc_node)
    (ns : list NodeItem) : list NodeItem :=
  match l with
  | [] => ns
  | nd :: r =>
      let st := from_dict (fresh i) (doc_stage nd) in
      let p := match doc_pos nd with Some p => p | None => (0, 0)%float end in
      load_nodes fresh (S i) r (nodes_set ns (mkNodeItem st p))
  end.

(** The loop that recreates the edges. *)
Definition load_edge (sc : PowerScene) (ed : string * string) : PowerScene :=
  match nodes_get (nodes sc) (fst ed), nodes_get (nodes sc) (snd ed) with
  | Some src, Some dst =>
      mkPowerScene
        (update_stage (nodes sc) (node_id dst)
           (fun st => set_upstream st (Some (node_id src))))
        (edges sc ++ [(node_id src, node_id dst)])
  | _, _ => sc
  end.

Definition load_document (fresh : nat -> string) (data : document)
  : PowerScene :=
  fold_left load_edge (doc_edges data)
    (mkPowerScene (load_nodes fresh 0 (doc_nodes data) []) []).

(** [deserialize(data)]: the scene is emptied first, so the result does not
    depend on the scene it is called on. *)
Definition deserialize (fresh : nat -> string) (data : document)
  : M PowerScene :=
  recompute_all (load_document fresh data).

(* ================================================================== *)
(** ** The property editor ([ui/inspector.py]) *)

(** The values of the inspector's widgets. *)
Record form : Type := mkForm {
  f_stage_type : string;
  f_name : string;
  f_ic_name : string;
  f_vin_min : float;
  f_vin_max : float;
  f_vin_nom : float;
  f_vout : float;
  f_load_current : float;
  f_iout_max_ic : float;
  f_efficiency_user : float;
  f_iq : float;
  f_notes : string
}.

(** [Inspector.set_node]: the form as it shows a stage. *)
Definition form_of (s : PowerStage) : form :=
  mkForm (stage_type s) (name s) (ic_name s) (vin_min s) (vin_max s)
    (vin_nom s) (vout s) (load_current s) (iout_max_ic s)
    (efficiency_user s) (iq s) (notes s).

Definition apply_form (w : form) (st : PowerStage) : PowerStage :=
  let st := set_stage_type st (f_stage_type w) in
  let st := set_name st (f_name w) in
  let st := set_ic_name st (f_ic_name w) in
  let st := set_vin_min st (f_vin_min w) in
  let st := set_vin_max st (f_vin_max w) in
  let st := set_vin_nom st (f_vin_nom w) in
  let st := set_vout st (f_vout w) in
  let st := set_load_current st (f_load_current w) in
  let st := set_iout_max_ic st (f_iout_max_ic w) in
  let st := set_efficiency_user st (f_efficiency_user w) in
  let st := set_iq st (f_iq w) in
  set_notes st (f_notes w).

(** [Inspector._on_change] with the node item under key [k] selected. *)
Definition on_change (sc : PowerScene) (k : string) (w : form)
  : M PowerScene :=
  recompute_all
    (mkPowerScene (update_stage (nodes sc) k (apply_form w)) (edges sc)).

(* ================================================================== *)
(** ** Vocabulary of the properties *)

Section CalculatorVocabulary.

Local Open Scope float_scope.

(** The fields no branch of [compute] writes. *)
Definition same_config (s s' : PowerStage) : Prop :=
  id s' = id s /\ stage_type s' = stage_type s /\ name s' = name s /\
  ic_name s' = ic_name s /\ vin_min s' = vin_min s /\
  vin_max s' = vin_max s /\ iout_user s' = iout_user s /\
  iout_max_ic s' = iout_max_ic s /\
  efficiency_user s' = efficiency_user s /\ iq s' = iq s /\
  notes s' = notes s /\ upstream s' = upstream s /\ color s' = color s /\
  load_current s' = load_current s.

(** The input voltage [compute] works with. *)
Definition vin_of (upstream_vout : option float) (self : PowerStage)
  : float :=
  match upstream_vout with Some v => v | None => vin_nom self end.

(** The effective efficiency of a regulator. *)
Definition regulator_eff (self : PowerStage) : float :=
  Py.max 0.0
    (Py.min 1.0
       (if (stype self =? "LDO")%string then
          if Py.ne (vin_effective self) 0
          then abs (vout self) / abs (vin_effective self) else 0.0
        else Py.max 0.0 (Py.min 1.0 (efficiency_user self)))).

(** The result of [compute], as a function. *)
Definition computed (upstream_vout : option float) (self : PowerStage)
  : PowerStage :=
  match compute upstream_vout self with
  | inr s' => s'
  | inl _ => self
  end.

(** A DCDC stage of zero efficiency, to be fed zero volts. *)
Definition dead_dcdc : PowerStage :=
  set_iout_user
    (set_efficiency_user (set_stage_type (default_stage "r") "DCDC") 0.0)
    1.0.

(** A source as [add_stage] makes it. *)
Definition fresh_source : PowerStage :=
  set_iout_max_ic
    (set_vin_max
       (set_vin_min
          (set_vin_nom (set_stage_type (default_stage "s") "INPUT") 12.0)
          11.0) 13.0) 2.0.

End CalculatorVocabulary.

(** *** The upstream relation *)

(** The keys of [self.nodes], in dict order. *)
Definition ids (ns : list NodeItem) : list string := map node_id ns.

(** What the structure of the graph consists of: each node's id with its
    upstream pointer. *)
Definition skeleton (ns : list NodeItem) : list (string * option string) :=
  map (fun n => (node_id n, upstream (stage n))) ns.

(** [up ns a b]: the node [a] of the store has [b] as its upstream. *)
Definition up (ns : list NodeItem) (a b : string) : Prop :=
  In (a, Some b) (skeleton ns).

(** The upstream relation has no cycle. *)
Definition acyclic (ns : list NodeItem) : Prop :=
  forall a, ~ clos_trans string (up ns) a a.

(** The invariant of the store: the keys are distinct (it is a dict), no
    key is the empty string (a [uuid4] never is), and every upstream
    pointer names a node of the store. *)
Definition wf (ns : list NodeItem) : Prop :=
  NoDup (ids ns) /\ ~ In ""%string (ids ns) /\
  (forall a b, up ns a b -> In b (ids ns)).

(** Executable forms of both. *)
Fixpoint nodupb (l : list string) : bool :=
  match l with
  | [] => true
  | x :: r => negb (mem x r) && nodupb r
  end.

Definition wfb (ns : list NodeItem) : bool :=
  nodupb (ids ns) && negb (mem ""%string (ids ns))
  && forallb (fun n => match upstream (stage n) with
                       | Some u => mem u (ids ns)
                       | None => true
                       end) ns.

(** The upstream chain from [k] ends within [fuel] steps. *)
Fixpoint chain_ends (fuel : nat) (ns : list NodeItem) (k : string) : bool :=
  match fuel with
  | O => false
  | S fuel' =>
      match nodes_get ns k with
      | Some n =>
          match upstream (stage n) with
          | Some u => chain_ends fuel' ns u
          | None => true
          end
      | None => true
      end
  end.

Definition acyclicb (ns : list NodeItem) : bool :=
  forallb (chain_ends (S (length ns)) ns) (ids ns).

(** The direct children of [k], in dict order. *)
Definition children (ns : list NodeItem) (k : string) : list NodeItem :=
  filter (fun n => upstream_is n k) ns.

(** The stage under key [k]. *)
Definition stage_of (ns : list NodeItem) (k : string) : option PowerStage :=
  option_map stage (nodes_get ns k).


(** *** The recompute driver, as functions *)

(** A stage update that keeps the id and the upstream pointer. *)
Definition keeps_links (f : PowerStage -> PowerStage) : Prop :=
  forall s, id (f s) = id s /\ upstream (f s) = upstream s.

(** [compute_node] as a function. *)
Definition computed_node (k : string) (ns : list NodeItem) : list NodeItem :=
  match nodes_get ns k with
  | None => ns
  | Some n =>
      update_stage ns k
        (fun _ => computed (upstream_vout_of ns (stage n)) (stage n))
  end.

(** The store a pass leaves, as a function. *)
Definition swept (ns : list NodeItem) : list NodeItem :=
  let ns1 := compute_requested_currents ns in
  let ns2 :=
    fold_left (fun ns k => computed_node k ns) (compute_order ns1) ns1 in
  fold_left (fun ns k => check_supply k ns) (map node_id ns2) ns2.

(** [count] passes in a row. *)
Fixpoint sweeps (count : nat) (ns : list NodeItem) : list NodeItem :=
  match count with
  | O => ns
  | S count' => sweeps count' (swept ns)
  end.


(** A node item with the default stage of a given id, type and upstream. *)
Definition plain (k stage_type : string) (u : option string) : NodeItem :=
  mkNodeItem
    (set_upstream (set_stage_type (default_stage k) stage_type) u)
    (0, 0)%float.

(** A source and a load, not connected. *)
Definition two_roots : PowerScene :=
  mkPowerScene [plain "a" "INPUT" None; plain "b" "LOAD" None] [].

(** A regulator feeding a load, as loaded from a document that holds no
    computed value, the load drawing half an ampere. *)
Definition regulator_and_load : PowerScene :=
  mkPowerScene
    [plain "a" "LDO" None;
     mkNodeItem (set_load_current (stage (plain "b" "LOAD" (Some "a"%string))) 0.5)
       (0, 0)%float]
    [("a", "b")]%string.


(** *** Documents *)

(** The fields of the dataclass. *)
Inductive field : Type :=
| F_id | F_stage_type | F_name | F_ic_name | F_vin_min | F_vin_max |
F_vin_nom | F_vout | F_iout_user | F_iout_max_ic | F_efficiency_user | F_iq
| F_notes | F_upstream | F_color | F_vin_effective | F_eff_effective |
F_p_out | F_p_in | F_p_diss | F_p_iq | F_p_tot | F_i_in | F_load_current |
F_errors.

(** The field an entry of a stage dict assigns, if any. *)
Definition key_of (a : attr) : option field :=
  match a with
  | A_id _ => Some F_id
  | A_stage_type _ => Some F_stage_type
  | A_name _ => Some F_name
  | A_ic_name _ => Some F_ic_name
  | A_vin_min _ => Some F_vin_min
  | A_vin_max _ => Some F_vin_max
  | A_vin_nom _ => Some F_vin_nom
  | A_vout _ => Some F_vout
  | A_iout_user _ => Some F_iout_user
  | A_iout_max_ic _ => Some F_iout_max_ic
  | A_efficiency_user _ => Some F_efficiency_user
  | A_iq _ => Some F_iq
  | A_notes _ => Some F_notes
  | A_upstream _ => Some F_upstream
  | A_color _ => Some F_color
  | A_vin_effective _ => Some F_vin_effective
  | A_eff_effective _ => Some F_eff_effective
  | A_p_out _ => Some F_p_out
  | A_p_in _ => Some F_p_in
  | A_p_diss _ => Some F_p_diss
  | A_p_iq _ => Some F_p_iq
  | A_p_tot _ => Some F_p_tot
  | A_i_in _ => Some F_i_in
  | A_load_current _ => Some F_load_current
  | A_errors _ => Some F_errors
  | A_unknown _ => None
  end.

(** The value a stage holds in a field. *)
Definition field_value (f : field) (s : PowerStage) : attr :=
  match f with
  | F_id => A_id (id s)
  | F_stage_type => A_stage_type (stage_type s)
  | F_name => A_name (name s)
  | F_ic_name => A_ic_name (ic_name s)
  | F_vin_min => A_vin_min (vin_min s)
  | F_vin_max => A_vin_max (vin_max s)
  | F_vin_nom => A_vin_nom (vin_nom s)
  | F_vout => A_vout (vout s)
  | F_iout_user => A_iout_user (iout_user s)
  | F_iout_max_ic => A_iout_max_ic (iout_max_ic s)
  | F_efficiency_user => A_efficiency_user (efficiency_user s)
  | F_iq => A_iq (iq s)
  | F_notes => A_notes (notes s)
  | F_upstream => A_upstream (upstream s)
  | F_color => A_color (color s)
  | F_vin_effective => A_vin_effective (vin_effective s)
  | F_eff_effective => A_eff_effective (eff_effective s)
  | F_p_out => A_p_out (p_out s)
  | F_p_in => A_p_in (p_in s)
  | F_p_diss => A_p_diss (p_diss s)
  | F_p_iq => A_p_iq (p_iq s)
  | F_p_tot => A_p_tot (p_tot s)
  | F_i_in => A_i_in (i_in s)
  | F_load_current => A_load_current (load_current s)
  | F_errors => A_errors (errors s)
  end.

(** The upstream pointer of the node under key [k]. *)
Definition upstream_of (ns : list NodeItem) (k : string) : option string :=
  match nodes_get ns k with
  | Some n => upstream (stage n)
  | None => None
  end.

(** The nodes [deserialize] recreates from a document. *)
Definition loaded_nodes (fresh : nat -> string) (data : document)
  : list NodeItem :=
  load_nodes fresh 0 (doc_nodes data) [].

(** The entry of the edge list that decides the upstream of [k]: the last
    one that names [k] as its destination and whose two ends are loaded. *)
Definition deciding_edge (loaded : list string)
    (es : list (string * string)) (k : string) : option (string * string) :=
  find (fun e => (snd e =? k)%string && mem (fst e) loaded
                 && mem (snd e) loaded) (rev es).

(** The edge list of a scene agrees with its upstream pointers. *)
Definition consistent (sc : PowerScene) : Prop :=
  NoDup (ids (nodes sc)) /\
  Forall (fun e => In (fst e) (ids (nodes sc)) /\
                   upstream_of (nodes sc) (snd e) = Some (fst e)) (edges sc).

(** A document whose second record names the first as its upstream, with
    an empty edge list. *)
Definition unbacked_upstream : document :=
  mkDocument
    [mkDocNode [A_id "a"] None;
     mkDocNode [A_id "b"; A_upstream (Some "a"%string)] None]
    [].

(** *** Scenes built through the API *)

Definition empty_scene : PowerScene := mkPowerScene [] [].

(** The inspector's form with another output voltage, and with another
    load current. *)
Definition with_vout (w : form) (v : float) : form :=
  mkForm (f_stage_type w) (f_name w) (f_ic_name w) (f_vin_min w)
    (f_vin_max w) (f_vin_nom w) v (f_load_current w) (f_iout_max_ic w)
    (f_efficiency_user w) (f_iq w) (f_notes w).

Definition with_load_current (w : form) (v : float) : form :=
  mkForm (f_stage_type w) (f_name w) (f_ic_name w) (f_vin_min w)
    (f_vin_max w) (f_vin_nom w) (f_vout w) v (f_iout_max_ic w)
    (f_efficiency_user w) (f_iq w) (f_notes w).

(** Selecting the node under key [k] and changing one widget. *)
Definition edit (sc : PowerScene) (k : string) (change : form -> form)
  : M PowerScene :=
  match nodes_get (nodes sc) k with
  | Some n => on_change sc k (change (form_of (stage n)))
  | None => raise NotInScene
  end.

(** Scenario A: a source, an LDO set to 5 V and a load set to 0.5 A, each
    added with its defaults, then connected in a chain. *)
Definition scenario_A : M PowerScene :=
  sc <- add_stage empty_scene "src" "INPUT" None ;;
  sc <- add_stage sc "ldo" "LDO" None ;;
  sc <- add_stage sc "load" "LOAD" None ;;
  sc <- edit sc "ldo" (fun w => with_vout w 5) ;;
  sc <- edit sc "load" (fun w => with_load_current w 0.5) ;;
  r <- add_edge sc "src" "ldo" ;;
  r <- add_edge (fst r) "ldo" "load" ;;
  ret (fst r).

(** An LDO and a load added with their defaults and connected, no source
    above them; then the load is set to 0.5 A. *)
Definition sourceless_chain : M PowerScene :=
  sc <- add_stage empty_scene "a" "LDO" None ;;
  sc <- add_stage sc "b" "LOAD" None ;;
  r <- add_edge sc "a" "b" ;;
  edit (fst r) "b" (fun w => with_load_current w 0.5).

(** The requested current and the drawn current of the node under [k]. *)
Definition iout_user_of (ns : list NodeItem) (k : string) : option float :=
  option_map iout_user (stage_of ns k).

Definition i_in_of (ns : list NodeItem) (k : string) : option float :=
  option_map i_in (stage_of ns k).

(** *** Kahn's loop: its invariant *)

(** The keys of [incoming_count]. *)
Definition keys (c : counts) : list string := map fst c.

(** What holds of the loop state before every iteration, on a well-formed
    store: no id is both ordered and stacked or stacked twice; a node is
    ordered or stacked exactly when it has no upstream or its upstream is
    ordered, and its count is then [0] and else [1]; every ordered node
    comes after its upstream; [visited] holds the ordered ids. *)
Record kahn_inv (ns : list NodeItem) (st : kahn_state) : Prop := mkKahnInv {
  inv_keys : keys (incoming_count st) = ids ns;
  inv_nodup : NoDup (topo_order st ++ work_stack st);
  inv_incl : incl (topo_order st ++ work_stack st) (ids ns);
  inv_count : forall n, In n ns ->
    match upstream (stage n) with
    | None =>
        count_get (incoming_count st) (node_id n) = 0%Z /\
        In (node_id n) (topo_order st ++ work_stack st)
    | Some u =>
        (In u (topo_order st) /\
         count_get (incoming_count st) (node_id n) = 0%Z /\
         In (node_id n) (topo_order st ++ work_stack st)) \/
        (~ In u (topo_order st) /\
         count_get (incoming_count st) (node_id n) = 1%Z /\
         ~ In (node_id n) (topo_order st ++ work_stack st))
    end;
  inv_sorted : forall l1 k l2, topo_order st = l1 ++ k :: l2 ->
    forall u, up ns k u -> In u l1;
  inv_visited : forall k, In k (visited st) <-> In k (topo_order st)
}.

(** An order of the ids in which every node comes after its upstream. *)
Definition topological (ns : list NodeItem) (order : list string) : Prop :=
  NoDup order /\
  (forall k, In k order <-> In k (ids ns)) /\
  (forall l1 k l2, order = l1 ++ k :: l2 -> forall u, up ns k u -> In u l1).

(** What the seeding loop adds to the count of [k]. *)
Definition bump (l : list NodeItem) (k : string) : Z :=
  match nodes_get l k with
  | Some n => if Py.truthy (upstream (stage n)) then 1%Z else 0%Z
  | None => 0%Z
  end.

(** *** A pass, node by node *)

(** The current the propagator asks of a stage, read off the store [ns]. *)
Definition requested (ns : list NodeItem) (s : PowerStage) : float :=
  if (stype s =? "LOAD")%string then load_current s
  else sum_children i_in ns (id s).

Definition with_request (ns : list NodeItem) (n : NodeItem) : NodeItem :=
  mkNodeItem (set_iout_user (stage n) (requested ns (stage n))) (pos n).

(** The supply check of a stage, read off the store [ns]. *)
Definition supply_checked (ns : list NodeItem) (s : PowerStage)
  : PowerStage :=
  if (stype s =? "INPUT")%string then
    let total_request := sum_children iout_user ns (id s) in
    if (iout_max_ic s <? total_request)%float
    then append_error s
           (TotalLoadAboveSourceImax (name s) total_request (iout_max_ic s))
    else if (iout_max_ic s * 0.9 <? total_request)%float
    then append_error s
           (TotalLoadCloseToSourceImax (name s) total_request
              (iout_max_ic s))
    else s
  else s.

Definition with_check (ns : list NodeItem) (n : NodeItem) : NodeItem :=
  mkNodeItem (supply_checked ns (stage n)) (pos n).

(** [upd] applied to the nodes whose key is in [done]. *)
Definition mark (upd : NodeItem -> NodeItem) (done : list string)
    (n : NodeItem) : NodeItem :=
  if mem (node_id n) done then upd n else n.

(** What one pass makes of a stage [s] of the store [ns], given the store
    [ns'] the pass ends with: the stage asks for the current its children
    drew in [ns], is computed from the voltage its upstream has in [ns'],
    and is checked against the currents its children ask for in [ns']. *)
Definition pass_stage (ns ns' : list NodeItem) (s : PowerStage)
  : PowerStage :=
  supply_checked ns'
    (computed (upstream_vout_of ns' s) (set_iout_user s (requested ns s))).

(** [depth] with the fuel [recompute_all] gives it. *)
Definition depth_of (ns : list NodeItem) (k : string) : M nat :=
  depth (depth_fuel ns) ns k.

(** No chain of the store is longer than the number of passes
    [recompute_all] runs. *)
Definition shallow (ns : list NodeItem) : Prop :=
  exists c, pass_count ns = ret c /\
    forall k, In k (ids ns) -> exists d, depth_of ns k = ret d /\ d <= c.

(** Executable form. *)
Definition shallowb (ns : list NodeItem) : bool :=
  match pass_count ns with
  | inr c =>
      forallb (fun k => match depth_of ns k with
                        | inr d => d <=? c
                        | inl _ => false
                        end) (ids ns)
  | inl _ => false
  end.

(** What holds of the store during the compute sweep over a topological
    order, once the keys [done] have been computed: the structure and the
    positions are those the sweep started from, a computed node holds what
    [compute] makes of the stage it had, given the voltage its upstream
    holds now, and the other nodes hold the stage they had. *)
Definition sweep_inv (ns : list NodeItem) (done : list string)
    (cur : list NodeItem) : Prop :=
  skeleton cur = skeleton ns /\
  map pos cur = map pos ns /\
  forall n, In n ns ->
    stage_of cur (node_id n)
    = Some (if mem (node_id n) done
            then computed (upstream_vout_of cur (stage n)) (stage n)
            else stage n).

(** A stage with the fields the regulator branch of [compute] overwrites
    put to zero. *)
Definition forget (s : PowerStage) : PowerStage :=
  set_p_tot
    (set_p_diss
       (set_p_iq
          (set_i_in
             (set_p_in (set_p_out (set_eff_effective s 0%float) 0%float)
                0%float) 0%float) 0%float) 0%float) 0%float.

(** The stage as [compute] first rewrites it, whatever its type. *)
Definition prepared (upstream_vout : option float) (self : PowerStage)
  : PowerStage :=
  set_vin_effective (set_errors self []) (vin_of upstream_vout self).

(** The value the node under key [k] holds in a field. *)
Definition field_at (field : PowerStage -> float) (ns : list NodeItem)
    (k : string) : float :=
  match stage_of ns k with
  | Some s => field s
  | None => 0%float
  end.

(** [sum_children], read off the structure and the values under each key. *)
Definition sum_by_key (value : string -> float)
    (sk : list (string * option string)) (k : string) (start : float)
  : float :=
  fold_left
    (fun total p =>
       match snd p with
       | Some u => if (u =? k)%string then (total + value (fst p))%float
                   else total
       | None => total
       end)
    sk start.

(** The [INPUT] branch of [compute], with its one test moved to the list of
    diagnostics. *)
Definition input_result (s : PowerStage) : PowerStage :=
  set_i_in
    (set_p_in
       (set_p_out
          (set_errors s
             (if ((vin_min s <=? vout s) && (vout s <=? vin_max s))%float
              then errors s
              else errors s ++ [OutputOutsideSourceRange (name s) (vout s)
                                  (vin_min s) (vin_max s)]))
          (vout s * iout_user s)%float)
       (vout s * iout_user s)%float)
    (iout_user s).

(** A source feeding a regulator feeding a load that draws half an
    ampere. *)
Definition source_chain : PowerScene :=
  mkPowerScene
    [plain "s" "INPUT" None; plain "a" "LDO" (Some "s"%string);
     mkNodeItem (set_load_current (stage (plain "b" "LOAD" (Some "a"%string))) 0.5)
       (0, 0)%float]
    [("s", "a"); ("a", "b")]%string.

(** A source and a regulator that name each other as upstream, as a
    document can describe them. *)
Definition source_loop : PowerScene :=
  mkPowerScene
    [plain "a" "INPUT" (Some "b"%string); plain "b" "LDO" (Some "a"%string)]
    [("b", "a"); ("a", "b")]%string.

(** The fields of a stage that only the user, a document or the node and
    edge management write. *)
Definition same_settings (s s' : PowerStage) : Prop :=
  id s' = id s /\ stage_type s' = stage_type s /\ name s' = name s /\
  ic_name s' = ic_name s /\ vin_min s' = vin_min s /\
  vin_max s' = vin_max s /\ iout_max_ic s' = iout_max_ic s /\
  efficiency_user s' = efficiency_user s /\ iq s' = iq s /\
  notes s' = notes s /\ upstream s' = upstream s /\ color s' = color s /\
  load_current s' = load_current s.

(** *** [delete_selected] *)

(** The loop of [delete_selected] over the node items under the keys
    [selected]: each is removed from the scene the removal before it
    left. *)
Fixpoint remove_nodes (sc : PowerScene) (selected : list string)
  : M PowerScene :=
  match selected with
  | [] => ret sc
  | k :: rest => sc' <- remove_node sc k ;; remove_nodes sc' rest
  end.

(** [delete_selected()], the selection being the node items under the keys
    [selected]. *)
Definition delete_selected (sc : PowerScene) (selected : list string)
  : M PowerScene :=
  sc' <- remove_nodes sc selected ;; recompute_all sc'.

(* ================================================================== *)
(** ** The error panel ([ui/error_panel.py]) *)

Section ErrorPanel.

(** The text of a diagnostic: the f-string that [compute] or the supply
    check formatted. *)
Variable render : diagnostic -> string.

(** The body of the inner loop of [ErrorPanel.refresh]: the items of the
    list widget and the set [seen]. *)
Definition show_error (st : list string * list string) (err : diagnostic)
  : list string * list string :=
  if mem (render err) (snd st) then st
  else (fst st ++ [render err], render err :: snd st).

(** [ErrorPanel.refresh]: the items the list widget holds in the end. *)
Definition refresh (ns : list NodeItem) : list string :=
  fst (fold_left
         (fun st node_item => fold_left show_error (errors (stage node_item)) st)
         ns ([], [])).

End ErrorPanel.

(** Every message of the scene, node by node in dict order. *)
Definition messages (render : diagnostic -> string) (ns : list NodeItem)
  : list string :=
  flat_map (fun n => map render (errors (stage n))) ns.

(* ================================================================== *)
(** * Properties *)

(** ** Floats: the guards of [compute] exclude a zero divisor *)

Section FloatGuards.

Local Open Scope float_scope.

Lemma positive_not_zero (x : float) : (0 <? x) = true -> (x =? 0) = false.
Proof.
  rewrite FloatAxioms.ltb_spec, FloatAxioms.eqb_spec.
  destruct (Prim2SF x) as [s | s | | s m e];
    try destruct s; cbn; congruence.
Qed.

Lemma abs_not_zero (x : float) : Py.ne x 0 = true -> (abs x =? 0) = false.
Proof.
  unfold Py.ne. rewrite !FloatAxioms.eqb_spec, FloatAxioms.abs_spec.
  destruct (Prim2SF x) as [s | s | | s m e];
    try destruct s; cbn; congruence.
Qed.

Lemma div_guarded_pos (a e : float) :
  (0 <? e) = true -> Py.div a e = ret (a / e).
Proof.
  intros H. unfold Py.div. now rewrite (positive_not_zero _ H).
Qed.

Lemma div_guarded_abs (a v : float) :
  Py.ne v 0 = true -> Py.div a (abs v) = ret (a / abs v).
Proof.
  intros H. unfold Py.div. now rewrite (abs_not_zero _ H).
Qed.

Lemma div_1e6 (a : float) : Py.div a 1e6 = ret (a / 1e6).
Proof. reflexivity. Qed.

End FloatGuards.

(** ** The calculator *)

Ltac stage_simpl :=
  cbn [id stage_type name ic_name vin_min vin_max vin_nom vout iout_user
       iout_max_ic efficiency_user iq notes upstream color vin_effective
       eff_effective p_out p_in p_diss p_iq p_tot i_in load_current errors
       set_id set_stage_type set_name set_ic_name set_vin_min set_vin_max
       set_vin_nom set_vout set_iout_user set_iout_max_ic
       set_efficiency_user set_iq set_notes set_upstream set_color
       set_vin_effective set_eff_effective set_p_out set_p_in set_p_diss
       set_p_iq set_p_tot set_i_in set_load_current set_errors
       append_error bind ret] in *.

(** Normal forms of field reads through setters. *)
Ltac stage_norm :=
  cbv beta iota zeta delta
      [id stage_type name ic_name vin_min vin_max vin_nom vout iout_user
       iout_max_ic efficiency_user iq notes upstream color vin_effective
       eff_effective p_out p_in p_diss p_iq p_tot i_in load_current errors
       set_id set_stage_type set_name set_ic_name set_vin_min set_vin_max
       set_vin_nom set_vout set_iout_user set_iout_max_ic
       set_efficiency_user set_iq set_notes set_upstream set_color
       set_vin_effective set_eff_effective set_p_out set_p_in set_p_diss
       set_p_iq set_p_tot set_i_in set_load_current set_errors
       append_error prepared vin_of forget].

(** Two floats told apart by a computable test are different. *)
Ltac float_discr :=
  let E := fresh in
  intro E;
  match type of E with
  | ?x = ?y => apply (f_equal (fun z => (z =? x)%float)) in E
  end;
  vm_compute in E; discriminate E.

Section Calculator.

Local Open Scope float_scope.

Lemma compute_regulator_spec (self : PowerStage) :
  exists s', compute_regulator self = ret s' /\
    same_config self s' /\
    vin_nom s' = vin_nom self /\ vout s' = vout self /\
    vin_effective s' = vin_effective self /\
    eff_effective s' = regulator_eff self /\
    p_out s' = abs (vout self) * iout_user self /\
    p_in s' = (if 0 <? eff_effective s' then p_out s' / eff_effective s'
               else infinity) /\
    i_in s' = (if Py.ne (vin_effective s') 0
               then p_in s' / abs (vin_effective s') else infinity) /\
    p_iq s' = iq self / 1e6 * vin_effective s' /\
    p_diss s' = (if is_finite (p_in s') then p_in s' - p_out s'
                 else infinity) /\
    p_tot s' = (if is_finite (p_diss s') then p_diss s' else 0) + p_iq s'.
Proof.
  unfold compute_regulator, regulator_eff, same_config.
  set (ldo := (stype self =? "LDO")%string).
  match goal with
  | |- context [bind ?m _] =>
      assert (Heff : exists e, m = ret e /\ e =
        (if ldo then
           if Py.ne (vin_effective self) 0
           then abs (vout self) / abs (vin_effective self) else 0.0
         else Py.max 0.0 (Py.min 1.0 (efficiency_user self))))
  end.
  { destruct (ldo && _), ldo; stage_simpl; eauto.
    all: destruct (Py.ne (vin_effective self) 0) eqn:Hv; eauto.
    all: rewrite (div_guarded_abs _ _ Hv); eauto. }
  destruct Heff as (e & -> & <-).
  destruct (ldo && _); stage_simpl.
  all: destruct (0 <? Py.max 0 (Py.min 1 e)) eqn:He;
    [rewrite (div_guarded_pos _ _ He)|]; stage_simpl.
  all: destruct (Py.ne (vin_effective self) 0) eqn:Hv;
    [rewrite (div_guarded_abs _ _ Hv)|]; stage_simpl.
  all: rewrite div_1e6; stage_simpl.
  all: repeat match goal with
         | |- context [if ?b then append_error _ _ else _] => destruct b
         end.
  all: eexists; split; [reflexivity|]; stage_simpl; rewrite ?He, ?Hv.
  all: repeat split; reflexivity.
Qed.

(** [compute] returns on every stage and every argument: no division it
    evaluates has a zero divisor. *)
Lemma compute_returns (upstream_vout : option float) (self : PowerStage) :
  exists s', compute upstream_vout self = ret s'.
Proof.
  unfold compute.
  destruct (_ =? "INPUT")%string; [eauto|].
  destruct (_ =? "LOAD")%string; [eauto|].
  destruct (_ || _); [|eauto].
  destruct (compute_regulator_spec
              (set_vin_effective (set_errors self [])
                 (match upstream_vout with
                  | Some v => v | None => vin_nom (set_errors self [])
                  end))) as (s' & H & _).
  eauto.
Qed.

Lemma compute_computed upstream_vout self :
  compute upstream_vout self = ret (computed upstream_vout self).
Proof.
  unfold computed.
  destruct (compute_returns upstream_vout self) as [s' ->]. reflexivity.
Qed.

Lemma stype_set_errors_vin (self : PowerStage) l v :
  stype (set_vin_effective (set_errors self l) v) = stype self.
Proof. reflexivity. Qed.

(** C5: for every LDO or DCDC stage and every argument, [compute] returns
    (it raises on no input, a zero efficiency and a zero input voltage
    included) and leaves
    [p_out = |vout| * iout_user],
    [p_in = p_out / eff] if [eff > 0] else [+infinity],
    [i_in = p_in / |vin_effective|] if [vin_effective != 0] else [+infinity],
    [p_iq = (iq / 1e6) * vin_effective],
    [p_diss = p_in - p_out] if [p_in] is finite else [+infinity],
    [p_tot = (p_diss if finite else 0) + p_iq],
    where [eff] is the effective efficiency the call stores. *)
Theorem regulator_shared_tail (upstream_vout : option float)
    (self : PowerStage) :
  stype self = "LDO"%string \/ stype self = "DCDC"%string ->
  exists s', compute upstream_vout self = ret s' /\
    vin_effective s' = vin_of upstream_vout self /\
    p_out s' = abs (vout self) * iout_user self /\
    p_in s' = (if 0 <? eff_effective s' then p_out s' / eff_effective s'
               else infinity) /\
    i_in s' = (if Py.ne (vin_effective s') 0
               then p_in s' / abs (vin_effective s') else infinity) /\
    p_iq s' = iq self / 1e6 * vin_effective s' /\
    p_diss s' = (if is_finite (p_in s') then p_in s' - p_out s'
                 else infinity) /\
    p_tot s' = (if is_finite (p_diss s') then p_diss s' else 0) + p_iq s'.
Proof.
  intros Ht. unfold compute.
  rewrite !stype_set_errors_vin.
  assert (Hsel : (stype self =? "INPUT")%string = false /\
                 (stype self =? "LOAD")%string = false /\
                 ((stype self =? "LDO")%string
                  || (stype self =? "DCDC")%string) = true).
  { destruct Ht as [-> | ->]; repeat split; reflexivity. }
  destruct Hsel as (-> & -> & ->).
  match goal with
  | |- context [compute_regulator ?s] =>
      destruct (compute_regulator_spec s)
        as (s' & -> & _ & _ & _ & Hvin & _ & Hpo & Hpi & Hi & Hq & Hd & Ht')
  end.
  exists s'. stage_simpl. unfold vin_of. repeat split; assumption.
Qed.

Lemma regulator_shared_tail_witness :
  (stype dead_dcdc = "LDO"%string \/ stype dead_dcdc = "DCDC"%string) /\
  exists s', compute (Some 0.0) dead_dcdc = ret s' /\
    vin_effective s' = vin_of (Some 0.0) dead_dcdc /\
    p_out s' = abs (vout dead_dcdc) * iout_user dead_dcdc /\
    p_in s' = (if 0 <? eff_effective s' then p_out s' / eff_effective s'
               else infinity) /\
    i_in s' = (if Py.ne (vin_effective s') 0
               then p_in s' / abs (vin_effective s') else infinity) /\
    p_iq s' = iq dead_dcdc / 1e6 * vin_effective s' /\
    p_diss s' = (if is_finite (p_in s') then p_in s' - p_out s'
                 else infinity) /\
    p_tot s' = (if is_finite (p_diss s') then p_diss s' else 0) + p_iq s'.
Proof.
  split; [right; reflexivity|].
  apply (regulator_shared_tail (Some 0.0) dead_dcdc). right; reflexivity.
Defined.

(** On that stage the powers and the current degrade to [+infinity]. *)
Example dead_dcdc_degrades :
  exists s', compute (Some 0.0) dead_dcdc = ret s' /\
    p_in s' = infinity /\ i_in s' = infinity /\ p_diss s' = infinity /\
    p_tot s' = 0.
Proof. eexists. split; [vm_compute; reflexivity|]. repeat split. Qed.

(** C6, as the code has it: for every INPUT stage and every argument,
    [compute] sets [vin_effective] to the argument when there is one and to
    the stage's own [vin_nom] when there is none; the only diagnostic is the
    out-of-range one, present exactly when [vout] is not within
    [vin_min, vin_max]; [p_out = p_in = vout * iout_user],
    [i_in = iout_user]; and [eff_effective], [p_diss], [p_iq], [p_tot] keep
    the values they had. *)
Theorem source_compute (upstream_vout : option float) (self : PowerStage) :
  stype self = "INPUT"%string ->
  exists s', compute upstream_vout self = ret s' /\
    vin_effective s' = vin_of upstream_vout self /\
    errors s' =
      (if (vin_min self <=? vout self) && (vout self <=? vin_max self)
       then []
       else [OutputOutsideSourceRange (name self) (vout self) (vin_min self)
               (vin_max self)]) /\
    p_out s' = vout self * iout_user self /\
    p_in s' = p_out s' /\
    i_in s' = iout_user self /\
    eff_effective s' = eff_effective self /\
    p_diss s' = p_diss self /\ p_iq s' = p_iq self /\ p_tot s' = p_tot self.
Proof.
  intros Ht. unfold compute. rewrite stype_set_errors_vin, Ht.
  cbn [String.eqb Ascii.eqb Bool.eqb]. unfold compute_input. stage_simpl.
  destruct ((vin_min self <=? vout self) && (vout self <=? vin_max self));
    cbn [negb]; eexists; (split; [reflexivity|]); stage_simpl;
    unfold vin_of; repeat split; reflexivity.
Qed.

Lemma source_compute_witness :
  stype fresh_source = "INPUT"%string /\
  exists s', compute (Some 5.0) fresh_source = ret s' /\
    vin_effective s' = 5.0 /\ errors s' = [] /\ i_in s' = 0.0.
Proof.
  split; [reflexivity|].
  destruct (source_compute (Some 5.0) fresh_source eq_refl)
    as (s' & Hc & Hv & He & _ & _ & Hi & _).
  exists s'. repeat split; assumption.
Defined.

(** C6, as stated, fails: a source that is handed an upstream voltage
    takes that voltage, not its own [vin_nom], as [vin_effective]. *)
Lemma source_vin_counterexample :
  stype fresh_source = "INPUT"%string /\
  exists s', compute (Some 5.0) fresh_source = ret s' /\
    vin_effective s' <> vin_nom fresh_source.
Proof.
  split; [reflexivity|].
  eexists. split; [vm_compute; reflexivity|].
  stage_simpl. float_discr.
Qed.

End Calculator.

(** ** Finite relations without a cycle are well founded *)

Section FiniteAcyclic.

Variable A : Type.
Variable R : A -> A -> Prop.
Variable L : list A.
Hypothesis targets : forall x y, R x y -> In y L.
Hypothesis no_cycle : forall x, ~ clos_trans A R x x.

Lemma acc_of_seen (m : nat) :
  forall seen x,
    length L <= m + length seen ->
    NoDup seen -> incl seen L ->
    (forall y, In y seen -> clos_trans A R x y) ->
    Acc R x.
Proof.
  induction m as [|m IH]; intros seen x Hlen Hnd Hincl Hseen;
    constructor; intros w Hw.
  all: assert (Hx : ~ In x seen)
    by (intros Hin; exact (no_cycle x (Hseen x Hin))).
  all: assert (Hnd' : NoDup (x :: seen)) by (constructor; assumption).
  all: assert (Hincl' : incl (x :: seen) L)
    by (intros y [<- | Hy]; [exact (targets w x Hw) | exact (Hincl y Hy)]).
  - pose proof (NoDup_incl_length Hnd' Hincl') as Hle. cbn in Hle, Hlen. lia.
  - apply (IH (x :: seen)); trivial.
    + cbn. lia.
    + intros y [<- | Hy].
      * now apply t_step.
      * eapply t_trans; [apply t_step; eassumption | now apply Hseen].
Qed.

Theorem finite_acyclic_wf : well_founded R.
Proof.
  intros x. apply (acc_of_seen (length L) []).
  - lia.
  - constructor.
  - intros y [].
  - intros y [].
Qed.

End FiniteAcyclic.

Lemma clos_trans_flip (A : Type) (R : A -> A -> Prop) x y :
  clos_trans A (fun a b => R b a) x y -> clos_trans A R y x.
Proof.
  induction 1 as [x y H | x y z _ IH1 _ IH2].
  - now apply t_step.
  - eapply t_trans; eassumption.
Qed.

(** ** The store *)

Section Store.

Implicit Types (ns : list NodeItem) (n : NodeItem) (k a b : string).

Lemma mem_In k l : mem k l = true <-> In k l.
Proof.
  unfold mem. rewrite existsb_exists. split.
  - intros (x & Hx & E). apply String.eqb_eq in E. now subst.
  - intros H. exists k. split; [assumption | apply String.eqb_refl].
Qed.

Lemma mem_false k l : mem k l = false <-> ~ In k l.
Proof.
  rewrite <- mem_In. destruct (mem k l); split; congruence.
Qed.

Lemma nodes_get_Some ns k n :
  nodes_get ns k = Some n -> In n ns /\ node_id n = k.
Proof.
  intros H. apply find_some in H. destruct H as [Hin E].
  apply String.eqb_eq in E. now split.
Qed.

Lemma nodes_get_None ns k : nodes_get ns k = None <-> ~ In k (ids ns).
Proof.
  unfold nodes_get, ids. split.
  - intros H Hin. apply in_map_iff in Hin. destruct Hin as (n & E & Hin).
    apply (find_none _ _ H) in Hin. apply String.eqb_neq in Hin. congruence.
  - intros H. destruct (find _ ns) as [n|] eqn:E; [|reflexivity].
    apply find_some in E. destruct E as [Hin E].
    apply String.eqb_eq in E. exfalso. apply H. subst k.
    now apply in_map.
Qed.

Lemma nodes_get_In ns n :
  NoDup (ids ns) -> In n ns -> nodes_get ns (node_id n) = Some n.
Proof.
  unfold nodes_get, ids. induction ns as [|m r IH]; intros Hnd Hin.
  - destruct Hin.
  - cbn in Hnd |- *. inversion Hnd as [|? ? Hm Hr]; subst.
    destruct Hin as [-> | Hin].
    + now rewrite String.eqb_refl.
    + destruct (String.eqb_spec (node_id m) (node_id n)) as [E|_].
      * exfalso. apply Hm. rewrite E. now apply in_map.
      * now apply IH.
Qed.

Lemma in_ids_get ns k : In k (ids ns) -> exists n, nodes_get ns k = Some n.
Proof.
  intros H. destruct (nodes_get ns k) as [n|] eqn:E; [eauto|].
  now apply nodes_get_None in E.
Qed.

Lemma get_in_ids ns k n : nodes_get ns k = Some n -> In k (ids ns).
Proof.
  intros H. apply nodes_get_Some in H. destruct H as [Hin <-].
  now apply in_map.
Qed.

Lemma up_iff ns a b :
  up ns a b <->
  exists n, In n ns /\ node_id n = a /\ upstream (stage n) = Some b.
Proof.
  unfold up, skeleton. rewrite in_map_iff. split.
  - intros (n & E & Hin). inversion E. eauto.
  - intros (n & Hin & <- & E). exists n. now rewrite E.
Qed.

Lemma up_get ns a b :
  NoDup (ids ns) ->
  (up ns a b <->
   exists n, nodes_get ns a = Some n /\ upstream (stage n) = Some b).
Proof.
  intros Hnd. rewrite up_iff. split.
  - intros (n & Hin & <- & E). exists n. split; [|assumption].
    now apply nodes_get_In.
  - intros (n & Hg & E). apply nodes_get_Some in Hg. destruct Hg. eauto.
Qed.

Lemma up_source_in ns a b : up ns a b -> In a (ids ns).
Proof.
  rewrite up_iff. intros (n & Hin & <- & _). now apply in_map.
Qed.

Lemma up_fun ns a b b' :
  NoDup (ids ns) -> up ns a b -> up ns a b' -> b = b'.
Proof.
  intros Hnd H H'. apply (up_get _ _ _ Hnd) in H, H'.
  destruct H as (n & Hg & E), H' as (n' & Hg' & E'). congruence.
Qed.

(** Induction from the parents down and from the children up. *)
Lemma parents_wf ns : acyclic ns -> well_founded (fun a b => up ns b a).
Proof.
  intros Hac. apply (finite_acyclic_wf _ _ (ids ns)).
  - intros x y H. exact (up_source_in _ _ _ H).
  - intros x H. apply clos_trans_flip in H. exact (Hac x H).
Qed.

Lemma children_wf ns : wf ns -> acyclic ns -> well_founded (up ns).
Proof.
  intros (_ & _ & Hd) Hac. apply (finite_acyclic_wf _ _ (ids ns)).
  - exact Hd.
  - exact Hac.
Qed.

End Store.

(** ** The walk of [_creates_cycle] *)

Section CycleWalk.

Implicit Types (ns : list NodeItem) (n : NodeItem) (k a b : string).

Lemma same_id_same_node ns n m :
  NoDup (ids ns) -> In n ns -> In m ns -> node_id n = node_id m -> n = m.
Proof.
  intros Hnd Hn Hm E.
  pose proof (nodes_get_In _ _ Hnd Hn) as Gn.
  pose proof (nodes_get_In _ _ Hnd Hm) as Gm.
  rewrite E in Gn. congruence.
Qed.

Lemma up_of_node ns n b :
  NoDup (ids ns) -> In n ns ->
  (up ns (node_id n) b <-> upstream (stage n) = Some b).
Proof.
  intros Hnd Hin. rewrite up_iff. split.
  - intros (m & Hm & E & Hu).
    now rewrite <- (same_id_same_node _ _ _ Hnd Hm Hin E).
  - intros Hu. eauto.
Qed.

(** The walk ends before its iterations run out. *)
Lemma cycle_walk_terminates ns dst :
  forall fuel current seen,
    NoDup seen -> incl seen (ids ns) ->
    length (ids ns) < fuel + length seen ->
    cycle_walk fuel ns current seen dst <> None.
Proof.
  induction fuel as [|fuel IH]; intros current seen Hnd Hincl Hlen.
  - pose proof (NoDup_incl_length Hnd Hincl). cbn in Hlen. lia.
  - cbn [cycle_walk].
    destruct (Py.truthy _); [|discriminate].
    destruct (upstream (stage current)) as [upid|]; [|discriminate].
    destruct (mem upid seen) eqn:Hmem; [discriminate|].
    destruct (nodes_get ns upid) as [upnode|] eqn:Hget; [|discriminate].
    destruct (node_id upnode =? dst)%string; [discriminate|].
    apply IH.
    + constructor; [now apply mem_false | assumption].
    + intros y [<- | Hy]; [exact (get_in_ids _ _ _ Hget) | now apply Hincl].
    + cbn. lia.
Qed.

Lemma creates_cycle_walk ns src dst :
  cycle_walk (S (length ns)) ns src [] dst
  = Some (_creates_cycle ns src dst).
Proof.
  unfold _creates_cycle.
  destruct (cycle_walk (S (length ns)) ns src [] dst) eqn:E; [reflexivity|].
  exfalso. revert E. apply cycle_walk_terminates.
  - constructor.
  - intros y [].
  - unfold ids. rewrite length_map. cbn. lia.
Qed.

(** A walk that answers [True] has followed upstream pointers from its
    start to [dst]. *)
Lemma cycle_walk_sound ns dst :
  forall fuel current seen,
    In current ns ->
    cycle_walk fuel ns current seen dst = Some true ->
    clos_trans string (up ns) (node_id current) dst.
Proof.
  induction fuel as [|fuel IH]; intros current seen Hin H; [discriminate|].
  cbn [cycle_walk] in H.
  destruct (Py.truthy _); [|discriminate].
  destruct (upstream (stage current)) as [upid|] eqn:Hu; [|discriminate].
  destruct (mem upid seen); [discriminate|].
  destruct (nodes_get ns upid) as [upnode|] eqn:Hget; [|discriminate].
  apply nodes_get_Some in Hget. destruct Hget as [Hupin Hid].
  assert (Hstep : up ns (node_id current) upid)
    by (apply up_iff; eauto).
  destruct (String.eqb_spec (node_id upnode) dst) as [E|_].
  - apply t_step. congruence.
  - eapply t_trans; [apply t_step; eassumption|].
    rewrite <- Hid. eapply IH; eassumption.
Qed.

(** On a well-formed store without a cycle, a walk whose start has [dst]
    among its ancestors answers [True], unless its iterations run out. *)
Lemma cycle_walk_complete ns dst :
  wf ns -> acyclic ns ->
  forall fuel current seen,
    In current ns ->
    (forall x, In x seen ->
       x = node_id current \/ clos_trans string (up ns) x (node_id current)) ->
    clos_trans string (up ns) (node_id current) dst ->
    cycle_walk fuel ns current seen dst = Some true \/
    cycle_walk fuel ns current seen dst = None.
Proof.
  intros (Hnd & Hne & Hdang) Hac.
  induction fuel as [|fuel IH]; intros current seen Hin Hseen Hpath;
    [now right|].
  apply clos_trans_t1n in Hpath.
  assert (Hfirst : exists u, up ns (node_id current) u /\
            (u = dst \/ clos_trans string (up ns) u dst)).
  { inversion Hpath as [y H | y z H Hrest]; subst.
    - eauto.
    - exists y. split; [assumption|]. right.
      now apply clos_t1n_trans. }
  destruct Hfirst as (u & Hstep & Hrest).
  pose proof (proj1 (up_of_node _ _ _ Hnd Hin) Hstep) as Hu.
  pose proof (Hdang _ _ Hstep) as Huin.
  cbn [cycle_walk]. rewrite Hu. cbn [Py.truthy].
  destruct (String.eqb_spec u "") as [->|_]; [contradiction|]. cbn [negb].
  destruct (mem u seen) eqn:Hmem.
  { exfalso. apply mem_In in Hmem. apply (Hac u).
    destruct (Hseen _ Hmem) as [-> | Hc].
    - now apply t_step.
    - eapply t_trans; [eassumption | now apply t_step]. }
  destruct (in_ids_get _ _ Huin) as [upnode Hget]. rewrite Hget.
  apply nodes_get_Some in Hget. destruct Hget as [Hupin Hid].
  destruct (String.eqb_spec (node_id upnode) dst) as [E|NE]; [now left|].
  apply IH; [assumption | | ].
  - rewrite Hid. intros x [<- | Hx]; [now left|]. right.
    destruct (Hseen _ Hx) as [-> | Hc].
    + now apply t_step.
    + eapply t_trans; [eassumption | now apply t_step].
  - rewrite Hid. destruct Hrest as [-> | Hrest]; [congruence | assumption].
Qed.

(** What [_creates_cycle] decides. *)
Lemma creates_cycle_iff ns src dst :
  wf ns -> acyclic ns -> In src ns ->
  (_creates_cycle ns src dst = true <->
   clos_trans string (up ns) (node_id src) dst).
Proof.
  intros Hwf Hac Hin. pose proof (creates_cycle_walk ns src dst) as Hw. split.
  - intros E. rewrite E in Hw. eapply cycle_walk_sound; eassumption.
  - intros Hp.
    destruct (cycle_walk_complete ns dst Hwf Hac (S (length ns)) src []
                Hin (fun x (H : In x []) => match H with end) Hp) as [E | E];
      rewrite E in Hw; congruence.
Qed.

End CycleWalk.

(** ** Writes that keep the structure *)

Section Frames.

Implicit Types (ns : list NodeItem) (n : NodeItem) (k a b : string).

(** [compute] writes no field of [same_config]. *)
Lemma compute_frame upstream_vout self s' :
  compute upstream_vout self = ret s' -> same_config self s'.
Proof.
  unfold compute. rewrite !stype_set_errors_vin.
  destruct (stype self =? "INPUT")%string.
  { intros H. injection H as <-. unfold compute_input. stage_simpl.
    destruct (negb _); stage_simpl; repeat split. }
  destruct (stype self =? "LOAD")%string.
  { intros H. injection H as <-. repeat split. }
  destruct (_ || _).
  - match goal with
    | |- context [compute_regulator ?s] =>
        destruct (compute_regulator_spec s) as (r & -> & Hf & _)
    end.
    intros H. injection H as <-. exact Hf.
  - intros H. injection H as <-. repeat split.
Qed.

Lemma computed_frame upstream_vout self :
  same_config self (computed upstream_vout self).
Proof. eapply compute_frame, compute_computed. Qed.

Lemma skeleton_update_stage ns k f :
  keeps_links f -> skeleton (update_stage ns k f) = skeleton ns.
Proof.
  intros Hf. unfold skeleton, update_stage. rewrite map_map.
  apply map_ext. intros n. destruct (node_id n =? k)%string; [|reflexivity].
  unfold node_id. cbn. destruct (Hf (stage n)) as [-> ->]. reflexivity.
Qed.

Lemma ids_skeleton ns : ids ns = map fst (skeleton ns).
Proof. unfold ids, skeleton. rewrite map_map. reflexivity. Qed.

Lemma skeleton_request_current k ns :
  skeleton (request_current k ns) = skeleton ns.
Proof.
  unfold request_current. destruct (nodes_get ns k); [|reflexivity].
  destruct (_ =? "LOAD")%string; apply skeleton_update_stage;
    intros s; split; reflexivity.
Qed.

Lemma skeleton_fold (g : string -> list NodeItem -> list NodeItem) keys :
  (forall k ns, skeleton (g k ns) = skeleton ns) ->
  forall ns, skeleton (fold_left (fun ns k => g k ns) keys ns) = skeleton ns.
Proof.
  intros Hg. induction keys as [|k r IH]; intros ns; [reflexivity|].
  cbn. rewrite IH. apply Hg.
Qed.

Lemma skeleton_requested ns :
  skeleton (compute_requested_currents ns) = skeleton ns.
Proof.
  unfold compute_requested_currents.
  apply (skeleton_fold request_current), skeleton_request_current.
Qed.

Lemma compute_node_computed k ns :
  compute_node k ns = ret (computed_node k ns).
Proof.
  unfold compute_node, computed_node.
  destruct (nodes_get ns k) as [n|]; [|reflexivity].
  now rewrite compute_computed.
Qed.

Lemma for_each_fold keys body (g : string -> list NodeItem -> list NodeItem) :
  (forall k ns, body k ns = ret (g k ns)) ->
  forall ns, for_each keys body ns = ret (fold_left (fun ns k => g k ns) keys ns).
Proof.
  intros Hb. induction keys as [|k r IH]; intros ns; [reflexivity|].
  cbn [for_each fold_left]. rewrite Hb. cbn [bind ret]. apply IH.
Qed.

Lemma skeleton_computed_node k ns :
  NoDup (ids ns) -> skeleton (computed_node k ns) = skeleton ns.
Proof.
  intros Hnd. unfold computed_node.
  destruct (nodes_get ns k) as [n|] eqn:Hg; [|reflexivity].
  apply nodes_get_Some in Hg. destruct Hg as [Hin Hid].
  unfold skeleton, update_stage. rewrite map_map. apply map_ext_in.
  intros m Hm.
  destruct (String.eqb_spec (node_id m) k) as [E|_]; [|reflexivity].
  assert (m = n) as -> by (eapply same_id_same_node; eauto; congruence).
  unfold node_id. cbn.
  destruct (computed_frame (upstream_vout_of ns (stage n)) (stage n))
    as (-> & _ & _ & _ & _ & _ & _ & _ & _ & _ & _ & -> & _).
  reflexivity.
Qed.

Lemma NoDup_ids_skeleton ns ns' :
  skeleton ns' = skeleton ns -> NoDup (ids ns) -> NoDup (ids ns').
Proof. intros E. now rewrite !ids_skeleton, E. Qed.

Lemma skeleton_fold_nodup
    (g : string -> list NodeItem -> list NodeItem) keys :
  (forall k ns, NoDup (ids ns) -> skeleton (g k ns) = skeleton ns) ->
  forall ns, NoDup (ids ns) ->
    skeleton (fold_left (fun ns k => g k ns) keys ns) = skeleton ns.
Proof.
  intros Hg. induction keys as [|k r IH]; intros ns Hnd; [reflexivity|].
  cbn. rewrite IH.
  - now apply Hg.
  - eapply NoDup_ids_skeleton; [apply Hg|]; assumption.
Qed.

Lemma skeleton_check_supply k ns :
  skeleton (check_supply k ns) = skeleton ns.
Proof.
  unfold check_supply. destruct (nodes_get ns k); [|reflexivity].
  destruct (_ =? "INPUT")%string; [|reflexivity].
  destruct (_ <? _)%float; [|destruct (_ <? _)%float; [|reflexivity]];
    apply skeleton_update_stage; intros s; split; reflexivity.
Qed.

(** A pass returns: none of its steps raises. *)
Lemma pass_swept ns : pass ns = ret (swept ns).
Proof.
  unfold pass, swept.
  rewrite (for_each_fold _ _ computed_node compute_node_computed).
  reflexivity.
Qed.

Lemma skeleton_swept ns :
  NoDup (ids ns) -> skeleton (swept ns) = skeleton ns.
Proof.
  intros Hnd. unfold swept.
  rewrite (skeleton_fold check_supply), skeleton_fold_nodup.
  - apply skeleton_requested.
  - intros. now apply skeleton_computed_node.
  - eapply NoDup_ids_skeleton; [apply skeleton_requested | assumption].
  - apply skeleton_check_supply.
Qed.

Lemma passes_sweeps i : forall ns, passes i ns = ret (sweeps i ns).
Proof.
  induction i as [|i IH]; intros ns; [reflexivity|].
  cbn [passes sweeps]. rewrite pass_swept. cbn [bind ret]. apply IH.
Qed.

Lemma skeleton_sweeps i :
  forall ns, NoDup (ids ns) -> skeleton (sweeps i ns) = skeleton ns.
Proof.
  induction i as [|i IH]; intros ns Hnd; [reflexivity|].
  cbn [sweeps]. rewrite IH.
  - now apply skeleton_swept.
  - eapply NoDup_ids_skeleton; [apply skeleton_swept|]; assumption.
Qed.

(** Whatever [recompute_all] returns has the structure it was given. *)
Lemma recompute_all_skeleton sc sc' :
  NoDup (ids (nodes sc)) ->
  recompute_all sc = ret sc' ->
  skeleton (nodes sc') = skeleton (nodes sc) /\ edges sc' = edges sc.
Proof.
  intros Hnd. unfold recompute_all.
  destruct (pass_count (nodes sc)) as [e|n]; [discriminate|]. cbn [bind].
  rewrite passes_sweeps. cbn [bind ret]. intros H. injection H as <-.
  cbn [nodes edges]. split; [now apply skeleton_sweeps | reflexivity].
Qed.

(** [wf] and [acyclic] only look at the structure. *)
Lemma up_skeleton ns ns' a b :
  skeleton ns' = skeleton ns -> (up ns' a b <-> up ns a b).
Proof. unfold up. now intros ->. Qed.

Lemma wf_skeleton ns ns' : skeleton ns' = skeleton ns -> wf ns -> wf ns'.
Proof.
  intros E (Hnd & Hne & Hd). unfold wf.
  assert (Hi : ids ns' = ids ns) by now rewrite !ids_skeleton, E.
  rewrite Hi. repeat split; try assumption.
  intros a b H. apply (up_skeleton _ _ _ _ E) in H. exact (Hd a b H).
Qed.

Lemma acyclic_skeleton ns ns' :
  skeleton ns' = skeleton ns -> acyclic ns -> acyclic ns'.
Proof. unfold acyclic, up. now intros ->. Qed.

End Frames.

(** ** [depth] returns on a store without a cycle *)

Section Depth.

Implicit Types (ns : list NodeItem) (n : NodeItem) (k a b : string).

Lemma mapM_returns {A B : Type} (f : A -> M B) (l : list A) :
  (forall x, In x l -> exists y, f x = ret y) ->
  exists ys, mapM f l = ret ys /\ length ys = length l.
Proof.
  induction l as [|x r IH]; intros H.
  - exists []. now split.
  - destruct (H x (or_introl eq_refl)) as [y Hy].
    destruct IH as (ys & Hys & Hlen).
    { intros z Hz. apply H. now right. }
    exists (y :: ys). cbn [mapM]. rewrite Hy, Hys. cbn. now rewrite Hlen.
Qed.

Lemma children_up ns k c : In c (children ns k) -> up ns (node_id c) k.
Proof.
  unfold children. rewrite filter_In. intros [Hin Hu]. apply up_iff.
  exists c. repeat split; [assumption|].
  unfold upstream_is in Hu. destruct (upstream (stage c)) as [u|]; [|discriminate].
  apply String.eqb_eq in Hu. now subst.
Qed.

Lemma depth_returns_from ns :
  acyclic ns ->
  forall fuel path k,
    In k (ids ns) ->
    NoDup path -> incl path (ids ns) ->
    (forall x, In x path -> clos_trans string (up ns) k x) ->
    length (ids ns) < fuel + length path ->
    exists d, depth fuel ns k = ret d.
Proof.
  intros Hac.
  induction fuel as [|fuel IH]; intros path k Hk Hp Hincl Hanc Hlen.
  - pose proof (NoDup_incl_length Hp Hincl). cbn in Hlen. lia.
  - cbn [depth]. fold (children ns k).
    destruct (children ns k) as [|c0 cs] eqn:Hch; [eauto|].
    destruct (mapM_returns (fun child => depth fuel ns (node_id child))
                (c0 :: cs)) as (ds & -> & _); [|cbn; eauto].
    intros c Hc. rewrite <- Hch in Hc. apply children_up in Hc.
    apply (IH (k :: path)).
    + exact (up_source_in _ _ _ Hc).
    + constructor; [|assumption].
      intros Hin. exact (Hac k (Hanc k Hin)).
    + intros y [<- | Hy]; [assumption | now apply Hincl].
    + intros y [<- | Hy]; [now apply t_step|].
      eapply t_trans; [apply t_step; eassumption | now apply Hanc].
    + cbn. lia.
Qed.

Lemma depth_returns ns k :
  acyclic ns -> In k (ids ns) -> exists d, depth (depth_fuel ns) ns k = ret d.
Proof.
  intros Hac Hk. apply (depth_returns_from ns Hac _ []); trivial.
  - constructor.
  - intros y [].
  - intros y [].
  - unfold depth_fuel, ids. rewrite length_map. cbn. lia.
Qed.

Lemma max_input_depth_returns all :
  acyclic all ->
  forall ns m, incl ns all -> exists d, max_input_depth ns all m = ret d.
Proof.
  intros Hac. induction ns as [|n r IH]; intros m Hincl;
    cbn [max_input_depth]; [eauto|].
  assert (Hr : incl r all) by (intros x Hx; apply Hincl; now right).
  destruct (_ =? "INPUT")%string; [|now apply IH].
  destruct (depth_returns all (node_id n) Hac) as [d ->].
  { apply in_map, Hincl. now left. }
  cbn [bind ret]. now apply IH.
Qed.

Lemma pass_count_returns ns :
  acyclic ns -> exists c, pass_count ns = ret c /\ 1 <= c.
Proof.
  intros Hac. unfold pass_count.
  destruct (max_input_depth_returns ns Hac ns 0) as [d ->].
  { apply incl_refl. }
  cbn [bind ret]. eexists. split; [reflexivity | apply Nat.le_max_l].
Qed.

(** [recompute_all] returns on every store without a cycle. *)
Lemma recompute_all_returns sc :
  acyclic (nodes sc) -> exists sc', recompute_all sc = ret sc'.
Proof.
  intros Hac. unfold recompute_all.
  destruct (pass_count_returns _ Hac) as (c & -> & _).
  cbn [bind ret]. rewrite passes_sweeps. cbn [bind ret]. eauto.
Qed.

Lemma recompute_all_keeps sc sc' :
  wf (nodes sc) -> acyclic (nodes sc) ->
  recompute_all sc = ret sc' ->
  wf (nodes sc') /\ acyclic (nodes sc') /\
  skeleton (nodes sc') = skeleton (nodes sc) /\ edges sc' = edges sc.
Proof.
  intros Hwf Hac H.
  destruct (recompute_all_skeleton sc sc' (proj1 Hwf) H) as [Hs He].
  repeat split; try assumption.
  - eapply wf_skeleton; eassumption.
  - eapply wf_skeleton; eassumption.
  - eapply wf_skeleton; eassumption.
  - eapply acyclic_skeleton; eassumption.
Qed.

End Depth.

(** ** One more edge *)

Section OneMoreEdge.

Variable A : Type.
Variable R : A -> A -> Prop.
Variables d s : A.





End OneMoreEdge.

Lemma clos_trans_mono (A : Type) (R R' : A -> A -> Prop) :
  (forall x y, R x y -> R' x y) ->
  forall x y, clos_trans A R x y -> clos_trans A R' x y.
Proof.
  intros Hsub x y. induction 1 as [x y H | x y z _ IH1 _ IH2].
  - apply t_step. now apply Hsub.
  - eapply t_trans; eassumption.
Qed.

Section AddEdge.

Implicit Types (ns : list NodeItem) (n : NodeItem) (k a b : string).

Lemma ids_update_stage ns k f :
  keeps_links f -> ids (update_stage ns k f) = ids ns.
Proof.
  intros Hf. unfold ids, update_stage. rewrite map_map. apply map_ext.
  intros n. destruct (node_id n =? k)%string; [|reflexivity].
  unfold node_id. cbn. now destruct (Hf (stage n)).
Qed.

Lemma ids_set_upstream ns k u :
  ids (update_stage ns k (fun st => set_upstream st u)) = ids ns.
Proof.
  unfold ids, update_stage. rewrite map_map. apply map_ext.
  intros n. now destruct (node_id n =? k)%string.
Qed.








End AddEdge.

(** ** The executable checks are sound *)

Section Checks.

Implicit Types (ns : list NodeItem) (n : NodeItem) (k a b : string).

Lemma nodupb_sound l : nodupb l = true -> NoDup l.
Proof.
  induction l as [|x r IH]; cbn; intros H; constructor.
  - apply andb_prop in H. destruct H as [H _].
    apply negb_true_iff in H. now apply mem_false.
  - apply andb_prop in H. now apply IH.
Qed.

Lemma wfb_sound ns : wfb ns = true -> wf ns.
Proof.
  unfold wfb. intros H.
  apply andb_prop in H. destruct H as [H Hd].
  apply andb_prop in H. destruct H as [Hn He].
  split; [now apply nodupb_sound|]. split.
  - apply negb_true_iff in He. now apply mem_false.
  - intros a b Hup. apply up_iff in Hup. destruct Hup as (n & Hin & _ & Hu).
    rewrite forallb_forall in Hd. specialize (Hd n Hin). rewrite Hu in Hd.
    now apply mem_In.
Qed.

Lemma chain_ends_acc ns :
  NoDup (ids ns) ->
  forall fuel k, chain_ends fuel ns k = true -> Acc (fun a b => up ns b a) k.
Proof.
  intros Hnd. induction fuel as [|fuel IH]; intros k H; [discriminate|].
  cbn [chain_ends] in H. constructor. intros y Hy.
  apply (up_get _ _ _ Hnd) in Hy. destruct Hy as (n & Hg & Hu).
  rewrite Hg, Hu in H. now apply IH.
Qed.

Lemma acc_no_cycle (A : Type) (R : A -> A -> Prop) x :
  Acc R x -> ~ clos_trans A R x x.
Proof.
  induction 1 as [x _ IH]. intros H.
  assert (Hlast : exists y, R y x /\ (x = y \/ clos_trans A R x y)).
  { apply clos_trans_tn1 in H.
    inversion H as [Hs | y ? Hs Hrest]; subst.
    - exists x. split; [assumption | now left].
    - exists y. split; [assumption|]. right. now apply clos_tn1_trans. }
  destruct Hlast as (y & Hyx & Hxy). apply (IH y Hyx).
  destruct Hxy as [<- | Hxy]; [assumption|].
  eapply t_trans; [apply t_step; eassumption | assumption].
Qed.

Lemma acyclicb_sound ns : NoDup (ids ns) -> acyclicb ns = true -> acyclic ns.
Proof.
  intros Hnd H a Hc. unfold acyclicb in H. rewrite forallb_forall in H.
  assert (Hin : In a (ids ns)).
  { apply clos_trans_t1n in Hc.
    inversion Hc as [? Hs | ? ? Hs _]; subst; exact (up_source_in _ _ _ Hs). }
  apply (acc_no_cycle _ (fun a b => up ns b a) a).
  - eapply chain_ends_acc; [assumption | now apply H].
  - apply clos_trans_flip. cbn. exact Hc.
Qed.

End Checks.

(** ** [add_edge] *)

Section AddEdgeClaims.

Implicit Types (ns : list NodeItem) (n : NodeItem) (k a b : string).












(** There a load becomes the upstream of a source. *)
Example load_feeds_source :
  exists sc' n,
    add_edge two_roots "b" "a" = ret (sc', Connected ("b", "a"))%string /\
    nodes_get (nodes sc') "a" = Some n /\
    stype (stage n) = "INPUT"%string /\
    upstream (stage n) = Some "b"%string.
Proof.
  eexists. eexists. split; [vm_compute; reflexivity|].
  split; [reflexivity|]. split; reflexivity.
Qed.

(** Why [wf] asks for non-empty ids: the walk and Kahn's seed test the
    upstream pointer for truth, and the empty string is false.  In a store
    that holds a node whose id is empty, the walk stops at a pointer to it,
    and an edge that closes a cycle is accepted. *)
Example empty_id_hides_a_cycle :
  let sc := mkPowerScene [plain "" "LDO" None; plain "b" "LDO" None] [] in
  exists sc1 sc2,
    add_edge sc "" "b" = ret (sc1, Connected ("", "b"))%string /\
    add_edge sc1 "b" "" = ret (sc2, Connected ("b", ""))%string /\
    skeleton (nodes sc2) = [("", Some "b"); ("b", Some "")]%string.
Proof.
  eexists. eexists. split; [vm_compute; reflexivity|].
  split; [vm_compute; reflexivity|]. reflexivity.
Qed.

End AddEdgeClaims.

(** ** The document codec *)

Section Codec.

Implicit Types (ns : list NodeItem) (n : NodeItem) (k a b : string).

Lemma ids_nodes_set ns n :
  ids (nodes_set ns n)
  = if mem (node_id n) (ids ns) then ids ns else ids ns ++ [node_id n].
Proof.
  induction ns as [|m r IH]; [reflexivity|].
  cbn [nodes_set ids map mem existsb].
  destruct (String.eqb_spec (node_id m) (node_id n)) as [E|NE].
  - cbn. now rewrite E.
  - cbn [orb map]. fold (ids r) (ids (nodes_set r n)). rewrite IH.
    fold (mem (node_id n) (ids r)).
    now destruct (mem (node_id n) (ids r)).
Qed.

Lemma nodes_set_NoDup ns n : NoDup (ids ns) -> NoDup (ids (nodes_set ns n)).
Proof.
  intros H. rewrite ids_nodes_set.
  destruct (mem (node_id n) (ids ns)) eqn:E; [assumption|].
  apply mem_false in E. apply NoDup_app; [assumption | repeat constructor; intros [] |].
  intros x Hx [<- | []]. contradiction.
Qed.

Lemma load_nodes_NoDup fresh l :
  forall i acc, NoDup (ids acc) -> NoDup (ids (load_nodes fresh i l acc)).
Proof.
  induction l as [|nd r IH]; intros i acc H; [assumption|].
  cbn [load_nodes]. apply IH. now apply nodes_set_NoDup.
Qed.

Lemma loaded_nodes_NoDup fresh data : NoDup (ids (loaded_nodes fresh data)).
Proof. apply load_nodes_NoDup. constructor. Qed.

Lemma upstream_of_skeleton ns k :
  upstream_of ns k
  = match find (fun p => (fst p =? k)%string) (skeleton ns) with
    | Some p => snd p
    | None => None
    end.
Proof.
  unfold upstream_of, nodes_get, skeleton.
  induction ns as [|m r IH]; [reflexivity|].
  cbn [map find fst]. destruct (node_id m =? k)%string; [reflexivity | exact IH].
Qed.

Lemma upstream_of_same ns ns' k :
  skeleton ns' = skeleton ns -> upstream_of ns' k = upstream_of ns k.
Proof. intros E. now rewrite !upstream_of_skeleton, E. Qed.

Lemma upstream_of_set ns dst src k :
  upstream_of (update_stage ns dst (fun st => set_upstream st (Some src))) k
  = if (dst =? k)%string && mem dst (ids ns) then Some src
    else upstream_of ns k.
Proof.
  unfold upstream_of, nodes_get, update_stage.
  induction ns as [|m r IH].
  - cbn. now rewrite andb_false_r.
  - cbn [map find ids mem existsb].
    destruct (String.eqb_spec (node_id m) dst) as [E|NE].
    + unfold node_id at 1. cbn [stage set_upstream id]. fold (node_id m).
      rewrite E. cbn [orb].
      destruct (String.eqb_spec dst k) as [Ek|NEk]; [reflexivity|].
      cbn [andb] in IH |- *. exact IH.
    + cbn [orb]. destruct (String.eqb_spec (node_id m) k) as [Ek|NEk].
      * destruct (String.eqb_spec dst k); [congruence | reflexivity].
      * exact IH.
Qed.

Lemma ids_load_edge sc e : ids (nodes (load_edge sc e)) = ids (nodes sc).
Proof.
  unfold load_edge.
  destruct (nodes_get (nodes sc) (fst e)), (nodes_get (nodes sc) (snd e));
    try reflexivity.
  apply ids_set_upstream.
Qed.

Lemma mem_ids_get ns k :
  mem k (ids ns) = match nodes_get ns k with Some _ => true | None => false end.
Proof.
  destruct (nodes_get ns k) as [n|] eqn:E.
  - apply mem_In. eapply get_in_ids; eassumption.
  - apply mem_false. now apply nodes_get_None.
Qed.

Lemma upstream_of_load_edge sc e k :
  upstream_of (nodes (load_edge sc e)) k
  = if (snd e =? k)%string && mem (fst e) (ids (nodes sc))
       && mem (snd e) (ids (nodes sc))
    then Some (fst e) else upstream_of (nodes sc) k.
Proof.
  unfold load_edge. rewrite !mem_ids_get.
  destruct (nodes_get (nodes sc) (fst e)) as [s|] eqn:Hs.
  - destruct (nodes_get (nodes sc) (snd e)) as [d|] eqn:Hd.
    + cbn [nodes]. apply nodes_get_Some in Hs, Hd.
      destruct Hs as [_ Es], Hd as [Hdin Ed].
      rewrite upstream_of_set, Es, Ed.
      assert (mem (snd e) (ids (nodes sc)) = true) as ->
        by (apply mem_In; rewrite <- Ed; now apply in_map).
      now rewrite !andb_true_r.
    + now rewrite andb_false_r.
  - now rewrite andb_false_r.
Qed.

Lemma ids_fold_load_edge es :
  forall sc, ids (nodes (fold_left load_edge es sc)) = ids (nodes sc).
Proof.
  induction es as [|e r IH]; intros sc; [reflexivity|].
  cbn [fold_left]. rewrite IH. apply ids_load_edge.
Qed.

Lemma fold_load_edge_upstream k es :
  forall sc,
    upstream_of (nodes (fold_left load_edge es sc)) k
    = match deciding_edge (ids (nodes sc)) es k with
      | Some e => Some (fst e)
      | None => upstream_of (nodes sc) k
      end.
Proof.
  unfold deciding_edge.
  induction es as [|e r IH] using rev_ind; intros sc; [reflexivity|].
  rewrite fold_left_app, rev_app_distr. cbn [fold_left rev app find].
  rewrite upstream_of_load_edge, ids_fold_load_edge.
  destruct ((snd e =? k)%string && mem (fst e) (ids (nodes sc))
            && mem (snd e) (ids (nodes sc))); [reflexivity | apply IH].
Qed.

Lemma field_value_setattr f s x :
  key_of x <> Some f -> field_value f (setattr s x) = field_value f s.
Proof.
  destruct x, f; intros H; try reflexivity; exfalso; apply H; reflexivity.
Qed.

Lemma fold_setattr_missing f data :
  (forall x, In x data -> key_of x <> Some f) ->
  forall s, field_value f (fold_left setattr data s) = field_value f s.
Proof.
  induction data as [|x r IH]; intros H s; [reflexivity|].
  cbn [fold_left]. rewrite IH.
  - apply field_value_setattr, H. now left.
  - intros y Hy. apply H. now right.
Qed.

(** C8, as the code has it: [deserialize] returns on every document whose
    loaded upstream pointers form no cycle, keeps the loaded nodes, and
    leaves as the upstream of a node the source of the last entry of the
    edge list that names the node as destination with both ends loaded;
    a node no such entry names keeps the upstream its own stage record
    gave it ([None] when the record has none).  A field no entry of a
    stage record assigns has the default of the dataclass. *)
Theorem deserialize_upstream (fresh : nat -> string) (data : document) :
  acyclic (nodes (load_document fresh data)) ->
  (exists sc',
     deserialize fresh data = ret sc' /\
     ids (nodes sc') = ids (loaded_nodes fresh data) /\
     forall k,
       upstream_of (nodes sc') k
       = match deciding_edge (ids (loaded_nodes fresh data))
                 (doc_edges data) k with
         | Some e => Some (fst e)
         | None => upstream_of (loaded_nodes fresh data) k
         end) /\
  (forall fresh_id record f,
     (forall x, In x record -> key_of x <> Some f) ->
     field_value f (from_dict fresh_id record)
     = field_value f (default_stage fresh_id)).
Proof.
  intros Hac. split.
  - unfold deserialize.
    destruct (recompute_all_returns _ Hac) as [sc' Hr].
    assert (Hnd : NoDup (ids (nodes (load_document fresh data)))).
    { unfold load_document. rewrite ids_fold_load_edge.
      apply loaded_nodes_NoDup. }
    destruct (recompute_all_skeleton _ _ Hnd Hr) as [Hs _].
    exists sc'. split; [assumption|]. split.
    + rewrite (ids_skeleton (nodes sc')), Hs, <- ids_skeleton.
      unfold load_document. rewrite ids_fold_load_edge. reflexivity.
    + intros k. rewrite (upstream_of_same _ _ k Hs).
      unfold load_document. rewrite fold_load_edge_upstream.
      reflexivity.
  - intros fresh_id record f H. unfold from_dict.
    now apply fold_setattr_missing.
Qed.

Lemma deserialize_upstream_witness :
  exists sc',
    deserialize (fun _ => "x"%string) unbacked_upstream = ret sc' /\
    ids (nodes sc') = ["a"; "b"]%string /\
    forall k,
      upstream_of (nodes sc') k
      = match deciding_edge ["a"; "b"]%string [] k with
        | Some e => Some (fst e)
        | None =>
            upstream_of (loaded_nodes (fun _ => "x"%string) unbacked_upstream) k
        end.
Proof.
  apply (deserialize_upstream (fun _ => "x"%string) unbacked_upstream).
  apply acyclicb_sound; [apply nodupb_sound|]; reflexivity.
Defined.

(** C8, as stated, fails: the second record of this document names the
    first as its upstream, the edge list is empty, and after [deserialize]
    the node still has that upstream. *)
Lemma unbacked_upstream_counterexample :
  doc_edges unbacked_upstream = [] /\
  exists sc',
    deserialize (fun _ => "x"%string) unbacked_upstream = ret sc' /\
    upstream_of (nodes sc') "b" = Some "a"%string.
Proof.
  split; [reflexivity|].
  eexists. split; [vm_compute; reflexivity | reflexivity].
Qed.

End Codec.

(** ** Round trip through a document *)

Section RoundTrip.

Implicit Types (ns : list NodeItem) (n : NodeItem) (k a b : string).

Lemma from_dict_to_dict fresh s : from_dict fresh (to_dict s) = s.
Proof. destruct s. reflexivity. Qed.

Lemma nodes_set_new ns n :
  ~ In (node_id n) (ids ns) -> nodes_set ns n = ns ++ [n].
Proof.
  induction ns as [|m r IH]; intros H; [reflexivity|].
  cbn [nodes_set app].
  destruct (String.eqb_spec (node_id m) (node_id n)) as [E|NE].
  - exfalso. apply H. left. exact E.
  - rewrite IH; [reflexivity|]. intros Hin. apply H. now right.
Qed.

Lemma load_nodes_serialized fresh ns :
  forall i acc,
    NoDup (ids (acc ++ ns)) ->
    load_nodes fresh i
      (map (fun n => mkDocNode (to_dict (stage n)) (Some (pos n))) ns) acc
    = acc ++ ns.
Proof.
  induction ns as [|n r IH]; intros i acc H.
  - now rewrite app_nil_r.
  - cbn [map load_nodes doc_stage doc_pos]. rewrite from_dict_to_dict.
    assert (E : mkNodeItem (stage n) (pos n) = n) by now destruct n.
    rewrite E.
    assert (Hn : ~ In (node_id n) (ids acc)).
    { unfold ids in *. rewrite map_app in H. cbn [map] in H.
      apply NoDup_remove_2 in H. intros Hin. apply H.
      apply in_or_app. now left. }
    rewrite (nodes_set_new _ _ Hn), IH.
    + now rewrite <- app_assoc.
    + now rewrite <- app_assoc.
Qed.

Lemma update_stage_same ns k f :
  (forall n, In n ns -> node_id n = k -> f (stage n) = stage n) ->
  update_stage ns k f = ns.
Proof.
  intros H. unfold update_stage.
  rewrite <- (map_id ns) at 2. apply map_ext_in. intros n Hin.
  destruct (String.eqb_spec (node_id n) k) as [E|_]; [|reflexivity].
  rewrite (H n Hin E). now destruct n.
Qed.

Lemma set_upstream_same s : set_upstream s (upstream s) = s.
Proof. now destruct s. Qed.

Lemma load_edge_consistent ns es e :
  NoDup (ids ns) ->
  In (fst e) (ids ns) -> upstream_of ns (snd e) = Some (fst e) ->
  load_edge (mkPowerScene ns es) e = mkPowerScene ns (es ++ [e]).
Proof.
  intros Hnd Hs Hu. unfold load_edge. cbn [nodes edges].
  destruct (in_ids_get _ _ Hs) as [s Hgs]. rewrite Hgs.
  unfold upstream_of in Hu.
  destruct (nodes_get ns (snd e)) as [d|] eqn:Hgd; [|discriminate].
  apply nodes_get_Some in Hgs, Hgd.
  destruct Hgs as [_ Es], Hgd as [Hdin Ed]. rewrite Es, Ed.
  rewrite update_stage_same.
  - now destruct e.
  - intros n Hin E.
    assert (n = d) as -> by (eapply same_id_same_node; eauto; congruence).
    rewrite <- Hu. apply set_upstream_same.
Qed.

Lemma fold_load_edge_consistent ns es :
  NoDup (ids ns) ->
  Forall (fun e => In (fst e) (ids ns) /\ upstream_of ns (snd e) = Some (fst e))
    es ->
  forall loaded,
    fold_left load_edge es (mkPowerScene ns loaded)
    = mkPowerScene ns (loaded ++ es).
Proof.
  intros Hnd. induction 1 as [|e r [Hs Hu] _ IH]; intros loaded.
  - now rewrite app_nil_r.
  - cbn [fold_left]. rewrite (load_edge_consistent _ _ _ Hnd Hs Hu), IH.
    now rewrite <- app_assoc.
Qed.

Lemma load_serialized fresh sc :
  consistent sc -> load_document fresh (serialize sc) = sc.
Proof.
  intros [Hnd Hes]. unfold load_document, serialize.
  cbn [doc_nodes doc_edges].
  rewrite (load_nodes_serialized fresh (nodes sc) 0 []); [|exact Hnd].
  cbn [app]. rewrite (fold_load_edge_consistent _ _ Hnd Hes).
  now destruct sc.
Qed.

(** C7, as the code has it: for every scene whose edge list agrees with
    its upstream pointers, [deserialize(serialize(G))] is what
    [recompute_all] makes of [G]: the same nodes in the same order with
    the same ids and upstream pointers and the same edge list, and the
    stage fields one more recompute of [G] gives.  The stage records are
    those of [G] itself exactly when that recompute leaves [G] as it is. *)
Theorem deserialize_serialize (fresh : nat -> string) (sc : PowerScene) :
  consistent sc ->
  deserialize fresh (serialize sc) = recompute_all sc /\
  (forall sc',
     deserialize fresh (serialize sc) = ret sc' ->
     skeleton (nodes sc') = skeleton (nodes sc) /\ edges sc' = edges sc) /\
  (deserialize fresh (serialize sc) = ret sc <-> recompute_all sc = ret sc).
Proof.
  intros Hc.
  assert (E : deserialize fresh (serialize sc) = recompute_all sc)
    by (unfold deserialize; now rewrite load_serialized).
  split; [exact E|]. rewrite E. split; [|reflexivity].
  intros sc' H. exact (recompute_all_skeleton sc sc' (proj1 Hc) H).
Qed.

Lemma deserialize_serialize_witness :
  deserialize (fun _ => "x"%string) (serialize regulator_and_load)
  = recompute_all regulator_and_load.
Proof.
  apply (deserialize_serialize (fun _ => "x"%string) regulator_and_load).
  split; [apply nodupb_sound; reflexivity|].
  apply Forall_cons; [|apply Forall_nil].
  split; [vm_compute; auto | reflexivity].
Defined.

(** C7, as stated, fails on a scene built through the API: an LDO and a
    load are added and connected, and the load current is then edited.
    The scene that leaves has the LDO ask for no current; after a round
    trip through a document the LDO asks for 0.5 A. *)
Lemma round_trip_counterexample :
  exists G G',
    sourceless_chain = ret G /\
    deserialize (fun _ => "x"%string) (serialize G) = ret G' /\
    iout_user_of (nodes G) "a" = Some 0%float /\
    iout_user_of (nodes G') "a" = Some 0.5%float /\
    G' <> G.
Proof.
  eexists. eexists. split; [vm_compute; reflexivity|].
  split; [vm_compute; reflexivity|].
  split; [reflexivity|]. split; [reflexivity|].
  intros E.
  apply (f_equal (fun g => match iout_user_of (nodes g) "a" with
                           | Some x => (x =? 0)%float
                           | None => false
                           end)) in E.
  vm_compute in E. discriminate E.
Qed.

End RoundTrip.

(** ** Scenario A *)

Section ScenarioA.

Local Open Scope float_scope.

(** C9: the chain of a source (12 V nominal and output, band 11 to 13 V,
    2 A), an LDO (5 V out, input band 0 to 20 V) and a load (0.5 A), built
    from the defaults through the API, ends with the load drawing
    [i_in = 0.5], the LDO asked for [iout_user = 0.5] at
    [eff_effective = 5/12] and [p_out = 2.5], and no diagnostic on any
    node; one more recompute changes nothing. *)
Theorem scenario_A_values :
  exists sc src ldo load,
    scenario_A = ret sc /\
    nodes sc = [src; ldo; load] /\
    edges sc = [("src", "ldo"); ("ldo", "load")]%string /\
    (stype (stage src) = "INPUT"%string /\ upstream (stage src) = None /\
     vin_nom (stage src) = 12 /\ vout (stage src) = 12 /\
     vin_min (stage src) = 11 /\ vin_max (stage src) = 13 /\
     iout_max_ic (stage src) = 2) /\
    (stype (stage ldo) = "LDO"%string /\
     upstream (stage ldo) = Some "src"%string /\
     vout (stage ldo) = 5 /\ vin_min (stage ldo) = 0 /\
     vin_max (stage ldo) = 20) /\
    (stype (stage load) = "LOAD"%string /\
     upstream (stage load) = Some "ldo"%string /\
     load_current (stage load) = 0.5) /\
    i_in (stage load) = 0.5 /\
    iout_user (stage ldo) = 0.5 /\
    eff_effective (stage ldo) = 5 / 12 /\
    p_out (stage ldo) = 2.5 /\
    errors (stage src) = [] /\ errors (stage ldo) = [] /\
    errors (stage load) = [] /\
    recompute_all sc = ret sc.
Proof.
  do 4 eexists. split; [vm_compute; reflexivity|].
  split; [reflexivity|]. split; [reflexivity|].
  split; [repeat (split; [reflexivity|]); reflexivity|].
  split; [repeat (split; [reflexivity|]); reflexivity|].
  split; [repeat (split; [reflexivity|]); reflexivity|].
  repeat (split; [reflexivity|]). vm_compute. reflexivity.
Qed.

End ScenarioA.

(** ** Kahn's loop *)

Section Kahn.

Implicit Types (ns : list NodeItem) (n : NodeItem) (k a b : string).
Implicit Types (c : counts).

Lemma keys_count_add c k d : keys (count_add c k d) = keys c.
Proof.
  unfold keys, count_add. rewrite map_map. apply map_ext.
  intros kv. now destruct (fst kv =? k)%string.
Qed.

Lemma count_get_add c k d k' :
  count_get (count_add c k d) k'
  = if (k =? k')%string && mem k (keys c)
    then (count_get c k' + d)%Z else count_get c k'.
Proof.
  unfold count_get, count_add, keys.
  induction c as [|kv r IH].
  - cbn. now rewrite andb_false_r.
  - cbn [map find mem existsb].
    destruct (String.eqb_spec (fst kv) k) as [E|NE]; cbn [fst].
    + rewrite E. cbn [orb].
      destruct (String.eqb_spec k k') as [E'|NE'].
      * reflexivity.
      * cbn [andb] in IH |- *. exact IH.
    + cbn [orb]. destruct (String.eqb_spec (fst kv) k') as [E'|NE'].
      * destruct (String.eqb_spec k k'); [congruence | reflexivity].
      * exact IH.
Qed.

Lemma count_get_zeros ns k :
  count_get (map (fun n => (node_id n, 0%Z)) ns) k = 0%Z.
Proof.
  unfold count_get. induction ns as [|m r IH]; [reflexivity|].
  cbn [map find fst]. destruct (node_id m =? k)%string; [reflexivity | exact IH].
Qed.

Lemma fold_counts l :
  forall c k,
    NoDup (ids l) -> incl (ids l) (keys c) ->
    count_get
      (fold_left
         (fun c n => if Py.truthy (upstream (stage n))
                     then count_add c (node_id n) 1 else c) l c) k
    = (count_get c k + bump l k)%Z
    /\ keys (fold_left
         (fun c n => if Py.truthy (upstream (stage n))
                     then count_add c (node_id n) 1 else c) l c) = keys c.
Proof.
  induction l as [|m r IH]; intros c k Hnd Hincl.
  - cbn. split; [lia | reflexivity].
  - cbn [fold_left]. inversion Hnd as [|? ? Hm Hr]; subst.
    assert (Hin : In (node_id m) (keys c)) by (apply Hincl; now left).
    assert (Hincl' : incl (ids r) (keys c))
      by (intros x Hx; apply Hincl; now right).
    assert (Hb : bump (m :: r) k
                 = if (node_id m =? k)%string
                   then (if Py.truthy (upstream (stage m)) then 1 else 0)%Z
                   else bump r k).
    { unfold bump, nodes_get. cbn [find].
      now destruct (node_id m =? k)%string. }
    assert (Hz : (node_id m =? k)%string = true -> bump r k = 0%Z).
    { intros E. apply String.eqb_eq in E. unfold bump.
      assert (nodes_get r k = None) as ->; [|reflexivity].
      apply nodes_get_None. now rewrite <- E. }
    rewrite Hb.
    destruct (Py.truthy (upstream (stage m))) eqn:Ht.
    + destruct (IH (count_add c (node_id m) 1) k Hr) as [-> ->].
      { now rewrite keys_count_add. }
      rewrite keys_count_add, count_get_add.
      apply mem_In in Hin. rewrite Hin, andb_true_r.
      split; [|reflexivity].
      destruct (node_id m =? k)%string; [rewrite Hz by reflexivity|]; lia.
    + destruct (IH c k Hr Hincl') as [-> ->]. split; [|reflexivity].
      destruct (node_id m =? k)%string; [rewrite Hz by reflexivity|]; lia.
Qed.

Lemma keys_zeros ns : keys (map (fun n => (node_id n, 0%Z)) ns) = ids ns.
Proof. unfold keys, ids. rewrite map_map. reflexivity. Qed.

Lemma init_counts_spec ns :
  NoDup (ids ns) ->
  keys (init_counts ns) = ids ns /\
  forall k, count_get (init_counts ns) k = bump ns k.
Proof.
  intros Hnd. unfold init_counts.
  set (base := map (fun n => (node_id n, 0%Z)) ns).
  assert (Hi : incl (ids ns) (keys base))
    by (unfold base; rewrite keys_zeros; apply incl_refl).
  split.
  - rewrite (proj2 (fold_counts ns base ""%string Hnd Hi)).
    apply keys_zeros.
  - intros k. rewrite (proj1 (fold_counts ns base k Hnd Hi)).
    unfold base. now rewrite count_get_zeros.
Qed.

Lemma children_cons m r k :
  children (m :: r) k
  = if upstream_is m k then m :: children r k else children r k.
Proof. reflexivity. Qed.

Lemma push_neighbors_cons m r cur seen (cw : counts * list string) :
  push_neighbors (m :: r) cur seen cw
  = push_neighbors r cur seen
      (if upstream_is m cur then
         if (count_get (count_add (fst cw) (node_id m) (-1)) (node_id m)
             =? 0)%Z && negb (mem (node_id m) seen)
         then (count_add (fst cw) (node_id m) (-1), node_id m :: snd cw)
         else (count_add (fst cw) (node_id m) (-1), snd cw)
       else cw).
Proof. reflexivity. Qed.

(** The inner loop, when every neighbour it meets has count [1] and has
    not been visited: it stacks them all and zeroes their counts. *)
Lemma push_neighbors_spec cur seen l :
  forall c ws,
    NoDup (ids l) -> incl (ids l) (keys c) ->
    (forall nb, In nb l -> upstream_is nb cur = true ->
       count_get c (node_id nb) = 1%Z /\ ~ In (node_id nb) seen) ->
    snd (push_neighbors l cur seen (c, ws))
    = rev (ids (children l cur)) ++ ws /\
    keys (fst (push_neighbors l cur seen (c, ws))) = keys c /\
    forall k,
      count_get (fst (push_neighbors l cur seen (c, ws))) k
      = if mem k (ids (children l cur)) then 0%Z else count_get c k.
Proof.
  induction l as [|m r IH]; intros c ws Hnd Hincl Hnb.
  - cbn. auto.
  - inversion Hnd as [|? ? Hm Hr]; subst.
    assert (Hincl' : incl (ids r) (keys c))
      by (intros x Hx; apply Hincl; now right).
    rewrite push_neighbors_cons, children_cons. cbn [fst snd].
    destruct (upstream_is m cur) eqn:Hu.
    + destruct (Hnb m (or_introl eq_refl) Hu) as [Hc Hs].
      assert (Hin : mem (node_id m) (keys c) = true)
        by (apply mem_In, Hincl; now left).
      rewrite count_get_add, String.eqb_refl, Hin, Hc.
      apply mem_false in Hs. rewrite Hs.
      change ((if true && true then (1 + -1)%Z else 1%Z) =? 0)%Z with true.
      cbn [negb andb].
      destruct (IH (count_add c (node_id m) (-1)) (node_id m :: ws) Hr)
        as (E1 & E2 & E3).
      { now rewrite keys_count_add. }
      { intros nb Hin' Hu'. destruct (Hnb nb (or_intror Hin') Hu') as [Hc' Hs'].
        split; [|assumption]. rewrite count_get_add.
        destruct (String.eqb_spec (node_id m) (node_id nb)) as [E|NE];
          [|assumption].
        exfalso. apply Hm. rewrite E. now apply in_map. }
      rewrite E1, E2, keys_count_add. split; [|split; [reflexivity|]].
      * cbn [ids map rev]. now rewrite <- app_assoc.
      * intros k. rewrite E3, count_get_add, Hin, andb_true_r.
        cbn [ids map mem existsb]. fold (ids (children r cur)).
        fold (mem k (ids (children r cur))).
        destruct (String.eqb_spec (node_id m) k) as [E|NE]; cbn [orb].
        -- rewrite <- E, Hc.
           destruct (mem (node_id m) (ids (children r cur))); reflexivity.
        -- reflexivity.
    + apply IH; try assumption.
      intros nb Hin' Hu'. apply Hnb; [now right | assumption].
Qed.

Lemma truthy_wf ns n :
  wf ns -> In n ns ->
  Py.truthy (upstream (stage n))
  = match upstream (stage n) with Some _ => true | None => false end.
Proof.
  intros (_ & Hne & Hd) Hin. destruct (upstream (stage n)) as [u|] eqn:Hu;
    [|reflexivity].
  cbn. destruct (String.eqb_spec u "") as [->|_]; [|reflexivity].
  exfalso. apply Hne, (Hd (node_id n)). apply up_iff. eauto.
Qed.

Lemma bump_node ns n :
  wf ns -> In n ns ->
  bump ns (node_id n)
  = match upstream (stage n) with Some _ => 1%Z | None => 0%Z end.
Proof.
  intros Hwf Hin. unfold bump.
  rewrite (nodes_get_In _ _ (proj1 Hwf) Hin), (truthy_wf _ _ Hwf Hin).
  now destruct (upstream (stage n)).
Qed.

Lemma NoDup_map_filter {A B : Type} (f : A -> B) (p : A -> bool) l :
  NoDup (map f l) -> NoDup (map f (filter p l)).
Proof.
  induction l as [|x r IH]; intros H; [constructor|].
  inversion H as [|? ? Hx Hr]; subst. cbn [filter].
  destruct (p x); [|now apply IH].
  cbn [map]. constructor; [|now apply IH].
  intros Hin. apply Hx. apply in_map_iff in Hin.
  destruct Hin as (y & E & Hy). apply filter_In in Hy.
  rewrite <- E. apply in_map. tauto.
Qed.

Lemma kahn_init_inv ns : wf ns -> kahn_inv ns (kahn_init ns).
Proof.
  intros Hwf. pose proof Hwf as (Hnd & _ & _).
  destruct (init_counts_spec ns Hnd) as [Hk Hc].
  unfold kahn_init. constructor; cbn [incoming_count topo_order work_stack
                                       visited app].
  - exact Hk.
  - apply NoDup_rev. now apply NoDup_map_filter.
  - intros k Hin. apply in_rev, in_map_iff in Hin.
    destruct Hin as (n & <- & Hn). apply filter_In in Hn.
    apply in_map. tauto.
  - intros n Hin. rewrite Hc, (bump_node _ _ Hwf Hin).
    destruct (upstream (stage n)) as [u|] eqn:Hu.
    + right. split; [intros []|]. split; [reflexivity|].
      intros H. apply in_rev, in_map_iff in H.
      destruct H as (m & E & Hm). apply filter_In in Hm.
      destruct Hm as [Hmin Hz].
      assert (m = n) as -> by (eapply same_id_same_node; eauto).
      rewrite Hc, (bump_node _ _ Hwf Hin), Hu in Hz. discriminate.
    + split; [reflexivity|]. apply in_rev. rewrite rev_involutive.
      apply in_map, filter_In. split; [assumption|].
      now rewrite Hc, (bump_node _ _ Hwf Hin), Hu.
  - intros l1 k l2 E. now destruct l1.
  - intros k. reflexivity.
Qed.

Lemma child_ids ns cur n :
  NoDup (ids ns) -> In n ns ->
  (In (node_id n) (ids (children ns cur)) <-> upstream (stage n) = Some cur).
Proof.
  intros Hnd Hin. unfold ids, children. rewrite in_map_iff. split.
  - intros (m & E & Hm). apply filter_In in Hm. destruct Hm as [Hmin Hu].
    assert (m = n) as -> by (eapply same_id_same_node; eauto).
    unfold upstream_is in Hu. destruct (upstream (stage n)); [|discriminate].
    apply String.eqb_eq in Hu. now subst.
  - intros Hu. exists n. split; [reflexivity|]. apply filter_In.
    split; [assumption|]. unfold upstream_is. rewrite Hu.
    apply String.eqb_refl.
Qed.

Lemma children_ids_incl ns cur : incl (ids (children ns cur)) (ids ns).
Proof.
  intros k H. unfold ids, children in *. apply in_map_iff in H.
  destruct H as (m & <- & Hm). apply filter_In in Hm. apply in_map. tauto.
Qed.

Lemma kahn_step_inv ns st cur rest :
  wf ns -> kahn_inv ns st -> work_stack st = cur :: rest ->
  kahn_inv ns (kahn_step ns st) /\
  topo_order (kahn_step ns st) = topo_order st ++ [cur].
Proof.
  intros Hwf [Hk Hnd Hincl Hcnt Hsort Hvis] Hws.
  pose proof Hwf as (Hnodup & _ & Hdang).
  unfold kahn_step. rewrite Hws in *.
  assert (Hcur_nord : ~ In cur (topo_order st)).
  { intros H. apply NoDup_remove_2 in Hnd. apply Hnd.
    apply in_or_app. now left. }
  assert (Hpre : forall nb, In nb ns -> upstream_is nb cur = true ->
            count_get (incoming_count st) (node_id nb) = 1%Z /\
            ~ In (node_id nb) (cur :: visited st)).
  { intros nb Hin Hu. specialize (Hcnt nb Hin). unfold upstream_is in Hu.
    destruct (upstream (stage nb)) as [u|]; [|discriminate].
    apply String.eqb_eq in Hu. subst u.
    destruct Hcnt as [[H _] | (_ & Hc & Hn)]; [contradiction|].
    split; [assumption|]. intros [E | Hv].
    - apply Hn. rewrite <- E. apply in_or_app. right. now left.
    - apply Hn. apply in_or_app. left. now apply Hvis. }
  destruct (push_neighbors_spec cur (cur :: visited st) ns
              (incoming_count st) rest Hnodup
              ltac:(rewrite Hk; apply incl_refl) Hpre) as (E1 & E2 & E3).
  split; [|reflexivity].
  set (C := ids (children ns cur)) in *.
  assert (HC : forall n, In n ns ->
            (In (node_id n) C <-> upstream (stage n) = Some cur))
    by (intros; now apply child_ids).
  assert (HCfresh : forall k, In k C ->
            ~ In k (topo_order st ++ cur :: rest)).
  { intros k Hk' Hin. pose proof (children_ids_incl ns cur k Hk') as Hkid.
    destruct (in_ids_get _ _ Hkid) as [n Hg].
    apply nodes_get_Some in Hg. destruct Hg as [Hnin <-].
    apply (HC n Hnin) in Hk'. specialize (Hcnt n Hnin). rewrite Hk' in Hcnt.
    destruct Hcnt as [[H _] | (_ & _ & Hn)]; [contradiction | exact (Hn Hin)]. }
  constructor; cbn [incoming_count topo_order work_stack visited].
  - now rewrite E2.
  - rewrite E1.
    apply (Permutation_NoDup (l := rev C ++ topo_order st ++ cur :: rest)).
    + rewrite <- (app_assoc (topo_order st) [cur]). cbn [app].
      change (cur :: rev C ++ rest) with ([cur] ++ rev C ++ rest).
      rewrite (app_assoc (topo_order st) [cur]).
      etransitivity; [|apply Permutation_app_swap_app].
      rewrite <- (app_assoc (topo_order st) [cur]). reflexivity.
    + apply NoDup_app; [| assumption |].
      * apply NoDup_rev. unfold C, ids, children.
        now apply NoDup_map_filter.
      * intros k Hk'. apply in_rev in Hk'. now apply HCfresh.
  - rewrite E1. intros k Hin.
    rewrite <- app_assoc in Hin. cbn [app] in Hin.
    apply in_app_or in Hin. destruct Hin as [Hin | [<- | Hin]].
    + apply Hincl, in_or_app. now left.
    + apply Hincl, in_or_app. right. now left.
    + apply in_app_or in Hin. destruct Hin as [Hin | Hin].
      * apply in_rev in Hin. now apply children_ids_incl in Hin.
      * apply Hincl, in_or_app. right. now right.
  - intros n Hin. specialize (Hcnt n Hin). rewrite E1, E3.
    pose proof (HC n Hin) as HCn.
    destruct (mem (node_id n) C) eqn:Hmem.
    + apply mem_In in Hmem. apply HCn in Hmem. rewrite Hmem.
      left. split; [apply in_or_app; right; now left|].
      split; [reflexivity|].
      apply in_or_app. right. apply in_or_app. left.
      apply in_rev. rewrite rev_involutive. now apply HCn.
    + apply mem_false in Hmem.
      assert (Hmove : forall k, k <> cur ->
                (In k ((topo_order st ++ [cur]) ++ rev C ++ rest) <->
                 In k (topo_order st ++ cur :: rest) \/ In k C)).
      { intros k Hk'. rewrite !in_app_iff, <- in_rev. cbn [In]. tauto. }
      destruct (upstream (stage n)) as [u|] eqn:Hu.
      * assert (Hucur : u <> cur) by (intros ->; now apply Hmem, HCn).
        destruct Hcnt as [(H1 & H2 & H3) | (H1 & H2 & H3)].
        -- left. split; [apply in_or_app; now left|]. split; [assumption|].
           rewrite !in_app_iff in *. cbn [In] in *. tauto.
        -- right. split.
           { rewrite in_app_iff. cbn [In]. intros [H | [H | []]];
               [contradiction | congruence]. }
           split; [assumption|].
           rewrite !in_app_iff, <- in_rev in *. cbn [In] in *. tauto.
      * destruct Hcnt as [H1 H2]. split; [assumption|].
        rewrite !in_app_iff in *. cbn [In] in *. tauto.
  - intros l1 k l2 E u Hup.
    destruct (exists_last (l := k :: l2) ltac:(discriminate)) as (l2' & x & El).
    assert (E' : topo_order st ++ [cur] = (l1 ++ l2') ++ [x])
      by (rewrite E, <- app_assoc; f_equal; exact El).
    apply app_inj_tail in E'. destruct E' as [Eo Ex]. subst x.
    destruct l2' as [|k' l2''].
    + cbn in El. injection El as -> ->. rewrite app_nil_r in Eo. subst l1.
      assert (Hcin : In cur (ids ns))
        by (apply Hincl, in_or_app; right; now left).
      destruct (in_ids_get _ _ Hcin) as [n Hg].
      apply (up_get _ _ _ Hnodup) in Hup. destruct Hup as (n' & Hg' & Hu).
      rewrite Hg in Hg'. injection Hg' as <-.
      apply nodes_get_Some in Hg. destruct Hg as [Hnin Hid].
      specialize (Hcnt n Hnin). rewrite Hu in Hcnt.
      destruct Hcnt as [(H & _) | (_ & _ & H)]; [assumption|].
      exfalso. apply H. rewrite Hid. apply in_or_app. right. now left.
    + cbn in El. injection El as <- El.
      apply (Hsort l1 k l2'' Eo u Hup).
  - intros k. cbn [In]. rewrite in_app_iff, Hvis. cbn [In]. tauto.
Qed.

Lemma kahn_loop_inv ns :
  wf ns ->
  forall fuel st,
    kahn_inv ns st -> length ns <= length (topo_order st) + fuel ->
    kahn_inv ns (kahn_loop fuel ns st) /\
    work_stack (kahn_loop fuel ns st) = [].
Proof.
  intros Hwf. induction fuel as [|fuel IH]; intros st Hinv Hlen.
  - cbn [kahn_loop]. split; [assumption|].
    pose proof (NoDup_incl_length (inv_nodup _ _ Hinv) (inv_incl _ _ Hinv))
      as Hle.
    rewrite length_app in Hle. unfold ids in Hle. rewrite length_map in Hle.
    destruct (work_stack st); [reflexivity | cbn in Hle; lia].
  - cbn [kahn_loop]. destruct (work_stack st) as [|cur rest] eqn:Hws.
    + now split.
    + destruct (kahn_step_inv ns st cur rest Hwf Hinv Hws) as [Hinv' Ho].
      apply IH; [assumption|]. rewrite Ho, length_app. cbn. lia.
Qed.

(** On a well-formed store the loop ends with an empty stack within
    [length ns] iterations. *)
Lemma kahn_terminates ns :
  wf ns -> kahn_inv ns (kahn ns) /\ work_stack (kahn ns) = [].
Proof.
  intros Hwf. apply kahn_loop_inv; [assumption | | lia].
  now apply kahn_init_inv.
Qed.

(** On a well-formed store without a cycle, Kahn's order holds every node
    once, after its upstream. *)
Lemma kahn_topological ns :
  wf ns -> acyclic ns -> topological ns (topo_order (kahn ns)).
Proof.
  intros Hwf Hac. destruct (kahn_terminates ns Hwf) as [Hinv Hws].
  destruct Hinv as [Hk Hnd Hincl Hcnt Hsort Hvis].
  rewrite Hws, app_nil_r in *.
  split; [assumption|]. split; [|assumption].
  intros k. split; [apply Hincl|].
  induction (parents_wf ns Hac k) as [k _ IH]. intros Hin.
  destruct (in_ids_get _ _ Hin) as [n Hg].
  apply nodes_get_Some in Hg. destruct Hg as [Hnin Hid].
  specialize (Hcnt n Hnin). rewrite Hid in Hcnt.
  destruct (upstream (stage n)) as [u|] eqn:Hu; [|tauto].
  destruct Hcnt as [(_ & _ & H) | (H & _)]; [assumption|].
  exfalso. apply H.
  assert (Hup : up ns k u) by (apply up_iff; eauto).
  apply (IH u Hup). exact (proj2 (proj2 Hwf) _ _ Hup).
Qed.

Lemma filter_none {A : Type} (p : A -> bool) l :
  (forall x, In x l -> p x = false) -> filter p l = [].
Proof.
  induction l as [|x r IH]; intros H; [reflexivity|].
  cbn [filter]. rewrite (H x (or_introl eq_refl)).
  apply IH. intros y Hy. apply H. now right.
Qed.

(** Then the sweep of [recompute_all] follows Kahn's order and nothing is
    left to append. *)
Lemma compute_order_kahn ns :
  wf ns -> acyclic ns -> compute_order ns = topo_order (kahn ns).
Proof.
  intros Hwf Hac. destruct (kahn_topological ns Hwf Hac) as (_ & Hall & _).
  unfold compute_order. rewrite filter_none; [apply app_nil_r|].
  intros k Hk. apply negb_false_iff, mem_In, Hall. exact Hk.
Qed.

End Kahn.

(** ** Loops that write each node from what they do not write *)

Section Pointwise.

Implicit Types (ns : list NodeItem) (n : NodeItem) (k a b : string).

Lemma mark_nil upd ns : map (mark upd []) ns = ns.
Proof.
  rewrite <- (map_id ns) at 2. apply map_ext. reflexivity.
Qed.

Lemma mark_all upd done ns :
  incl (ids ns) done -> map (mark upd done) ns = map upd ns.
Proof.
  intros H. apply map_ext_in. intros n Hin. unfold mark.
  assert (mem (node_id n) done = true) as ->; [|reflexivity].
  apply mem_In, H. now apply in_map.
Qed.

Lemma mark_same_members upd done done' ns :
  (forall k, In k done <-> In k done') ->
  map (mark upd done) ns = map (mark upd done') ns.
Proof.
  intros H. apply map_ext. intros n. unfold mark.
  destruct (mem (node_id n) done) eqn:E, (mem (node_id n) done') eqn:E';
    try reflexivity.
  - apply mem_In, H, mem_In in E. congruence.
  - apply mem_In, H, mem_In in E'. congruence.
Qed.

(** A loop over [keys] whose step for [k] turns the store with the keys
    [done] written into the store with [k] written as well. *)
Lemma fold_marks (step : string -> list NodeItem -> list NodeItem)
    upd ns keys :
  NoDup keys ->
  (forall done k, ~ In k done ->
     step k (map (mark upd done) ns) = map (mark upd (k :: done)) ns) ->
  fold_left (fun cur k => step k cur) keys ns = map (mark upd keys) ns.
Proof.
  intros Hnd Hstep.
  assert (H : forall todo done,
             NoDup (todo ++ done) ->
             fold_left (fun cur k => step k cur) todo (map (mark upd done) ns)
             = map (mark upd (todo ++ done)) ns).
  { induction todo as [|k r IH]; intros done Hn; [reflexivity|].
    cbn [fold_left app]. cbn [app] in Hn.
    inversion Hn as [|? ? Hk Hr]; subst.
    rewrite Hstep by (intros H; apply Hk, in_or_app; now right).
    rewrite (IH (k :: done)).
    - apply mark_same_members. intros x.
      rewrite !in_app_iff. cbn [In]. rewrite in_app_iff. tauto.
    - apply (Permutation_NoDup (l := k :: r ++ done));
        [apply Permutation_middle | exact Hn]. }
  specialize (H keys []). rewrite mark_nil, app_nil_r in H.
  now apply H.
Qed.

Lemma node_id_mark upd done n :
  (forall m, node_id (upd m) = node_id m) ->
  node_id (mark upd done n) = node_id n.
Proof. intros H. unfold mark. destruct (mem _ done); [apply H | reflexivity]. Qed.

Lemma nodes_get_map (g : NodeItem -> NodeItem) ns k :
  (forall m, node_id (g m) = node_id m) ->
  nodes_get (map g ns) k = option_map g (nodes_get ns k).
Proof.
  intros H. unfold nodes_get. induction ns as [|m r IH]; [reflexivity|].
  cbn [map find]. rewrite H.
  destruct (node_id m =? k)%string; [reflexivity | exact IH].
Qed.

Lemma sum_children_map field (g : NodeItem -> NodeItem) ns k :
  (forall m, upstream (stage (g m)) = upstream (stage m) /\
             field (stage (g m)) = field (stage m)) ->
  sum_children field (map g ns) k = sum_children field ns k.
Proof.
  intros H. unfold sum_children.
  generalize 0.0%float as acc.
  induction ns as [|m r IH]; intros acc; [reflexivity|].
  cbn [map fold_left].
  assert (E : upstream_is (g m) k = upstream_is m k)
    by (unfold upstream_is; now rewrite (proj1 (H m))).
  rewrite E, (proj2 (H m)). apply IH.
Qed.

Lemma mem_cons k x l : mem k (x :: l) = (x =? k)%string || mem k l.
Proof. reflexivity. Qed.

Lemma mark_other upd done k n :
  node_id n <> k -> mark upd (k :: done) n = mark upd done n.
Proof.
  intros H. unfold mark. rewrite mem_cons.
  destruct (String.eqb_spec k (node_id n)); [congruence | reflexivity].
Qed.

Lemma mark_this upd done k n :
  node_id n = k -> mark upd (k :: done) n = upd n.
Proof. intros <-. unfold mark. now rewrite mem_cons, String.eqb_refl. Qed.

Lemma update_stage_map (g : NodeItem -> NodeItem) ns k f :
  update_stage (map g ns) k f
  = map (fun n => if (node_id (g n) =? k)%string
                  then mkNodeItem (f (stage (g n))) (pos (g n)) else g n) ns.
Proof. unfold update_stage. now rewrite map_map. Qed.

Lemma node_eta n : mkNodeItem (stage n) (pos n) = n.
Proof. now destruct n. Qed.

Lemma set_iout_user_twice s x y :
  set_iout_user (set_iout_user s x) y = set_iout_user s y.
Proof. reflexivity. Qed.

(** One step of the bottom-up loop. *)
Lemma request_current_mark ns done k :
  NoDup (ids ns) ->
  request_current k (map (mark (with_request ns) done) ns)
  = map (mark (with_request ns) (k :: done)) ns.
Proof.
  intros Hnd. set (g := mark (with_request ns) done).
  assert (Hid : forall m, node_id (g m) = node_id m)
    by (intros m; unfold g, mark; now destruct (mem _ done)).
  assert (Hkeep : forall m,
             upstream (stage (g m)) = upstream (stage m) /\
             i_in (stage (g m)) = i_in (stage m))
    by (intros m; unfold g, mark; now destruct (mem _ done)).
  assert (Hst : forall m, stype (stage (g m)) = stype (stage m))
    by (intros m; unfold g, mark; now destruct (mem _ done)).
  unfold request_current. rewrite (nodes_get_map g ns k Hid).
  destruct (nodes_get ns k) as [n0|] eqn:Hg; cbn [option_map].
  - apply nodes_get_Some in Hg. destruct Hg as [Hin0 Hk0].
    rewrite Hst, (sum_children_map i_in g ns k Hkeep), !update_stage_map.
    assert (Hreq : requested ns (stage n0)
                   = if (stype (stage n0) =? "LOAD")%string
                     then load_current (stage n0)
                     else sum_children i_in ns k).
    { unfold requested. now rewrite <- Hk0. }
    destruct (stype (stage n0) =? "LOAD")%string;
      apply map_ext_in; intros n Hin; rewrite Hid;
      (destruct (String.eqb_spec (node_id n) k) as [E|NE];
       [ assert (n = n0) as ->
           by (eapply same_id_same_node; eauto; congruence);
         rewrite (mark_this _ _ _ _ Hk0); unfold with_request;
         rewrite Hreq; unfold g, mark, with_request;
         destruct (mem _ done); reflexivity
       | now rewrite mark_other ]).
  - apply map_ext_in. intros n Hin. rewrite mark_other; [reflexivity|].
    intros E. apply nodes_get_None in Hg. apply Hg. rewrite <- E.
    now apply in_map.
Qed.

(** The propagator sets the request of every node from the currents the
    store held when it started. *)
Lemma requested_currents_map ns :
  wf ns -> acyclic ns ->
  compute_requested_currents ns = map (with_request ns) ns.
Proof.
  intros Hwf Hac. destruct (kahn_topological ns Hwf Hac) as (Hnd & Hall & _).
  unfold compute_requested_currents.
  rewrite (fold_marks request_current (with_request ns)).
  - apply mark_all. intros k Hk. apply in_rev. rewrite rev_involutive.
    now apply Hall.
  - now apply NoDup_rev.
  - intros done k _. apply request_current_mark, Hwf.
Qed.

(** One step of the supply check. *)
Lemma check_supply_mark ns done k :
  NoDup (ids ns) -> ~ In k done ->
  check_supply k (map (mark (with_check ns) done) ns)
  = map (mark (with_check ns) (k :: done)) ns.
Proof.
  intros Hnd Hk. set (g := mark (with_check ns) done).
  assert (Hg_cases : forall m, g m = m \/ g m = with_check ns m)
    by (intros m; unfold g, mark; destruct (mem _ done); auto).
  assert (Hsc : forall s,
             id (supply_checked ns s) = id s /\
             upstream (supply_checked ns s) = upstream s /\
             iout_user (supply_checked ns s) = iout_user s).
  { intros s. unfold supply_checked.
    destruct (_ =? "INPUT")%string; [|auto].
    destruct (_ <? _)%float; [auto|]. destruct (_ <? _)%float; auto. }
  assert (Hid : forall m, node_id (g m) = node_id m).
  { intros m. destruct (Hg_cases m) as [-> | ->]; [reflexivity|].
    unfold node_id, with_check. cbn. apply Hsc. }
  assert (Hkeep : forall m,
             upstream (stage (g m)) = upstream (stage m) /\
             iout_user (stage (g m)) = iout_user (stage m)).
  { intros m. destruct (Hg_cases m) as [-> | ->]; [auto|].
    unfold with_check. cbn. split; apply Hsc. }
  unfold check_supply. rewrite (nodes_get_map g ns k Hid).
  destruct (nodes_get ns k) as [n0|] eqn:Hg; cbn [option_map].
  - apply nodes_get_Some in Hg. destruct Hg as [Hin0 Hk0].
    assert (Hg0 : g n0 = n0).
    { unfold g, mark. rewrite Hk0.
      apply mem_false in Hk. now rewrite Hk. }
    rewrite Hg0, (sum_children_map iout_user g ns k Hkeep).
    assert (Hnew : forall n, In n ns -> node_id n = k ->
               mark (with_check ns) (k :: done) n
               = mkNodeItem (supply_checked ns (stage n0)) (pos n0)).
    { intros n Hin E.
      assert (n = n0) as -> by (eapply same_id_same_node; eauto; congruence).
      now apply mark_this. }
    unfold supply_checked in Hnew.
    assert (Hk0' : id (stage n0) = k) by exact Hk0. rewrite Hk0' in Hnew.
    destruct (stype (stage n0) =? "INPUT")%string.
    + destruct (iout_max_ic (stage n0) <? sum_children iout_user ns k)%float.
      * rewrite update_stage_map. apply map_ext_in. intros n Hin.
        rewrite Hid.
        destruct (String.eqb_spec (node_id n) k) as [E|NE];
          [|now rewrite mark_other].
        rewrite (Hnew n Hin E).
        assert (n = n0) as ->
          by (eapply same_id_same_node; eauto; congruence).
        now rewrite Hg0.
      * destruct (iout_max_ic (stage n0) * 0.9
                  <? sum_children iout_user ns k)%float.
        -- rewrite update_stage_map. apply map_ext_in. intros n Hin.
           rewrite Hid.
           destruct (String.eqb_spec (node_id n) k) as [E|NE];
             [|now rewrite mark_other].
           rewrite (Hnew n Hin E).
           assert (n = n0) as ->
             by (eapply same_id_same_node; eauto; congruence).
           now rewrite Hg0.
        -- apply map_ext_in. intros n Hin.
           destruct (String.eqb_spec (node_id n) k) as [E|NE];
             [|now rewrite mark_other].
           rewrite (Hnew n Hin E), node_eta.
           assert (n = n0) as ->
             by (eapply same_id_same_node; eauto; congruence).
           exact Hg0.
    + apply map_ext_in. intros n Hin.
      destruct (String.eqb_spec (node_id n) k) as [E|NE];
        [|now rewrite mark_other].
      rewrite (Hnew n Hin E), node_eta.
      assert (n = n0) as ->
        by (eapply same_id_same_node; eauto; congruence).
      exact Hg0.
  - apply map_ext_in. intros n Hin. rewrite mark_other; [reflexivity|].
    intros E. apply nodes_get_None in Hg. apply Hg. rewrite <- E.
    now apply in_map.
Qed.

(** The supply check writes every node from the requests the store held
    when it started. *)
Lemma supply_checks_map ns :
  NoDup (ids ns) ->
  fold_left (fun cur k => check_supply k cur) (map node_id ns) ns
  = map (with_check ns) ns.
Proof.
  intros Hnd.
  rewrite (fold_marks check_supply (with_check ns)).
  - apply mark_all, incl_refl.
  - exact Hnd.
  - intros done k Hk. now apply check_supply_mark.
Qed.

End Pointwise.

(** ** The compute sweep *)

Section Sweep.

Implicit Types (ns cur : list NodeItem) (n : NodeItem) (k a b : string).

Lemma nodes_get_update cur k f k' :
  (forall m, In m cur -> node_id m = k -> id (f (stage m)) = k) ->
  nodes_get (update_stage cur k f) k'
  = option_map
      (fun n => if (node_id n =? k)%string
                then mkNodeItem (f (stage n)) (pos n) else n)
      (nodes_get cur k').
Proof.
  unfold nodes_get, update_stage.
  induction cur as [|m r IH]; intros H; [reflexivity|].
  cbn [map find].
  assert (Hr : forall x, In x r -> node_id x = k -> id (f (stage x)) = k)
    by (intros x Hx; apply H; now right).
  destruct (String.eqb_spec (node_id m) k) as [E|NE].
  - unfold node_id at 1. cbn [stage]. rewrite (H m (or_introl eq_refl) E).
    rewrite <- E.
    destruct (String.eqb_spec (node_id m) k') as [E'|NE'].
    + cbn [option_map]. now rewrite E, String.eqb_refl.
    + rewrite E. now apply IH.
  - destruct (String.eqb_spec (node_id m) k') as [E'|NE'].
    + cbn [option_map].
      destruct (String.eqb_spec (node_id m) k); [contradiction | reflexivity].
    + now apply IH.
Qed.

Lemma stage_of_update cur k f k' :
  (forall m, In m cur -> node_id m = k -> id (f (stage m)) = k) ->
  stage_of (update_stage cur k f) k'
  = if (k' =? k)%string then option_map f (stage_of cur k')
    else stage_of cur k'.
Proof.
  intros H. unfold stage_of. rewrite (nodes_get_update cur k f k' H).
  destruct (nodes_get cur k') as [n|] eqn:Hg; cbn [option_map].
  - apply nodes_get_Some in Hg. destruct Hg as [_ <-].
    destruct (node_id n =? k)%string; reflexivity.
  - destruct (k' =? k)%string; reflexivity.
Qed.

Lemma upstream_vout_stage_of ns s :
  upstream_vout_of ns s
  = if Py.truthy (upstream s) then
      match upstream s with
      | Some u => option_map vout (stage_of ns u)
      | None => None
      end
    else None.
Proof.
  unfold upstream_vout_of, stage_of.
  destruct (Py.truthy (upstream s)); [|reflexivity].
  destruct (upstream s) as [u|]; [|reflexivity].
  now destruct (nodes_get ns u).
Qed.

Lemma upstream_vout_update cur k f s :
  (forall m, In m cur -> node_id m = k -> id (f (stage m)) = k) ->
  upstream s <> Some k ->
  upstream_vout_of (update_stage cur k f) s = upstream_vout_of cur s.
Proof.
  intros H Hu. rewrite !upstream_vout_stage_of.
  destruct (Py.truthy (upstream s)); [|reflexivity].
  destruct (upstream s) as [u|]; [|reflexivity].
  rewrite (stage_of_update cur k f u H).
  destruct (String.eqb_spec u k); [congruence | reflexivity].
Qed.

Lemma pos_update_stage cur k f : map pos (update_stage cur k f) = map pos cur.
Proof.
  unfold update_stage. rewrite map_map. apply map_ext.
  intros n. now destruct (node_id n =? k)%string.
Qed.

Lemma stage_of_node ns n :
  NoDup (ids ns) -> In n ns -> stage_of ns (node_id n) = Some (stage n).
Proof. intros Hnd Hin. unfold stage_of. now rewrite (nodes_get_In _ _ Hnd Hin). Qed.

Lemma stage_of_Some ns k s :
  stage_of ns k = Some s -> exists n, In n ns /\ node_id n = k /\ stage n = s.
Proof.
  unfold stage_of. destruct (nodes_get ns k) as [n|] eqn:Hg; [|discriminate].
  intros H. injection H as <-. apply nodes_get_Some in Hg. exists n. tauto.
Qed.

Lemma no_self_upstream ns n :
  acyclic ns -> In n ns -> upstream (stage n) <> Some (node_id n).
Proof.
  intros Hac Hin Hu. apply (Hac (node_id n)), t_step, up_iff. eauto.
Qed.

Lemma sweep_step ns done k todo cur :
  wf ns -> acyclic ns -> topological ns (done ++ k :: todo) ->
  sweep_inv ns done cur ->
  sweep_inv ns (done ++ [k]) (computed_node k cur).
Proof.
  intros Hwf Hac (Hnd & Hall & Hsort) (Hsk & Hpos & Hst).
  pose proof Hwf as (Hnodup & _ & _).
  assert (Hnodup' : NoDup (ids cur)) by (eapply NoDup_ids_skeleton; eauto).
  assert (Hk_nd : ~ In k done) by (now apply NoDup_remove_2 in Hnd;
    intros H; apply Hnd, in_or_app; left).
  assert (Hkin : In k (ids ns)) by (apply Hall, in_or_app; right; now left).
  destruct (in_ids_get _ _ Hkin) as [nk Hgk].
  apply nodes_get_Some in Hgk. destruct Hgk as [Hnk_in Hnk_id].
  pose proof (Hst nk Hnk_in) as Hcur_k. rewrite Hnk_id in Hcur_k.
  apply mem_false in Hk_nd. rewrite Hk_nd in Hcur_k.
  destruct (stage_of_Some _ _ _ Hcur_k) as (m & Hm_in & Hm_id & Hm_st).
  assert (Hgm : nodes_get cur k = Some m)
    by (rewrite <- Hm_id; now apply nodes_get_In).
  unfold computed_node. rewrite Hgm, Hm_st.
  set (s' := computed (upstream_vout_of cur (stage nk)) (stage nk)).
  assert (Hs'id : id s' = k).
  { unfold s'. rewrite (proj1 (computed_frame _ _)). exact Hnk_id. }
  assert (Hf : forall x, In x cur -> node_id x = k -> id s' = k)
    by (intros; exact Hs'id).
  assert (Hsk' : skeleton (update_stage cur k (fun _ => s')) = skeleton cur).
  { unfold skeleton, update_stage. rewrite map_map. apply map_ext_in.
    intros x Hx. destruct (String.eqb_spec (node_id x) k) as [E|_];
      [|reflexivity].
    assert (x = m) as ->
      by (apply (same_id_same_node cur); auto; congruence).
    unfold node_id. cbn [stage]. rewrite Hs'id. unfold s'.
    destruct (computed_frame (upstream_vout_of cur (stage nk)) (stage nk))
      as (_ & _ & _ & _ & _ & _ & _ & _ & _ & _ & _ & -> & _).
    unfold node_id in Hm_id. now rewrite <- Hm_id, Hm_st. }
  split; [now rewrite Hsk'|]. split; [now rewrite pos_update_stage|].
  intros n Hin. rewrite (stage_of_update cur k _ _ Hf).
  specialize (Hst n Hin).
  assert (Hmem : mem (node_id n) (done ++ [k])
                 = mem (node_id n) done || (node_id n =? k)%string).
  { unfold mem. rewrite existsb_app. cbn [existsb].
    rewrite orb_false_r, String.eqb_sym. reflexivity. }
  rewrite Hmem.
  destruct (String.eqb_spec (node_id n) k) as [E|NE].
  - assert (n = nk) as ->
      by (apply (same_id_same_node ns); auto; congruence).
    rewrite Hnk_id, Hcur_k, orb_true_r. cbn [option_map]. f_equal. unfold s'.
    f_equal. symmetry. apply upstream_vout_update; [exact Hf|].
    rewrite <- Hnk_id. now apply (no_self_upstream ns).
  - rewrite orb_false_r, Hst. f_equal.
    destruct (mem (node_id n) done) eqn:Hd; [|reflexivity].
    f_equal. symmetry. apply upstream_vout_update; [exact Hf|].
    intros Hu. apply mem_In in Hd.
    apply in_split in Hd. destruct Hd as (l1 & l2 & ->).
    assert (Hup : up ns (node_id n) k) by (apply up_iff; eauto).
    rewrite <- app_assoc in Hsort. cbn [app] in Hsort.
    pose proof (Hsort l1 (node_id n) (l2 ++ k :: todo) eq_refl k Hup) as Hk1.
    rewrite <- app_assoc in Hnd. cbn [app] in Hnd.
    apply NoDup_remove_2 in Hnd. apply mem_false in Hk_nd.
    apply Hk_nd. apply in_or_app. now left.
Qed.

Lemma sweep_fold ns :
  wf ns -> acyclic ns ->
  forall todo done cur,
    topological ns (done ++ todo) -> sweep_inv ns done cur ->
    sweep_inv ns (done ++ todo)
      (fold_left (fun cur k => computed_node k cur) todo cur).
Proof.
  intros Hwf Hac. induction todo as [|k r IH]; intros done cur Htop Hinv.
  - now rewrite app_nil_r.
  - cbn [fold_left].
    replace (done ++ k :: r) with ((done ++ [k]) ++ r)
      by (now rewrite <- app_assoc).
    apply IH.
    + now rewrite <- app_assoc.
    + now apply (sweep_step ns done k r).
Qed.

(** After the sweep over a topological order every node holds what
    [compute] makes of its stage, given the voltage its upstream ends the
    sweep with. *)
Lemma sweep_spec ns order :
  wf ns -> acyclic ns -> topological ns order ->
  sweep_inv ns order (fold_left (fun cur k => computed_node k cur) order ns).
Proof.
  intros Hwf Hac Htop. apply (sweep_fold ns Hwf Hac order [] ns Htop).
  split; [reflexivity|]. split; [reflexivity|].
  intros n Hin. cbn [mem existsb]. apply stage_of_node; [apply Hwf | assumption].
Qed.

Lemma topological_skeleton ns ns' order :
  skeleton ns' = skeleton ns -> topological ns order -> topological ns' order.
Proof.
  intros E (Hnd & Hall & Hsort). split; [assumption|]. split.
  - intros k. rewrite (ids_skeleton ns'), E, <- ids_skeleton. apply Hall.
  - intros l1 k l2 Ho u Hu. apply (Hsort l1 k l2 Ho).
    now apply (up_skeleton _ _ _ _ E).
Qed.

Lemma upstream_vout_of_ext ns s s' :
  upstream s = upstream s' -> upstream_vout_of ns s = upstream_vout_of ns s'.
Proof. unfold upstream_vout_of. now intros ->. Qed.

Lemma stage_of_map (g : NodeItem -> NodeItem) ns k :
  (forall m, node_id (g m) = node_id m) ->
  stage_of (map g ns) k = option_map (fun n => stage (g n)) (nodes_get ns k).
Proof.
  intros H. unfold stage_of. rewrite (nodes_get_map g ns k H).
  now destruct (nodes_get ns k).
Qed.

Lemma upstream_vout_map (g : NodeItem -> NodeItem) ns s :
  (forall m, node_id (g m) = node_id m /\
             vout (stage (g m)) = vout (stage m)) ->
  upstream_vout_of (map g ns) s = upstream_vout_of ns s.
Proof.
  intros H. unfold upstream_vout_of.
  destruct (Py.truthy (upstream s)); [|reflexivity].
  destruct (upstream s) as [u|]; [|reflexivity].
  rewrite (nodes_get_map g ns u (fun m => proj1 (H m))).
  destruct (nodes_get ns u) as [n|]; cbn [option_map]; [|reflexivity].
  now rewrite (proj2 (H n)).
Qed.

Lemma supply_checked_frame ns s :
  same_config s (supply_checked ns s) /\
  vout (supply_checked ns s) = vout s /\
  vin_nom (supply_checked ns s) = vin_nom s /\
  i_in (supply_checked ns s) = i_in s.
Proof.
  unfold supply_checked, same_config.
  destruct (_ =? "INPUT")%string; [|repeat split].
  destruct (_ <? _)%float; [repeat split|].
  destruct (_ <? _)%float; repeat split.
Qed.

Lemma supply_checked_map (g : NodeItem -> NodeItem) ns s :
  (forall m, upstream (stage (g m)) = upstream (stage m) /\
             iout_user (stage (g m)) = iout_user (stage m)) ->
  supply_checked (map g ns) s = supply_checked ns s.
Proof.
  intros H. unfold supply_checked.
  now rewrite (sum_children_map iout_user g ns (id s) H).
Qed.

Lemma with_check_keeps ns m :
  node_id (with_check ns m) = node_id m /\
  upstream (stage (with_check ns m)) = upstream (stage m) /\
  iout_user (stage (with_check ns m)) = iout_user (stage m) /\
  vout (stage (with_check ns m)) = vout (stage m).
Proof.
  unfold with_check, node_id. cbn [stage].
  destruct (supply_checked_frame ns (stage m))
    as ((Hi & _ & _ & _ & _ & _ & Hio & _ & _ & _ & _ & Hu & _) & Hv & _).
  auto.
Qed.

(** What one pass leaves, node by node. *)
Lemma swept_spec ns :
  wf ns -> acyclic ns ->
  skeleton (swept ns) = skeleton ns /\
  map pos (swept ns) = map pos ns /\
  forall n, In n ns ->
    stage_of (swept ns) (node_id n)
    = Some (pass_stage ns (swept ns) (stage n)).
Proof.
  intros Hwf Hac. unfold swept.
  rewrite (requested_currents_map ns Hwf Hac).
  set (ns1 := map (with_request ns) ns).
  assert (Hsk1 : skeleton ns1 = skeleton ns).
  { unfold ns1, skeleton. rewrite map_map. reflexivity. }
  assert (Hwf1 : wf ns1) by (eapply wf_skeleton; eauto).
  assert (Hac1 : acyclic ns1) by (eapply acyclic_skeleton; eauto).
  rewrite (compute_order_kahn ns1 Hwf1 Hac1).
  pose proof (kahn_topological ns1 Hwf1 Hac1) as Htop.
  destruct (sweep_spec ns1 _ Hwf1 Hac1 Htop) as (Hsk2 & Hpos2 & Hst2).
  set (ns2 := fold_left _ (topo_order (kahn ns1)) ns1) in *.
  assert (Hnd2 : NoDup (ids ns2))
    by (eapply NoDup_ids_skeleton; [exact Hsk2 | apply Hwf1]).
  rewrite (supply_checks_map ns2 Hnd2).
  set (ns' := map (with_check ns2) ns2).
  assert (Hsk' : skeleton ns' = skeleton ns2).
  { unfold ns', skeleton. rewrite map_map. apply map_ext. intros m.
    destruct (with_check_keeps ns2 m) as (-> & -> & _). reflexivity. }
  split; [now rewrite Hsk', Hsk2|]. split.
  { unfold ns'. rewrite map_map.
    rewrite (map_ext _ pos) by reflexivity.
    rewrite Hpos2. unfold ns1. rewrite map_map. reflexivity. }
  intros n Hin.
  assert (Hin1 : In (with_request ns n) ns1) by (now apply in_map).
  specialize (Hst2 _ Hin1).
  change (node_id (with_request ns n)) with (node_id n) in Hst2.
  assert (mem (node_id n) (topo_order (kahn ns1)) = true) as Hm.
  { apply mem_In. destruct Htop as (_ & Hall & _). apply Hall.
    rewrite (ids_skeleton ns1), Hsk1, <- ids_skeleton. now apply in_map. }
  rewrite Hm in Hst2.
  unfold ns'.
  rewrite (stage_of_map (with_check ns2) ns2 (node_id n)
             (fun m => proj1 (with_check_keeps ns2 m))).
  unfold stage_of in Hst2.
  destruct (nodes_get ns2 (node_id n)) as [m|]; [|discriminate].
  cbn [option_map] in Hst2 |- *. injection Hst2 as Hst2.
  cbn [with_check stage]. rewrite Hst2. f_equal. unfold pass_stage.
  fold ns'.
  assert (Hchk : forall s, supply_checked ns' s = supply_checked ns2 s).
  { intros s. apply supply_checked_map. intros x.
    destruct (with_check_keeps ns2 x) as (_ & Hu & Hio & _). auto. }
  rewrite Hchk. f_equal. f_equal.
  unfold ns'. rewrite upstream_vout_map.
  - now apply upstream_vout_of_ext.
  - intros x. destruct (with_check_keeps ns2 x) as (Hi & _ & _ & Hv). auto.
Qed.

End Sweep.

(** ** [compute] absorbs what it wrote before *)

Section Absorb.

Local Open Scope float_scope.

Lemma compute_regulator_forget (x : PowerStage) :
  compute_regulator x = compute_regulator (forget x).
Proof.
  destruct x as [i t nm ic vmin vmax vnom vo iu imax ef q nt us col vie ee po pin pd pq pt ii lc er].
  unfold compute_regulator, forget, stype. stage_simpl.
  set (ldo := (Py.upper t =? "LDO")%string).
  destruct (ldo && _); stage_simpl.
  all: destruct ldo; stage_simpl.
  all: try (destruct (Py.ne vie 0) eqn:Hv;
            [rewrite (div_guarded_abs _ _ Hv)|]; stage_simpl).
  all: match goal with
       | |- context [0 <? ?e] =>
           destruct (0 <? e) eqn:He;
           [first [ rewrite (div_guarded_pos _ _ He)
                  | exfalso; vm_compute in He; discriminate He ]|];
           stage_simpl
       end.
  all: try rewrite Hv; stage_simpl.
  all: try (destruct (Py.ne vie 0) eqn:Hv';
            [rewrite (div_guarded_abs _ _ Hv')|]; stage_simpl).
  all: rewrite ?div_1e6; stage_simpl.
  all: reflexivity.
Qed.

Lemma compute_cases U a :
  compute U a
  = if (stype a =? "INPUT")%string then ret (compute_input (prepared U a))
    else if (stype a =? "LOAD")%string
    then ret (compute_load U (prepared U a))
    else if (stype a =? "LDO")%string || (stype a =? "DCDC")%string
    then compute_regulator (prepared U a)
    else ret (prepared U a).
Proof. reflexivity. Qed.

Lemma stype_computed U a : stype (computed U a) = stype a.
Proof.
  unfold stype. now rewrite (proj1 (proj2 (computed_frame U a))).
Qed.

Lemma stype_supply_checked X s : stype (supply_checked X s) = stype s.
Proof.
  unfold stype.
  now rewrite (proj1 (proj2 (proj1 (supply_checked_frame X s)))).
Qed.

Lemma supply_checked_other X s :
  (stype s =? "INPUT")%string = false -> supply_checked X s = s.
Proof. intros H. unfold supply_checked. now rewrite H. Qed.

Lemma supply_checked_errors X c :
  exists l, supply_checked X c = set_errors c l.
Proof.
  unfold supply_checked, append_error.
  destruct (_ =? "INPUT")%string; [|exists (errors c); now destruct c].
  destruct (_ <? _); [eauto|].
  destruct (_ <? _); [eauto|]. exists (errors c). now destruct c.
Qed.

Lemma compute_input_eq s : compute_input s = input_result s.
Proof.
  unfold compute_input, input_result.
  destruct ((vin_min s <=? vout s) && (vout s <=? vin_max s)).
  - destruct s. reflexivity.
  - reflexivity.
Qed.

Lemma input_absorb U a l :
  compute_input
    (prepared U
       (set_iout_user (set_errors (compute_input (prepared U a)) l)
          (iout_user a)))
  = compute_input (prepared U a).
Proof.
  rewrite (compute_input_eq (prepared U a)).
  rewrite compute_input_eq.
  unfold input_result. stage_norm. reflexivity.
Qed.

Lemma load_absorb U a l :
  compute_load U
    (prepared U
       (set_iout_user (set_errors (compute_load U (prepared U a)) l)
          (iout_user a)))
  = compute_load U (prepared U a).
Proof.
  destruct U; unfold compute_load; stage_norm; reflexivity.
Qed.

Lemma other_absorb U a l :
  prepared U (set_iout_user (set_errors (prepared U a) l) (iout_user a))
  = prepared U a.
Proof. stage_norm. reflexivity. Qed.

Lemma regulator_absorb U a l r :
  compute_regulator (prepared U a) = ret r ->
  compute_regulator
    (prepared U (set_iout_user (set_errors r l) (iout_user a)))
  = ret r.
Proof.
  intros Hr. rewrite <- Hr.
  rewrite (compute_regulator_forget (prepared U a)).
  rewrite (compute_regulator_forget (prepared U _)).
  f_equal.
  destruct (compute_regulator_spec (prepared U a))
    as (r' & Hr' & Hf & Hvn & Hvo & _).
  rewrite Hr in Hr'. injection Hr' as <-.
  clear Hr. unfold same_config in Hf.
  destruct Hf as (?&?&?&?&?&?&?&?&?&?&?&?&?&?).
  unfold forget. stage_norm.
  repeat match goal with
         | H : _ = _ |- _ => revert H
         end.
  stage_norm. intros.
  repeat match goal with
         | H : _ = _ |- _ => rewrite H; clear H
         end.
  reflexivity.
Qed.

(** Computing again a stage that was computed from the same voltage, and
    has since only had diagnostics appended, gives the same stage. *)
Lemma computed_absorb U X a :
  computed U (set_iout_user (supply_checked X (computed U a)) (iout_user a))
  = computed U a.
Proof.
  destruct (supply_checked_errors X (computed U a)) as [l ->].
  assert (Hc : compute U a = ret (computed U a)) by apply compute_computed.
  assert (Hst : stype (set_iout_user (set_errors (computed U a) l)
                         (iout_user a)) = stype a)
    by (change (stype (computed U a) = stype a); apply stype_computed).
  unfold computed at 1. rewrite compute_cases, Hst.
  rewrite compute_cases in Hc.
  destruct (stype a =? "INPUT")%string.
  { injection Hc as Hc. rewrite <- Hc. now rewrite input_absorb. }
  destruct (stype a =? "LOAD")%string.
  { injection Hc as Hc. rewrite <- Hc. now rewrite load_absorb. }
  destruct ((stype a =? "LDO")%string || (stype a =? "DCDC")%string).
  - now rewrite (regulator_absorb U a l _ Hc).
  - injection Hc as Hc. rewrite <- Hc. now rewrite other_absorb.
Qed.

Lemma computed_vout U a :
  vout (computed U a)
  = if (stype a =? "LOAD")%string then vin_of U a else vout a.
Proof.
  assert (Hc : compute U a = ret (computed U a)) by apply compute_computed.
  rewrite compute_cases in Hc.
  destruct (stype a =? "INPUT")%string eqn:Hi.
  { injection Hc as Hc. rewrite <- Hc.
    assert ((stype a =? "LOAD")%string = false) as ->.
    { apply String.eqb_eq in Hi. now rewrite Hi. }
    rewrite compute_input_eq. reflexivity. }
  destruct (stype a =? "LOAD")%string.
  { injection Hc as Hc. rewrite <- Hc. destruct U; reflexivity. }
  destruct (_ || _).
  - destruct (compute_regulator_spec (prepared U a))
      as (r & Hr & _ & _ & Hvo & _).
    rewrite Hr in Hc. injection Hc as <-. exact Hvo.
  - injection Hc as Hc. now rewrite <- Hc.
Qed.

Lemma computed_vin_nom U a :
  vin_nom (computed U a)
  = if (stype a =? "LOAD")%string then vin_of U a else vin_nom a.
Proof.
  assert (Hc : compute U a = ret (computed U a)) by apply compute_computed.
  rewrite compute_cases in Hc.
  destruct (stype a =? "INPUT")%string eqn:Hi.
  { injection Hc as Hc. rewrite <- Hc.
    assert ((stype a =? "LOAD")%string = false) as ->.
    { apply String.eqb_eq in Hi. now rewrite Hi. }
    rewrite compute_input_eq. reflexivity. }
  destruct (stype a =? "LOAD")%string.
  { injection Hc as Hc. rewrite <- Hc. destruct U; reflexivity. }
  destruct (_ || _).
  - destruct (compute_regulator_spec (prepared U a))
      as (r & Hr & _ & Hvn & _).
    rewrite Hr in Hc. injection Hc as <-. exact Hvn.
  - injection Hc as Hc. now rewrite <- Hc.
Qed.

End Absorb.

(** ** Depth *)

Section DepthFacts.

Implicit Types (ns : list NodeItem) (n : NodeItem) (k a b : string).

Lemma mapM_inv {A B : Type} (f : A -> M B) l :
  forall ys, mapM f l = ret ys -> Forall2 (fun x y => f x = ret y) l ys.
Proof.
  induction l as [|x r IH]; intros ys H.
  - injection H as <-. constructor.
  - cbn [mapM] in H. destruct (f x) as [e|y] eqn:Hx; [discriminate|].
    cbn [bind] in H. destruct (mapM f r) as [e|zs]; [discriminate|].
    cbn [bind] in H. injection H as <-. constructor; [assumption|].
    now apply IH.
Qed.

Lemma Forall2_In_left {A B : Type} (R : A -> B -> Prop) l ys x :
  Forall2 R l ys -> In x l -> exists y, In y ys /\ R x y.
Proof.
  induction 1 as [|a b l' ys' Hab _ IH]; intros Hin; [destruct Hin|].
  destruct Hin as [<- | Hin].
  - exists b. split; [now left | assumption].
  - destruct (IH Hin) as (y & Hy & Hr). exists y. split; [now right | assumption].
Qed.

Lemma mapM_ext_in {A B : Type} (f g : A -> M B) l :
  (forall x, In x l -> f x = g x) -> mapM f l = mapM g l.
Proof.
  induction l as [|x r IH]; intros H; [reflexivity|].
  cbn [mapM]. rewrite (H x (or_introl eq_refl)), IH; [reflexivity|].
  intros y Hy. apply H. now right.
Qed.

Lemma depth_unfold fuel ns k :
  depth (S fuel) ns k
  = match children ns k with
    | [] => ret 1
    | _ :: _ =>
        ds <- mapM (fun child => depth fuel ns (node_id child))
                (children ns k) ;;
        ret (1 + list_max ds)
    end.
Proof. reflexivity. Qed.

Lemma depth_positive ns k : forall fuel d, depth fuel ns k = ret d -> 1 <= d.
Proof.
  intros [|fuel] d H; [discriminate|].
  rewrite depth_unfold in H. destruct (children ns k).
  - injection H as <-. lia.
  - destruct (mapM _ _); [discriminate|]. injection H as <-. lia.
Qed.

(** More fuel does not change what [depth] returns. *)
Lemma depth_mono ns :
  forall fuel k d, depth fuel ns k = ret d ->
    forall fuel', fuel <= fuel' -> depth fuel' ns k = ret d.
Proof.
  induction fuel as [|fuel IH]; intros k d H fuel' Hle; [discriminate|].
  destruct fuel' as [|fuel']; [lia|].
  rewrite depth_unfold in *. destruct (children ns k) as [|c cs]; [assumption|].
  destruct (mapM (fun child => depth fuel ns (node_id child)) (c :: cs))
    as [e|ds] eqn:Hm; [discriminate|].
  assert (Hm' : mapM (fun child => depth fuel' ns (node_id child)) (c :: cs)
                = mapM (fun child => depth fuel ns (node_id child)) (c :: cs)).
  { apply mapM_ext_in. intros x Hx.
    pose proof (mapM_inv _ _ _ Hm) as HF.
    destruct (Forall2_In_left _ _ _ x HF Hx) as (y & _ & Hy).
    rewrite Hy. apply (IH _ _ Hy). lia. }
  now rewrite Hm', Hm.
Qed.

Lemma up_children ns c k :
  NoDup (ids ns) -> up ns c k ->
  exists n, In n (children ns k) /\ node_id n = c.
Proof.
  intros Hnd H. apply up_iff in H. destruct H as (n & Hin & Hid & Hu).
  exists n. split; [|assumption]. apply filter_In. split; [assumption|].
  unfold upstream_is. rewrite Hu. apply String.eqb_refl.
Qed.

(** A child is less deep than its upstream. *)
Lemma depth_child ns c k d :
  NoDup (ids ns) -> up ns c k -> depth_of ns k = ret d ->
  exists dc, depth_of ns c = ret dc /\ dc < d.
Proof.
  intros Hnd Hup H. destruct (up_children _ _ _ Hnd Hup) as (n & Hn & <-).
  unfold depth_of, depth_fuel in *. rewrite depth_unfold in H.
  destruct (children ns k) as [|c0 cs] eqn:Hch; [destruct Hn|].
  destruct (mapM _ (c0 :: cs)) as [e|ds] eqn:Hm; [discriminate|].
  injection H as <-.
  pose proof (mapM_inv _ _ _ Hm) as HF.
  destruct (Forall2_In_left _ _ _ n HF Hn) as (dc & Hdc & Hy). 
  exists dc. split.
  - apply (depth_mono ns _ _ _ Hy). lia.
  - assert (Hall : Forall (fun x => x <= list_max ds) ds)
      by (apply list_max_le; lia).
    rewrite Forall_forall in Hall. specialize (Hall dc Hdc). lia.
Qed.

End DepthFacts.

(** ** Sums over the children *)

Section Sums.

Implicit Types (ns : list NodeItem) (k : string).

Lemma sum_children_by_key field ns k :
  NoDup (ids ns) ->
  sum_children field ns k
  = sum_by_key (field_at field ns) (skeleton ns) k 0%float.
Proof.
  intros Hnd. unfold sum_children, sum_by_key.
  assert (G : forall l acc, incl l ns ->
    fold_left
      (fun total child =>
         if upstream_is child k then (total + field (stage child))%float
         else total) l acc
    = fold_left
        (fun total p =>
           match snd p with
           | Some u => if (u =? k)%string
                       then (total + field_at field ns (fst p))%float
                       else total
           | None => total
           end) (skeleton l) acc).
  { induction l as [|n l IH]; intros acc Hi; [reflexivity|].
    cbn [fold_left skeleton map fst snd].
    assert (Hn : In n ns) by (apply Hi; now left).
    assert (Hf : field_at field ns (node_id n) = field (stage n)).
    { unfold field_at. now rewrite (stage_of_node ns n Hnd Hn). }
    rewrite Hf, <- (IH _ (fun x Hx => Hi x (or_intror Hx))).
    f_equal. unfold upstream_is. now destruct (upstream (stage n)). }
  apply G, incl_refl.
Qed.

Lemma sum_by_key_ext (v v' : string -> float) sk k :
  (forall c, In (c, Some k) sk -> v' c = v c) ->
  forall start, sum_by_key v' sk k start = sum_by_key v sk k start.
Proof.
  unfold sum_by_key. induction sk as [|[c u] sk IH]; intros H start;
    [reflexivity|].
  cbn [fold_left fst snd].
  assert (IH' := IH (fun c' Hc => H c' (or_intror Hc))).
  destruct u as [u|]; [|apply IH'].
  destruct (u =? k)%string eqn:E; [|apply IH'].
  apply String.eqb_eq in E. subst u.
  rewrite (H c (or_introl eq_refl)). apply IH'.
Qed.

Lemma sum_children_ext field ns ns' k :
  skeleton ns' = skeleton ns -> NoDup (ids ns) ->
  (forall c, up ns c k -> field_at field ns' c = field_at field ns c) ->
  sum_children field ns' k = sum_children field ns k.
Proof.
  intros Hs Hnd H.
  rewrite (sum_children_by_key field ns' k)
    by (eapply NoDup_ids_skeleton; eauto).
  rewrite (sum_children_by_key field ns k Hnd), Hs.
  apply sum_by_key_ext. exact H.
Qed.

Lemma sum_children_none field ns k :
  children ns k = [] -> sum_children field ns k = 0%float.
Proof.
  unfold children, sum_children. generalize 0%float.
  induction ns as [|n ns IH]; intros acc H; [reflexivity|].
  cbn [filter fold_left] in *.
  destruct (upstream_is n k); [discriminate|]. now apply IH.
Qed.

End Sums.

(** ** Passes settle *)

Section Settling.

Implicit Types (ns g : list NodeItem) (k : string) (s : PowerStage).

Lemma sweeps_succ j : forall ns, sweeps (S j) ns = swept (sweeps j ns).
Proof.
  induction j as [|j IH]; intros ns; [reflexivity|].
  change (sweeps (S (S j)) ns) with (sweeps (S j) (swept ns)).
  now rewrite IH.
Qed.

Lemma swept_keeps ns :
  wf ns -> acyclic ns ->
  wf (swept ns) /\ acyclic (swept ns) /\ skeleton (swept ns) = skeleton ns.
Proof.
  intros Hwf Hac.
  assert (Hs := skeleton_swept ns (proj1 Hwf)).
  split; [|split]; [eapply wf_skeleton|eapply acyclic_skeleton|]; eauto.
Qed.

Lemma sweeps_keeps j :
  forall ns, wf ns -> acyclic ns ->
    wf (sweeps j ns) /\ acyclic (sweeps j ns) /\
    skeleton (sweeps j ns) = skeleton ns.
Proof.
  induction j as [|j IH]; intros ns Hwf Hac; [auto|].
  cbn [sweeps].
  destruct (swept_keeps ns Hwf Hac) as (W & C & S).
  destruct (IH _ W C) as (W' & C' & S').
  repeat split; try assumption; try apply W'. congruence.
Qed.

Lemma stage_of_id g k s : stage_of g k = Some s -> id s = k.
Proof.
  unfold stage_of. destruct (nodes_get g k) as [n|] eqn:E; [|discriminate].
  intros H. injection H as <-. now apply nodes_get_Some in E.
Qed.

Lemma stage_of_in g k : In k (ids g) <-> exists s, stage_of g k = Some s.
Proof.
  unfold stage_of. split.
  - intros H. destruct (in_ids_get g k H) as [n ->]. cbn. eauto.
  - intros [s H]. destruct (nodes_get g k) eqn:E; [|discriminate].
    eapply get_in_ids; eauto.
Qed.

Lemma stage_of_up g k s u :
  NoDup (ids g) -> stage_of g k = Some s -> upstream s = Some u -> up g k u.
Proof.
  intros Hnd H Hu. apply up_get; [assumption|].
  unfold stage_of in H. destruct (nodes_get g k) as [n|]; [|discriminate].
  injection H as <-. eauto.
Qed.

Lemma ids_of_skeleton ga gb : skeleton gb = skeleton ga -> ids gb = ids ga.
Proof. intros H. now rewrite (ids_skeleton gb), H, <- ids_skeleton. Qed.

Lemma swept_stage g k s :
  wf g -> acyclic g -> stage_of g k = Some s ->
  stage_of (swept g) k = Some (pass_stage g (swept g) s).
Proof.
  intros Hwf Hac H.
  destruct (stage_of_Some g k s H) as (n & Hn & <- & <-).
  now apply (swept_spec g Hwf Hac).
Qed.

Lemma pass_stage_frame g g' s :
  id (pass_stage g g' s) = id s /\
  upstream (pass_stage g g' s) = upstream s /\
  stype (pass_stage g g' s) = stype s /\
  load_current (pass_stage g g' s) = load_current s /\
  iout_user (pass_stage g g' s) = requested g s.
Proof.
  unfold pass_stage.
  set (a := set_iout_user s (requested g s)).
  set (U := upstream_vout_of g' s).
  destruct (supply_checked_frame g' (computed U a)) as (F & _).
  destruct (computed_frame U a) as (?&?&?&?&?&?&?&?&?&?&?&?&?&?).
  destruct F as (?&?&?&?&?&?&?&?&?&?&?&?&?&?).
  rewrite stype_supply_checked, stype_computed.
  assert (Ea : id a = id s /\ upstream a = upstream s /\
               load_current a = load_current s /\
               iout_user a = requested g s) by (repeat split).
  destruct Ea as (?&?&?&?).
  repeat split; congruence.
Qed.

Lemma pass_stage_volts g g' s :
  vout (pass_stage g g' s)
  = (if (stype s =? "LOAD")%string then vin_of (upstream_vout_of g' s) s
     else vout s) /\
  vin_nom (pass_stage g g' s)
  = (if (stype s =? "LOAD")%string then vin_of (upstream_vout_of g' s) s
     else vin_nom s).
Proof.
  unfold pass_stage.
  set (a := set_iout_user s (requested g s)).
  set (U := upstream_vout_of g' s).
  destruct (supply_checked_frame g' (computed U a)) as (_ & -> & -> & _).
  rewrite computed_vout, computed_vin_nom.
  change (stype a) with (stype s).
  replace (vin_of U a) with (vin_of U s) by now destruct U.
  split; reflexivity.
Qed.

(** The voltage handed to [compute] is the same in two stores whose
    upstream nodes hold the same output voltage. *)
Lemma upstream_vout_agree ga gb s s' :
  skeleton gb = skeleton ga -> upstream s' = upstream s ->
  (forall u pa pb, upstream s = Some u ->
     stage_of ga u = Some pa -> stage_of gb u = Some pb ->
     vout pb = vout pa) ->
  upstream_vout_of gb s' = upstream_vout_of ga s.
Proof.
  intros Hs Hu H. rewrite !upstream_vout_stage_of, Hu.
  destruct (Py.truthy (upstream s)); [|reflexivity].
  destruct (upstream s) as [u|] eqn:E; [|reflexivity].
  destruct (stage_of ga u) as [pa|] eqn:Ea, (stage_of gb u) as [pb|] eqn:Eb.
  - cbn. f_equal. eapply H; eauto.
  - exfalso. assert (Hin : In u (ids ga)) by (apply stage_of_in; eauto).
    rewrite <- (ids_of_skeleton _ _ Hs) in Hin.
    apply stage_of_in in Hin. destruct Hin as [x Hx]. congruence.
  - exfalso. assert (Hin : In u (ids gb)) by (apply stage_of_in; eauto).
    rewrite (ids_of_skeleton _ _ Hs) in Hin.
    apply stage_of_in in Hin. destruct Hin as [x Hx]. congruence.
  - reflexivity.
Qed.

(** From the second pass on, no pass changes an output voltage. *)
Lemma voltage_settled g :
  wf g -> acyclic g ->
  forall k s1 s2,
    stage_of (swept g) k = Some s1 ->
    stage_of (swept (swept g)) k = Some s2 ->
    vout s2 = vout s1.
Proof.
  intros Hwf Hac.
  destruct (swept_keeps g Hwf Hac) as (W1 & C1 & S1).
  destruct (swept_keeps _ W1 C1) as (W2 & C2 & S2).
  intros k.
  induction k as [k IH] using (well_founded_induction (parents_wf g Hac)).
  intros s1 s2 H1 H2.
  assert (Hin : In k (ids g)).
  { rewrite <- (ids_of_skeleton _ _ S1). apply stage_of_in; eauto. }
  apply stage_of_in in Hin. destruct Hin as [s0 H0].
  rewrite (swept_stage g k s0 Hwf Hac H0) in H1. injection H1 as <-.
  rewrite (swept_stage _ k _ W1 C1 (swept_stage g k s0 Hwf Hac H0)) in H2.
  injection H2 as <-.
  set (s1 := pass_stage g (swept g) s0).
  destruct (pass_stage_frame g (swept g) s0) as (_ & Hu & Ht & _).
  fold s1 in Hu, Ht.
  assert (HU : upstream_vout_of (swept (swept g)) s1
               = upstream_vout_of (swept g) s0).
  { apply upstream_vout_agree; [assumption..|].
    intros u pa pb Eu Ha Hb. apply (IH u); [|assumption..].
    eapply stage_of_up; [apply Hwf|eassumption..]. }
  destruct (pass_stage_volts (swept g) (swept (swept g)) s1) as [-> _].
  destruct (pass_stage_volts g (swept g) s0) as [Hv Hn]. fold s1 in Hv, Hn.
  rewrite Ht, HU.
  destruct (stype s0 =? "LOAD")%string; [|reflexivity].
  rewrite Hv. unfold vin_of.
  destruct (upstream_vout_of (swept g) s0); [reflexivity|].
  rewrite Hn. reflexivity.
Qed.

End Settling.

(** ** The fixed point *)

Section FixedPoint.

Implicit Types (ns g : list NodeItem) (k : string) (s : PowerStage).

Lemma supply_checked_ext g g' s :
  sum_children iout_user g' (id s) = sum_children iout_user g (id s) ->
  supply_checked g' s = supply_checked g s.
Proof. intros H. unfold supply_checked. now rewrite H. Qed.

Lemma field_at_stage field g g' k :
  stage_of g' k = stage_of g k -> field_at field g' k = field_at field g k.
Proof. intros H. unfold field_at. now rewrite H. Qed.

(** A pass run on the store a pass left changes nothing at a node whose
    children it changes nothing at, nor did the pass before. *)
Lemma pass_stage_settled g k s0 :
  wf g -> acyclic g -> stage_of g k = Some s0 ->
  (forall c, up g c k -> stage_of (swept g) c = stage_of g c) ->
  (forall c, up g c k ->
     stage_of (swept (swept g)) c = stage_of (swept g) c) ->
  stage_of (swept (swept g)) k = stage_of (swept g) k.
Proof.
  intros Hwf Hac H0 Hc1 Hc2.
  destruct (swept_keeps g Hwf Hac) as (W1 & C1 & S1).
  destruct (swept_keeps _ W1 C1) as (W2 & C2 & S2).
  assert (H1 := swept_stage g k s0 Hwf Hac H0).
  rewrite (swept_stage _ k _ W1 C1 H1), H1. f_equal.
  set (g1 := swept g) in *. set (g2 := swept g1) in *.
  set (s1 := pass_stage g g1 s0).
  destruct (pass_stage_frame g g1 s0) as (Hi & Hu & Ht & Hl & _).
  fold s1 in Hi, Hu, Ht, Hl.
  assert (Hk : id s0 = k) by (eapply stage_of_id; eauto).
  assert (HU : upstream_vout_of g2 s1 = upstream_vout_of g1 s0).
  { apply upstream_vout_agree; [assumption..|].
    intros u pa pb _ Ha Hb. eapply (voltage_settled g); eauto. }
  assert (HR : requested g1 s1 = requested g s0).
  { unfold requested. rewrite Ht, Hl, Hi, Hk.
    destruct (stype s0 =? "LOAD")%string; [reflexivity|].
    apply sum_children_ext; [assumption|apply Hwf|].
    intros c Hc. now apply field_at_stage, Hc1. }
  unfold pass_stage at 1. rewrite HU, HR.
  set (U := upstream_vout_of g1 s0).
  set (a := set_iout_user s0 (requested g s0)).
  change (requested g s0) with (iout_user a).
  change s1 with (supply_checked g1 (computed U a)).
  rewrite computed_absorb.
  apply supply_checked_ext.
  destruct (computed_frame U a) as (-> & _).
  change (id a) with (id s0). rewrite Hk.
  apply sum_children_ext; [assumption|apply W1|].
  intros c Hc. apply field_at_stage, Hc2.
  now apply (up_skeleton g g1 c k S1).
Qed.

(** A node is settled once as many passes have run as its [depth]. *)
Lemma stage_settled ns :
  wf ns -> acyclic ns ->
  forall d k dk j,
    depth_of ns k = ret dk -> dk <= d -> dk <= j ->
    stage_of (sweeps (S j) ns) k = stage_of (sweeps j ns) k.
Proof.
  intros Hwf Hac.
  induction d as [|d IH]; intros k dk j Hd Hle Hj.
  { apply depth_positive in Hd. lia. }
  assert (Hpos := depth_positive _ _ _ _ Hd).
  destruct j as [|j]; [lia|].
  destruct (sweeps_keeps j ns Hwf Hac) as (W0 & C0 & S0).
  rewrite !sweeps_succ.
  set (g := sweeps j ns) in *.
  destruct (stage_of g k) as [s0|] eqn:E0.
  - apply (pass_stage_settled g k s0 W0 C0 E0).
    + intros c Hc. apply (up_skeleton _ _ c k S0) in Hc.
      destruct (depth_child ns c k dk (proj1 Hwf) Hc Hd) as (dc & Hdc & Hlt).
      subst g. rewrite <- sweeps_succ. apply (IH c dc j Hdc); lia.
    + intros c Hc. apply (up_skeleton _ _ c k S0) in Hc.
      destruct (depth_child ns c k dk (proj1 Hwf) Hc Hd) as (dc & Hdc & Hlt).
      subst g. rewrite <- !sweeps_succ. apply (IH c dc (S j) Hdc); lia.
  - destruct (swept_keeps g W0 C0) as (W1 & C1 & S1).
    destruct (swept_keeps _ W1 C1) as (W2 & C2 & S2).
    assert (N : forall g', skeleton g' = skeleton g -> stage_of g' k = None).
    { intros g' Hs. destruct (stage_of g' k) eqn:E; [|reflexivity].
      assert (Hin : In k (ids g')) by (apply stage_of_in; eauto).
      rewrite (ids_of_skeleton _ _ Hs) in Hin.
      apply stage_of_in in Hin. destruct Hin as [x Hx]. congruence. }
    rewrite (N _ S1), (N (swept (swept g))); [reflexivity|congruence].
Qed.

(** Two stores with the same keys in the same order, the same positions
    and the same stage under each key are the same store. *)
Lemma store_ext ga gb :
  NoDup (ids ga) -> skeleton gb = skeleton ga -> map pos gb = map pos ga ->
  (forall k, In k (ids ga) -> stage_of gb k = stage_of ga k) ->
  gb = ga.
Proof.
  intros Hnd Hs Hp H.
  assert (Hndb : NoDup (ids gb)) by (eapply NoDup_ids_skeleton; eauto).
  assert (Hid := ids_of_skeleton _ _ Hs).
  assert (G : forall la lb,
    incl la ga -> incl lb gb -> ids lb = ids la -> map pos lb = map pos la ->
    lb = la).
  { induction la as [|a la IH]; intros [|b lb] Ia Ib Ei Ep;
      try discriminate; [reflexivity|].
    cbn [ids map] in Ei, Ep. injection Ei as Ei1 Ei2. injection Ep as Ep1 Ep2.
    assert (Ha : In a ga) by (apply Ia; now left).
    assert (Hb : In b gb) by (apply Ib; now left).
    assert (Hst : stage b = stage a).
    { assert (E := H (node_id a) (in_map node_id _ _ Ha)).
      rewrite (stage_of_node ga a Hnd Ha) in E.
      rewrite <- Ei1, (stage_of_node gb b Hndb Hb) in E. congruence. }
    f_equal.
    - rewrite <- (node_eta a), <- (node_eta b). congruence.
    - apply IH; auto.
      + intros x Hx. apply Ia. now right.
      + intros x Hx. apply Ib. now right. }
  apply G; auto using incl_refl.
Qed.

Lemma swept_fixed ns c :
  wf ns -> acyclic ns ->
  (forall k, In k (ids ns) -> exists d, depth_of ns k = ret d /\ d <= c) ->
  swept (sweeps c ns) = sweeps c ns.
Proof.
  intros Hwf Hac H.
  destruct (sweeps_keeps c ns Hwf Hac) as (W & C & S).
  destruct (swept_spec _ W C) as (S' & P' & _).
  apply store_ext; [apply W|assumption..|].
  intros k Hk. rewrite (ids_of_skeleton _ _ S) in Hk.
  destruct (H k Hk) as (d & Hd & Hle).
  rewrite <- sweeps_succ. now apply (stage_settled ns Hwf Hac d k d c).
Qed.

Lemma sweeps_fixed g : swept g = g -> forall j, sweeps j g = g.
Proof.
  intros H. induction j as [|j IH]; [reflexivity|].
  cbn [sweeps]. now rewrite H.
Qed.

Lemma shallowb_sound ns : shallowb ns = true -> shallow ns.
Proof.
  unfold shallowb, shallow.
  destruct (pass_count ns) as [e|c]; [discriminate|].
  intros H. exists c. split; [reflexivity|].
  rewrite forallb_forall in H. intros k Hk. specialize (H k Hk).
  destruct (depth_of ns k) as [e|d]; [discriminate|].
  exists d. split; [reflexivity|]. now apply Nat.leb_le.
Qed.

(** On a shallow store, [recompute_all] runs its passes to a store the
    next pass leaves as it is. *)
Lemma recompute_all_fixed sc :
  wf (nodes sc) -> acyclic (nodes sc) -> shallow (nodes sc) ->
  exists ns1,
    recompute_all sc = ret (mkPowerScene ns1 (edges sc)) /\
    wf ns1 /\ acyclic ns1 /\ swept ns1 = ns1.
Proof.
  intros Hwf Hac (c & Hc & Hd).
  exists (sweeps c (nodes sc)).
  destruct (sweeps_keeps c _ Hwf Hac) as (W & C & _).
  repeat split; try assumption; try apply W.
  - unfold recompute_all. rewrite Hc. cbn [bind ret].
    rewrite passes_sweeps. reflexivity.
  - now apply swept_fixed.
Qed.

End FixedPoint.

(** ** Current conservation and idempotence *)

Section RecomputeClaims.

Implicit Types (ns g : list NodeItem) (k : string) (s : PowerStage).

(** X22: current conservation.  On a well-formed scene without a
    cycle in which no chain of nodes is longer than the number of passes
    [recompute_all] runs, [recompute_all] returns, and in the scene it
    leaves every [LOAD] node has [iout_user] equal to its own
    [load_current], every other node has [iout_user] equal to the sum of
    [i_in] over its direct children, accumulated from [0.0] in dict order,
    and such a node without children has [iout_user = 0]. *)
Theorem recompute_all_conserves (sc : PowerScene) :
  wf (nodes sc) -> acyclic (nodes sc) -> shallow (nodes sc) ->
  exists sc1,
    recompute_all sc = ret sc1 /\
    forall n, In n (nodes sc1) ->
      (stype (stage n) = "LOAD"%string ->
       iout_user (stage n) = load_current (stage n)) /\
      (stype (stage n) <> "LOAD"%string ->
       iout_user (stage n) = sum_children i_in (nodes sc1) (node_id n) /\
       (children (nodes sc1) (node_id n) = [] ->
        iout_user (stage n) = 0%float)).
Proof.
  intros Hwf Hac Hsh.
  destruct (recompute_all_fixed sc Hwf Hac Hsh) as (ns1 & Hr & W & C & F).
  exists (mkPowerScene ns1 (edges sc)). split; [exact Hr|].
  cbn [nodes]. intros n Hn.
  assert (E : stage n = pass_stage ns1 ns1 (stage n)).
  { assert (H := swept_stage ns1 (node_id n) (stage n) W C
                   (stage_of_node ns1 n (proj1 W) Hn)).
    rewrite F, (stage_of_node ns1 n (proj1 W) Hn) in H. congruence. }
  destruct (pass_stage_frame ns1 ns1 (stage n)) as (_ & _ & _ & _ & Hi).
  rewrite <- E in Hi. rewrite Hi. unfold requested.
  split.
  - intros ->. reflexivity.
  - intros Hne. apply String.eqb_neq in Hne. rewrite Hne.
    split; [reflexivity|]. apply sum_children_none.
Qed.

Lemma recompute_all_conserves_witness :
  exists sc1,
    recompute_all source_chain = ret sc1 /\
    forall n, In n (nodes sc1) ->
      (stype (stage n) = "LOAD"%string ->
       iout_user (stage n) = load_current (stage n)) /\
      (stype (stage n) <> "LOAD"%string ->
       iout_user (stage n) = sum_children i_in (nodes sc1) (node_id n) /\
       (children (nodes sc1) (node_id n) = [] ->
        iout_user (stage n) = 0%float)).
Proof.
  apply (recompute_all_conserves source_chain).
  - apply wfb_sound. reflexivity.
  - apply acyclicb_sound; [apply nodupb_sound|]; reflexivity.
  - apply shallowb_sound. vm_compute. reflexivity.
Defined.

(** Conservation needs the condition on the chains; it fails where a
    chain has no source at its head: the
    scene of an LDO feeding a load of half an ampere is well formed and has
    no cycle, [recompute_all] runs one pass on it, and returns with the
    LDO, which is not a [LOAD], asked for no current while its one child
    draws 0.5 A. *)
Lemma conservation_counterexample :
  wf (nodes regulator_and_load) /\ acyclic (nodes regulator_and_load) /\
  ~ shallow (nodes regulator_and_load) /\
  exists sc1 n,
    recompute_all regulator_and_load = ret sc1 /\
    nodes_get (nodes sc1) "a" = Some n /\
    stype (stage n) = "LDO"%string /\
    iout_user (stage n) = 0%float /\
    sum_children i_in (nodes sc1) "a" = 0.5%float /\
    iout_user (stage n) <> sum_children i_in (nodes sc1) (node_id n).
Proof.
  split; [apply wfb_sound; reflexivity|].
  split; [apply acyclicb_sound; [apply nodupb_sound|]; reflexivity|].
  split.
  { intros (c & Hc & H).
    vm_compute in Hc. injection Hc as <-.
    destruct (H "a"%string) as (d & Hd & Hle); [now left|].
    vm_compute in Hd. injection Hd as <-. lia. }
  eexists. eexists. split; [vm_compute; reflexivity|].
  split; [reflexivity|]. split; [reflexivity|]. split; [reflexivity|].
  split; [reflexivity|].
  float_discr.
Qed.

(** X23: idempotence.  On a well-formed scene without a
    cycle in which no chain of nodes is longer than the number of passes
    [recompute_all] runs, [recompute_all] returns a scene on which a second
    [recompute_all] returns that same scene: every field of every stage,
    the diagnostics among them, is as the first call left it. *)
Theorem recompute_all_idempotent (sc : PowerScene) :
  wf (nodes sc) -> acyclic (nodes sc) -> shallow (nodes sc) ->
  exists sc1, recompute_all sc = ret sc1 /\ recompute_all sc1 = ret sc1.
Proof.
  intros Hwf Hac Hsh.
  destruct (recompute_all_fixed sc Hwf Hac Hsh) as (ns1 & Hr & W & C & F).
  exists (mkPowerScene ns1 (edges sc)). split; [exact Hr|].
  unfold recompute_all. cbn [nodes edges].
  destruct (pass_count_returns ns1 C) as (c & -> & _).
  cbn [bind ret]. rewrite passes_sweeps. cbn [bind ret].
  now rewrite (sweeps_fixed ns1 F).
Qed.

Lemma recompute_all_idempotent_witness :
  exists sc1,
    recompute_all source_chain = ret sc1 /\ recompute_all sc1 = ret sc1.
Proof.
  apply (recompute_all_idempotent source_chain).
  - apply wfb_sound. reflexivity.
  - apply acyclicb_sound; [apply nodupb_sound|]; reflexivity.
  - apply shallowb_sound. vm_compute. reflexivity.
Defined.

(** Idempotence needs that condition too; it fails on the same scene:
    the first [recompute_all]
    leaves the LDO asked for no current, and a second one, with nothing
    changed in between, leaves it asked for 0.5 A. *)
Lemma recompute_twice_counterexample :
  exists sc1 sc2,
    recompute_all regulator_and_load = ret sc1 /\
    recompute_all sc1 = ret sc2 /\
    iout_user_of (nodes sc1) "a" = Some 0%float /\
    iout_user_of (nodes sc2) "a" = Some 0.5%float /\
    sc2 <> sc1.
Proof.
  eexists. eexists. split; [vm_compute; reflexivity|].
  split; [vm_compute; reflexivity|].
  split; [reflexivity|]. split; [reflexivity|].
  intros E.
  apply (f_equal (fun sc => match iout_user_of (nodes sc) "a" with
                           | Some x => (x =? 0.5)%float
                           | None => false
                           end)) in E.
  vm_compute in E. discriminate E.
Qed.

End RecomputeClaims.

(** ** More on the calculator *)

Section CalculatorMore.

Local Open Scope float_scope.

Lemma set_errors_same s : set_errors s (errors s) = s.
Proof. now destruct s. Qed.

Lemma set_iout_user_same s : set_iout_user s (iout_user s) = s.
Proof. now destruct s. Qed.

Lemma computed_absorb_errors U a l :
  computed U (set_iout_user (set_errors (computed U a) l) (iout_user a))
  = computed U a.
Proof.
  assert (Hc : compute U a = ret (computed U a)) by apply compute_computed.
  assert (Hst : stype (set_iout_user (set_errors (computed U a) l)
                         (iout_user a)) = stype a)
    by (change (stype (computed U a) = stype a); apply stype_computed).
  unfold computed at 1. rewrite compute_cases, Hst.
  rewrite compute_cases in Hc.
  destruct (stype a =? "INPUT")%string.
  { injection Hc as Hc. rewrite <- Hc. now rewrite input_absorb. }
  destruct (stype a =? "LOAD")%string.
  { injection Hc as Hc. rewrite <- Hc. now rewrite load_absorb. }
  destruct ((stype a =? "LDO")%string || (stype a =? "DCDC")%string).
  - now rewrite (regulator_absorb U a l _ Hc).
  - injection Hc as Hc. rewrite <- Hc. now rewrite other_absorb.
Qed.

Lemma computed_twice U a : computed U (computed U a) = computed U a.
Proof.
  assert (H := computed_absorb_errors U a (errors (computed U a))).
  rewrite set_errors_same in H.
  destruct (computed_frame U a) as (_&_&_&_&_&_& Hi &_).
  rewrite <- Hi, set_iout_user_same in H. exact H.
Qed.

(** X1: whatever the stage and the voltage it is handed, [compute] returns
    (it never raises), and the stage it leaves has the [id], [stage_type],
    [name], [ic_name], [vin_min], [vin_max], [iout_user], [iout_max_ic],
    [efficiency_user], [iq], [notes], [upstream], [color] and
    [load_current] it was given; unless the stage is a [LOAD], it also has
    the [vout] and the [vin_nom] it was given. *)
Theorem compute_keeps_configuration (upstream_vout : option float)
    (self : PowerStage) :
  exists s',
    compute upstream_vout self = ret s' /\
    same_config self s' /\
    (stype self <> "LOAD"%string ->
     vout s' = vout self /\ vin_nom s' = vin_nom self).
Proof.
  exists (computed upstream_vout self).
  split; [apply compute_computed|].
  split; [apply computed_frame|].
  intros H. apply String.eqb_neq in H.
  now rewrite computed_vout, computed_vin_nom, H.
Qed.

(** X2: [compute] is idempotent for a given upstream voltage: computing
    again the stage a call has left, with the same argument, leaves that
    same stage, diagnostics included. *)
Theorem compute_idempotent (upstream_vout : option float)
    (self : PowerStage) :
  exists s',
    compute upstream_vout self = ret s' /\ compute upstream_vout s' = ret s'.
Proof.
  exists (computed upstream_vout self).
  split; [apply compute_computed|].
  rewrite compute_computed. now rewrite computed_twice.
Qed.

Lemma ltb_leb (a b : float) : (a <? b) = true -> (a <=? b) = true.
Proof.
  rewrite FloatAxioms.ltb_spec, FloatAxioms.leb_spec.
  unfold SpecFloat.SFltb, SpecFloat.SFleb.
  destruct (SpecFloat.SFcompare _ _) as [[]|]; congruence.
Qed.

Lemma clamped_unit (x : float) :
  (0 <=? Py.max 0.0 (Py.min 1.0 x)) = true /\
  (Py.max 0.0 (Py.min 1.0 x) <=? 1) = true.
Proof.
  unfold Py.max, Py.min.
  destruct (x <? 1.0) eqn:E1.
  - destruct (0.0 <? x) eqn:E0.
    + split; now apply ltb_leb.
    + split; reflexivity.
  - destruct (0.0 <? 1.0) eqn:E0; split; reflexivity.
Qed.

(** X3: the effective efficiency [compute] stores for an LDO or a DCDC is
    a number between 0 and 1, both included, whatever the voltages and the
    efficiency entered (infinite values and NaN included). *)
Theorem efficiency_within_unit (upstream_vout : option float)
    (self : PowerStage) :
  stype self = "LDO"%string \/ stype self = "DCDC"%string ->
  exists s',
    compute upstream_vout self = ret s' /\
    (0 <=? eff_effective s') = true /\ (eff_effective s' <=? 1) = true.
Proof.
  intros Ht. rewrite compute_cases.
  assert (Hsel : (stype self =? "INPUT")%string = false /\
                 (stype self =? "LOAD")%string = false /\
                 ((stype self =? "LDO")%string
                  || (stype self =? "DCDC")%string) = true).
  { destruct Ht as [-> | ->]; repeat split; reflexivity. }
  destruct Hsel as (-> & -> & ->).
  destruct (compute_regulator_spec (prepared upstream_vout self))
    as (s' & -> & _ & _ & _ & _ & He & _).
  exists s'. split; [reflexivity|]. rewrite He. unfold regulator_eff.
  apply clamped_unit.
Qed.

Lemma efficiency_within_unit_witness :
  exists s',
    compute (Some 0.0) dead_dcdc = ret s' /\
    (0 <=? eff_effective s') = true /\ (eff_effective s' <=? 1) = true.
Proof.
  apply (efficiency_within_unit (Some 0.0) dead_dcdc). right. reflexivity.
Defined.

(** X4: a [LOAD] remembers the last bus voltage.  Computed with an upstream
    voltage [v], it stores [v] as its [vin_nom] and [vout]; computed again
    without any upstream voltage, it still works at [v]: [vin_effective],
    [vin_nom] and [vout] are [v] and [p_out = |v| * load_current]. *)
Theorem load_keeps_bus_voltage (v : float) (self : PowerStage) :
  stype self = "LOAD"%string ->
  exists s1 s2,
    compute (Some v) self = ret s1 /\
    vin_nom s1 = v /\ vout s1 = v /\
    compute None s1 = ret s2 /\
    vin_effective s2 = v /\ vin_nom s2 = v /\ vout s2 = v /\
    p_out s2 = abs v * load_current self /\ i_in s2 = load_current self /\
    errors s2 = [].
Proof.
  intros Ht.
  assert (H1 : compute (Some v) self
               = ret (compute_load (Some v) (prepared (Some v) self))).
  { rewrite compute_cases, Ht. reflexivity. }
  set (s1 := compute_load (Some v) (prepared (Some v) self)) in *.
  assert (Ht1 : stype s1 = "LOAD"%string) by exact Ht.
  exists s1, (compute_load None (prepared None s1)).
  split; [exact H1|]. split; [reflexivity|]. split; [reflexivity|].
  split; [rewrite compute_cases, Ht1; reflexivity|].
  repeat split.
Qed.

Lemma load_keeps_bus_voltage_witness :
  exists s1 s2,
    compute (Some 5.0) (stage (plain "b" "LOAD" None)) = ret s1 /\
    vin_nom s1 = 5.0 /\ vout s1 = 5.0 /\
    compute None s1 = ret s2 /\
    vin_effective s2 = 5.0 /\ vin_nom s2 = 5.0 /\ vout s2 = 5.0 /\
    p_out s2 = abs 5.0 * load_current (stage (plain "b" "LOAD" None)) /\
    i_in s2 = load_current (stage (plain "b" "LOAD" None)) /\
    errors s2 = [].
Proof.
  apply (load_keeps_bus_voltage 5.0 (stage (plain "b" "LOAD" None))).
  reflexivity.
Defined.

End CalculatorMore.

(** ** More on the walks of the scene *)

Section WalksMore.

Implicit Types (ns : list NodeItem) (k : string).

Lemma cycle_walk_more ns dst :
  forall fuel current seen b,
    cycle_walk fuel ns current seen dst = Some b ->
    forall fuel', fuel <= fuel' ->
      cycle_walk fuel' ns current seen dst = Some b.
Proof.
  induction fuel as [|fuel IH]; intros current seen b H fuel' Hle;
    [discriminate|].
  destruct fuel' as [|fuel']; [lia|].
  cbn [cycle_walk] in *.
  destruct (Py.truthy _); [|assumption].
  destruct (upstream (stage current)) as [upid|]; [|assumption].
  destruct (mem upid seen); [assumption|].
  destruct (nodes_get ns upid) as [upnode|]; [|assumption].
  destruct (node_id upnode =? dst)%string; [assumption|].
  apply (IH _ _ _ H). lia.
Qed.

(** X5: the walk of [_creates_cycle] ends on every store, whatever the
    upstream pointers (cycles and dangling pointers included): it makes at
    most [len(nodes) + 1] iterations, and with any larger bound on the
    iterations it gives the same answer. *)
Theorem creates_cycle_ends (ns : list NodeItem) (src : NodeItem)
    (dst : string) (fuel : nat) :
  length ns < fuel ->
  cycle_walk fuel ns src [] dst = Some (_creates_cycle ns src dst).
Proof.
  intros H. apply (cycle_walk_more ns dst (S (length ns))); [|lia].
  apply creates_cycle_walk.
Qed.

Lemma creates_cycle_ends_witness :
  cycle_walk 7 (nodes source_loop) (plain "a" "INPUT" (Some "b"%string)) [] "a"
  = Some (_creates_cycle (nodes source_loop)
            (plain "a" "INPUT" (Some "b"%string)) "a").
Proof.
  apply (creates_cycle_ends (nodes source_loop)
           (plain "a" "INPUT" (Some "b"%string)) "a" 7).
  cbn. lia.
Defined.

(** X6: on a well-formed store without a cycle, [_creates_cycle(src, dst)]
    is [True] exactly when [dst] is reached from [src] by one or more
    upstream steps. *)
Theorem creates_cycle_reaches (ns : list NodeItem) (src : NodeItem)
    (dst : string) :
  wf ns -> acyclic ns -> In src ns ->
  (_creates_cycle ns src dst = true <->
   clos_trans string (up ns) (node_id src) dst).
Proof. apply creates_cycle_iff. Qed.

Lemma creates_cycle_reaches_witness :
  _creates_cycle (nodes source_chain)
    (mkNodeItem
       (set_load_current (stage (plain "b" "LOAD" (Some "a"%string))) 0.5)
       (0, 0)%float) "s" = true <->
  clos_trans string (up (nodes source_chain)) "b"%string "s"%string.
Proof.
  apply (creates_cycle_reaches (nodes source_chain)
           (mkNodeItem
              (set_load_current (stage (plain "b" "LOAD" (Some "a"%string)))
                 0.5) (0, 0)%float) "s").
  - apply wfb_sound. reflexivity.
  - apply acyclicb_sound; [apply nodupb_sound|]; reflexivity.
  - cbn. auto.
Defined.

(** *** [depth] *)

Lemma mapM_error {A B : Type} (f : A -> M B) l e :
  mapM f l = inl e -> exists x, In x l /\ f x = inl e.
Proof.
  induction l as [|a l IH]; intros H; [discriminate|].
  cbn [mapM] in H.
  destruct (f a) as [e'|b] eqn:Ea.
  - cbn in H. injection H as <-. exists a. split; [now left|assumption].
  - cbn [bind] in H.
    destruct (mapM f l) as [e'|bs]; [|discriminate].
    cbn in H. injection H as <-.
    destruct (IH eq_refl) as (x & Hx & Hf). exists x. split; [now right|].
    assumption.
Qed.

Lemma depth_raises ns :
  forall fuel k e, depth fuel ns k = inl e -> e = RecursionError.
Proof.
  induction fuel as [|fuel IH]; intros k e H.
  - cbn in H. unfold raise in H. congruence.
  - rewrite depth_unfold in H.
    destruct (children ns k) as [|c0 cs]; [discriminate|].
    destruct (mapM _ (c0 :: cs)) as [e'|ds] eqn:E; [|discriminate].
    cbn in H. injection H as <-.
    destruct (mapM_error _ _ _ E) as (x & _ & Hx). eapply IH; eauto.
Qed.

Lemma mapM_raises {A B : Type} (f : A -> M B) (err : error) l :
  (forall x e, In x l -> f x = inl e -> e = err) ->
  (exists x, In x l /\ f x = inl err) ->
  mapM f l = inl err.
Proof.
  induction l as [|a l IH]; intros Hall (x & Hx & Hf); [destruct Hx|].
  cbn [mapM].
  destruct (f a) as [e|b] eqn:Ea.
  - cbn. f_equal. eapply Hall; [now left|eassumption].
  - cbn [bind].
    rewrite IH.
    + reflexivity.
    + intros y e Hy. apply Hall. now right.
    + destruct Hx as [<- | Hx]; [congruence|eauto].
Qed.

Lemma cycle_child ns k :
  clos_trans string (up ns) k k ->
  exists c, up ns c k /\ clos_trans string (up ns) c c.
Proof.
  intros H. apply clos_trans_tn1 in H.
  inversion H as [Hs | y z Hyz Hky]; subst.
  - exists k. split; [assumption|]. now apply t_step.
  - exists y. split; [assumption|].
    apply clos_tn1_trans in Hky.
    eapply t_trans; [apply t_step; eassumption | assumption].
Qed.

Lemma depth_on_cycle ns :
  forall fuel k, clos_trans string (up ns) k k ->
    depth fuel ns k = inl RecursionError.
Proof.
  induction fuel as [|fuel IH]; intros k Hk; [reflexivity|].
  rewrite depth_unfold.
  destruct (cycle_child ns k Hk) as (c & Hc & Hcc).
  apply up_iff in Hc. destruct Hc as (n & Hn & Hid & Hu).
  assert (Hin : In n (children ns k)).
  { unfold children. apply filter_In. split; [assumption|].
    unfold upstream_is. rewrite Hu. apply String.eqb_refl. }
  destruct (children ns k) as [|c0 cs] eqn:E; [destruct Hin|].
  rewrite (mapM_raises _ RecursionError).
  - reflexivity.
  - intros x e _. apply depth_raises.
  - exists n. split; [assumption|]. apply IH. now rewrite Hid.
Qed.

Lemma max_input_depth_raises all :
  forall ns m e, max_input_depth ns all m = inl e -> e = RecursionError.
Proof.
  induction ns as [|n r IH]; intros m e H; cbn [max_input_depth] in H;
    [discriminate|].
  destruct (_ =? "INPUT")%string; [|eapply IH; eauto].
  destruct (depth _ all (node_id n)) as [e'|d] eqn:E.
  - cbn in H. injection H as <-. eapply depth_raises; eauto.
  - cbn [bind] in H. eapply IH; eauto.
Qed.

Lemma max_input_depth_on_cycle all :
  forall ns m n,
    In n ns -> stype (stage n) = "INPUT"%string ->
    clos_trans string (up all) (node_id n) (node_id n) ->
    max_input_depth ns all m = inl RecursionError.
Proof.
  induction ns as [|a r IH]; intros m n Hin Ht Hc; [destruct Hin|].
  cbn [max_input_depth].
  destruct Hin as [-> | Hin].
  - rewrite Ht. cbn [String.eqb Ascii.eqb Bool.eqb].
    now rewrite depth_on_cycle.
  - destruct (_ =? "INPUT")%string; [|eapply IH; eauto].
    destruct (depth _ all (node_id a)) as [e|d] eqn:E.
    + cbn. f_equal. eapply depth_raises; eauto.
    + cbn [bind]. eapply IH; eauto.
Qed.

(** X7: on a store without a cycle whose keys are distinct, [depth]
    returns for every node, the value is at least 1, it is exactly 1 for a
    node without children, and it is greater than the depth of each direct
    child. *)
Theorem depth_above_children (ns : list NodeItem) (k : string) :
  NoDup (ids ns) -> acyclic ns -> In k (ids ns) ->
  exists d,
    depth_of ns k = ret d /\ 1 <= d /\
    (children ns k = [] -> d = 1) /\
    forall c, up ns c k -> exists dc, depth_of ns c = ret dc /\ dc < d.
Proof.
  intros Hnd Hac Hk.
  destruct (depth_returns ns k Hac Hk) as [d Hd].
  exists d. split; [exact Hd|].
  split; [eapply depth_positive; eauto|].
  split.
  - intros Hc. unfold depth_of, depth_fuel in Hd.
    rewrite depth_unfold, Hc in Hd. now injection Hd as <-.
  - intros c Hc. now apply (depth_child ns c k d).
Qed.

Lemma depth_above_children_witness :
  exists d,
    depth_of (nodes source_chain) "s" = ret d /\ 1 <= d /\
    (children (nodes source_chain) "s" = [] -> d = 1) /\
    forall c, up (nodes source_chain) c "s" ->
      exists dc, depth_of (nodes source_chain) c = ret dc /\ dc < d.
Proof.
  apply (depth_above_children (nodes source_chain) "s").
  - apply nodupb_sound. reflexivity.
  - apply acyclicb_sound; [apply nodupb_sound|]; reflexivity.
  - cbn. auto.
Defined.

(** X8: where a node lies on a cycle of upstream pointers, the recursion
    of [depth] from it has no end: whatever the number of nested calls
    allowed, the call fails with [RecursionError].  [recompute_all] then
    fails with that error as soon as one such node is an [INPUT]. *)
Theorem recompute_all_overflows (sc : PowerScene) (n : NodeItem) :
  In n (nodes sc) -> stype (stage n) = "INPUT"%string ->
  clos_trans string (up (nodes sc)) (node_id n) (node_id n) ->
  (forall fuel, depth fuel (nodes sc) (node_id n) = raise RecursionError) /\
  recompute_all sc = raise RecursionError.
Proof.
  intros Hin Ht Hc. split.
  - intros fuel. now apply depth_on_cycle.
  - unfold recompute_all, pass_count.
    now rewrite (max_input_depth_on_cycle _ _ 0 n Hin Ht Hc).
Qed.

Lemma recompute_all_overflows_witness :
  (forall fuel, depth fuel (nodes source_loop) "a" = raise RecursionError) /\
  recompute_all source_loop = raise RecursionError.
Proof.
  apply (recompute_all_overflows source_loop
           (plain "a" "INPUT" (Some "b"%string))).
  - cbn. auto.
  - reflexivity.
  - apply t_trans with "b"%string; apply t_step; cbn; auto.
Defined.

(** *** The two orders *)

(** X9: on a well-formed store without a cycle, the order Kahn's loop
    builds lists every node exactly once, each after its upstream; the
    requested currents are therefore computed children first and the
    stages parents first. *)
Theorem kahn_order_topological (ns : list NodeItem) :
  wf ns -> acyclic ns ->
  let order := topo_order (kahn ns) in
  NoDup order /\
  (forall k, In k order <-> In k (ids ns)) /\
  (forall l1 k l2, order = l1 ++ k :: l2 ->
     forall u, up ns k u -> In u l1) /\
  compute_order ns = order.
Proof.
  intros Hwf Hac order.
  destruct (kahn_topological ns Hwf Hac) as (H1 & H2 & H3).
  repeat split; try assumption; try apply H2.
  now apply compute_order_kahn.
Qed.

Lemma kahn_order_topological_witness :
  let order := topo_order (kahn (nodes source_chain)) in
  NoDup order /\
  (forall k, In k order <-> In k (ids (nodes source_chain))) /\
  (forall l1 k l2, order = l1 ++ k :: l2 ->
     forall u, up (nodes source_chain) k u -> In u l1) /\
  compute_order (nodes source_chain) = order.
Proof.
  apply (kahn_order_topological (nodes source_chain)).
  - apply wfb_sound. reflexivity.
  - apply acyclicb_sound; [apply nodupb_sound|]; reflexivity.
Defined.

(** X10: on a well-formed store, with or without a cycle, the compute
    sweep visits every node exactly once: the nodes Kahn's loop could not
    order are appended after those it ordered. *)
Theorem compute_order_complete (ns : list NodeItem) :
  wf ns ->
  NoDup (compute_order ns) /\
  forall k, In k (compute_order ns) <-> In k (ids ns).
Proof.
  intros Hwf.
  destruct (kahn_terminates ns Hwf) as [Hinv Hws].
  pose proof (inv_nodup _ _ Hinv) as Hnd.
  pose proof (inv_incl _ _ Hinv) as Hincl.
  rewrite Hws, app_nil_r in Hnd, Hincl.
  unfold compute_order. fold (ids ns).
  set (order := topo_order (kahn ns)) in *.
  split.
  - apply NoDup_app.
    + assumption.
    + apply NoDup_filter, Hwf.
    + intros k Hk Hf. apply filter_In in Hf. destruct Hf as [_ Hf].
      apply negb_true_iff, mem_false in Hf. contradiction.
  - intros k. rewrite in_app_iff, filter_In, negb_true_iff, mem_false.
    split.
    + intros [H | [H _]]; [now apply Hincl | assumption].
    + intros H. destruct (in_dec string_dec k order); [now left|now right].
Qed.

Lemma compute_order_complete_witness :
  NoDup (compute_order (nodes source_loop)) /\
  forall k, In k (compute_order (nodes source_loop))
            <-> In k (ids (nodes source_loop)).
Proof.
  apply (compute_order_complete (nodes source_loop)).
  apply wfb_sound. reflexivity.
Defined.

(** X11: on a well-formed store without a cycle,
    [compute_requested_currents] rewrites one field of each node and
    nothing else: a [LOAD] gets [iout_user = load_current], every other
    node gets [iout_user] equal to the sum, from [0.0] in dict order, of
    the [i_in] its direct children held when the call began. *)
Theorem requested_currents_pointwise (ns : list NodeItem) :
  wf ns -> acyclic ns ->
  compute_requested_currents ns
  = map (fun n =>
           mkNodeItem
             (set_iout_user (stage n)
                (if (stype (stage n) =? "LOAD")%string
                 then load_current (stage n)
                 else sum_children i_in ns (node_id n)))
             (pos n)) ns.
Proof. intros Hwf Hac. now rewrite requested_currents_map. Qed.

Lemma requested_currents_pointwise_witness :
  compute_requested_currents (nodes source_chain)
  = map (fun n =>
           mkNodeItem
             (set_iout_user (stage n)
                (if (stype (stage n) =? "LOAD")%string
                 then load_current (stage n)
                 else sum_children i_in (nodes source_chain) (node_id n)))
             (pos n)) (nodes source_chain).
Proof.
  apply (requested_currents_pointwise (nodes source_chain)).
  - apply wfb_sound. reflexivity.
  - apply acyclicb_sound; [apply nodupb_sound|]; reflexivity.
Defined.

End WalksMore.

(** ** What a recompute leaves *)

Section RecomputeMore.

Implicit Types (ns g : list NodeItem) (k : string) (s : PowerStage).

Local Open Scope float_scope.

Lemma same_settings_refl s : same_settings s s.
Proof. repeat split. Qed.

Lemma same_settings_trans s1 s2 s3 :
  same_settings s1 s2 -> same_settings s2 s3 -> same_settings s1 s3.
Proof.
  unfold same_settings.
  intros (?&?&?&?&?&?&?&?&?&?&?&?&?) (?&?&?&?&?&?&?&?&?&?&?&?&?).
  repeat split; congruence.
Qed.

Lemma same_settings_stype s s' : same_settings s s' -> stype s' = stype s.
Proof. intros (_ & H & _). unfold stype. now rewrite H. Qed.

Lemma pass_stage_settings g g' s : same_settings s (pass_stage g g' s).
Proof.
  unfold pass_stage.
  set (a := set_iout_user s (requested g s)).
  set (U := upstream_vout_of g' s).
  destruct (supply_checked_frame g' (computed U a)) as (F & _).
  destruct (computed_frame U a) as (?&?&?&?&?&?&?&?&?&?&?&?&?&?).
  destruct F as (?&?&?&?&?&?&?&?&?&?&?&?&?&?).
  assert (Ea : same_settings s a) by (repeat split).
  destruct Ea as (?&?&?&?&?&?&?&?&?&?&?&?&?).
  repeat split; congruence.
Qed.

Lemma sweeps_settings j :
  forall ns, wf ns -> acyclic ns ->
    map pos (sweeps j ns) = map pos ns /\
    forall k s, stage_of ns k = Some s ->
      exists s', stage_of (sweeps j ns) k = Some s' /\
        same_settings s s' /\
        (stype s <> "LOAD"%string ->
         vout s' = vout s /\ vin_nom s' = vin_nom s).
Proof.
  induction j as [|j IH]; intros ns Hwf Hac.
  { split; [reflexivity|]. intros k s H. exists s.
    split; [assumption|]. split; [apply same_settings_refl|auto]. }
  cbn [sweeps].
  destruct (swept_keeps ns Hwf Hac) as (W & C & S).
  destruct (IH _ W C) as [Hp Hs].
  destruct (swept_spec ns Hwf Hac) as (_ & Hp0 & _).
  split; [congruence|].
  intros k s H.
  assert (H1 := swept_stage ns k s Hwf Hac H).
  destruct (Hs k _ H1) as (s' & H' & Hset & Hv).
  exists s'. split; [assumption|].
  assert (Hset1 := pass_stage_settings ns (swept ns) s).
  split; [eapply same_settings_trans; eassumption|].
  intros Hne.
  assert (Ht := same_settings_stype _ _ Hset1).
  destruct (Hv ltac:(congruence)) as [-> ->].
  destruct (pass_stage_volts ns (swept ns) s) as [-> ->].
  apply String.eqb_neq in Hne. rewrite Hne. split; reflexivity.
Qed.

Lemma recompute_all_settings (sc : PowerScene) :
  wf (nodes sc) -> acyclic (nodes sc) ->
  exists sc',
    recompute_all sc = ret sc' /\
    ids (nodes sc') = ids (nodes sc) /\
    map pos (nodes sc') = map pos (nodes sc) /\
    edges sc' = edges sc /\
    forall k s, stage_of (nodes sc) k = Some s ->
      exists s', stage_of (nodes sc') k = Some s' /\
        same_settings s s' /\
        (stype s <> "LOAD"%string ->
         vout s' = vout s /\ vin_nom s' = vin_nom s).
Proof.
  intros Hwf Hac.
  destruct (pass_count_returns _ Hac) as (c & Hc & _).
  exists (mkPowerScene (sweeps c (nodes sc)) (edges sc)).
  split.
  { unfold recompute_all. rewrite Hc. cbn [bind ret].
    now rewrite passes_sweeps. }
  cbn [nodes edges].
  destruct (sweeps_keeps c _ Hwf Hac) as (_ & _ & S).
  destruct (sweeps_settings c _ Hwf Hac) as [Hp Hs].
  split; [now apply ids_of_skeleton|]. split; [assumption|].
  split; [reflexivity|assumption].
Qed.


(** X12: on a well-formed scene without a cycle, [recompute_all] returns
    and edits no setting: the scene it leaves has the same nodes in the
    same order at the same positions and the same edges, and every stage
    keeps its [id], [stage_type], [name], [ic_name], [vin_min], [vin_max],
    [iout_max_ic], [efficiency_user], [iq], [notes], [upstream], [color]
    and [load_current]; a stage that is not a [LOAD] keeps its [vout] and
    [vin_nom] too. *)
Theorem recompute_all_keeps_settings (sc : PowerScene) :
  wf (nodes sc) -> acyclic (nodes sc) ->
  exists sc',
    recompute_all sc = ret sc' /\
    ids (nodes sc') = ids (nodes sc) /\
    map pos (nodes sc') = map pos (nodes sc) /\
    edges sc' = edges sc /\
    forall k s, stage_of (nodes sc) k = Some s ->
      exists s', stage_of (nodes sc') k = Some s' /\
        same_settings s s' /\
        (stype s <> "LOAD"%string ->
         vout s' = vout s /\ vin_nom s' = vin_nom s).
Proof. apply recompute_all_settings. Qed.

Lemma recompute_all_keeps_settings_witness :
  exists sc',
    recompute_all source_chain = ret sc' /\
    ids (nodes sc') = ids (nodes source_chain) /\
    map pos (nodes sc') = map pos (nodes source_chain) /\
    edges sc' = edges source_chain /\
    forall k s, stage_of (nodes source_chain) k = Some s ->
      exists s', stage_of (nodes sc') k = Some s' /\
        same_settings s s' /\
        (stype s <> "LOAD"%string ->
         vout s' = vout s /\ vin_nom s' = vin_nom s).
Proof.
  apply (recompute_all_keeps_settings source_chain).
  - apply wfb_sound. reflexivity.
  - apply acyclicb_sound; [apply nodupb_sound|]; reflexivity.
Defined.

Lemma computed_vin_effective U a : vin_effective (computed U a) = vin_of U a.
Proof.
  assert (Hc : compute U a = ret (computed U a)) by apply compute_computed.
  rewrite compute_cases in Hc.
  destruct (stype a =? "INPUT")%string.
  { injection Hc as Hc. rewrite <- Hc, compute_input_eq. reflexivity. }
  destruct (stype a =? "LOAD")%string.
  { injection Hc as Hc. rewrite <- Hc. reflexivity. }
  destruct (_ || _).
  - destruct (compute_regulator_spec (prepared U a))
      as (r & Hr & _ & _ & _ & Hve & _).
    rewrite Hr in Hc. injection Hc as <-. exact Hve.
  - injection Hc as Hc. now rewrite <- Hc.
Qed.

Lemma supply_checked_vin_effective X c :
  vin_effective (supply_checked X c) = vin_effective c.
Proof. destruct (supply_checked_errors X c) as [l ->]. reflexivity. Qed.

(** The last pass of a recompute, seen from the store it leaves. *)
Lemma last_pass sc :
  wf (nodes sc) -> acyclic (nodes sc) ->
  exists g,
    wf g /\ acyclic g /\ skeleton g = skeleton (nodes sc) /\
    recompute_all sc = ret (mkPowerScene (swept g) (edges sc)) /\
    forall n', In n' (swept g) ->
      exists s0, stage_of g (node_id n') = Some s0 /\
                 stage n' = pass_stage g (swept g) s0.
Proof.
  intros Hwf Hac.
  destruct (pass_count_returns _ Hac) as (c & Hc & Hpos).
  destruct c as [|c]; [lia|].
  destruct (sweeps_keeps c _ Hwf Hac) as (W & C & S).
  exists (sweeps c (nodes sc)).
  split; [assumption|]. split; [assumption|]. split; [assumption|].
  split.
  { unfold recompute_all. rewrite Hc. cbn [bind ret].
    now rewrite passes_sweeps, sweeps_succ. }
  intros n' Hn'.
  destruct (swept_keeps _ W C) as (W1 & C1 & S1).
  assert (Hin : In (node_id n') (ids (sweeps c (nodes sc)))).
  { rewrite <- (ids_of_skeleton _ _ S1). now apply in_map. }
  apply stage_of_in in Hin. destruct Hin as [s0 H0].
  exists s0. split; [assumption|].
  assert (H1 := swept_stage _ _ _ W C H0).
  rewrite (stage_of_node _ n' (proj1 W1) Hn') in H1. congruence.
Qed.

(** X13: voltages propagate down the tree.  On a well-formed scene
    without a cycle, after [recompute_all] every node's [vin_effective] is
    the [vout] its upstream node holds in the scene returned, or the
    node's own [vin_nom] when it has no upstream; and a [LOAD] has its
    [vout] and [vin_nom] equal to that voltage. *)
Theorem voltage_propagation (sc : PowerScene) :
  wf (nodes sc) -> acyclic (nodes sc) ->
  exists sc',
    recompute_all sc = ret sc' /\
    forall n', In n' (nodes sc') ->
      vin_effective (stage n')
      = vin_of (upstream_vout_of (nodes sc') (stage n')) (stage n') /\
      (stype (stage n') = "LOAD"%string ->
       vout (stage n') = vin_effective (stage n') /\
       vin_nom (stage n') = vin_effective (stage n')).
Proof.
  intros Hwf Hac.
  destruct (last_pass sc Hwf Hac) as (g & W & C & S & Hr & Hn).
  eexists. split; [exact Hr|]. cbn [nodes].
  intros n' Hn'. destruct (Hn n' Hn') as (s0 & H0 & ->).
  set (s1 := pass_stage g (swept g) s0).
  destruct (pass_stage_frame g (swept g) s0) as (_ & Hu & Ht & _).
  destruct (pass_stage_volts g (swept g) s0) as [Hv Hvn].
  fold s1 in Hu, Ht, Hv, Hvn.
  rewrite (upstream_vout_of_ext (swept g) s1 s0 Hu).
  assert (He : vin_effective s1 = vin_of (upstream_vout_of (swept g) s0) s0).
  { unfold s1, pass_stage.
    rewrite supply_checked_vin_effective, computed_vin_effective.
    now destruct (upstream_vout_of (swept g) s0). }
  rewrite He. split.
  - unfold vin_of. destruct (upstream_vout_of (swept g) s0); [reflexivity|].
    rewrite Hvn. now destruct (stype s0 =? "LOAD")%string.
  - intros Hl. rewrite Ht in Hl. rewrite Hv, Hvn, Hl. split; reflexivity.
Qed.

Lemma voltage_propagation_witness :
  exists sc',
    recompute_all source_chain = ret sc' /\
    forall n', In n' (nodes sc') ->
      vin_effective (stage n')
      = vin_of (upstream_vout_of (nodes sc') (stage n')) (stage n') /\
      (stype (stage n') = "LOAD"%string ->
       vout (stage n') = vin_effective (stage n') /\
       vin_nom (stage n') = vin_effective (stage n')).
Proof.
  apply (voltage_propagation source_chain).
  - apply wfb_sound. reflexivity.
  - apply acyclicb_sound; [apply nodupb_sound|]; reflexivity.
Defined.

Lemma computed_input_errors U a :
  stype a = "INPUT"%string ->
  errors (computed U a)
  = if (vin_min a <=? vout a) && (vout a <=? vin_max a) then []
    else [OutputOutsideSourceRange (name a) (vout a) (vin_min a)
            (vin_max a)].
Proof.
  intros Ht.
  assert (Hc : compute U a = ret (computed U a)) by apply compute_computed.
  rewrite compute_cases, Ht in Hc. cbn [String.eqb Ascii.eqb Bool.eqb] in Hc.
  injection Hc as Hc. rewrite <- Hc, compute_input_eq.
  unfold input_result. stage_norm.
  now destruct (_ && _).
Qed.

(** X14: the supply check.  On a well-formed scene without a cycle, after
    [recompute_all] the diagnostics of an [INPUT] node are exactly: the
    out-of-range one when its [vout] is not within [vin_min, vin_max],
    then, with [total] the sum of [iout_user] over its direct children in
    the scene returned, the overload one when [total > iout_max_ic], or
    else the close-to-limit one when [total > 0.9 * iout_max_ic]. *)
Theorem supply_check_diagnostics (sc : PowerScene) :
  wf (nodes sc) -> acyclic (nodes sc) ->
  exists sc',
    recompute_all sc = ret sc' /\
    forall n', In n' (nodes sc') -> stype (stage n') = "INPUT"%string ->
      let s := stage n' in
      let total := sum_children iout_user (nodes sc') (node_id n') in
      errors s
      = (if (vin_min s <=? vout s) && (vout s <=? vin_max s) then []
         else [OutputOutsideSourceRange (name s) (vout s) (vin_min s)
                 (vin_max s)])
        ++ (if iout_max_ic s <? total
            then [TotalLoadAboveSourceImax (name s) total (iout_max_ic s)]
            else if iout_max_ic s * 0.9 <? total
            then [TotalLoadCloseToSourceImax (name s) total (iout_max_ic s)]
            else []).
Proof.
  intros Hwf Hac.
  destruct (last_pass sc Hwf Hac) as (g & W & C & S & Hr & Hn).
  eexists. split; [exact Hr|]. cbn [nodes].
  intros n' Hn' Ht. destruct (Hn n' Hn') as (s0 & H0 & E).
  cbn zeta. unfold node_id. rewrite E.
  destruct (pass_stage_frame g (swept g) s0) as (Hi & _ & Hst & _).
  rewrite E, Hst in Ht.
  destruct (pass_stage_settings g (swept g) s0)
    as (_ & _ & Hname & _ & Hmin & Hmax & Himax & _).
  destruct (pass_stage_volts g (swept g) s0) as [Hv _].
  assert (Hl : (stype s0 =? "LOAD")%string = false) by now rewrite Ht.
  rewrite Hl in Hv.
  rewrite Hname, Hmin, Hmax, Himax, Hv, Hi.
  unfold pass_stage.
  set (a := set_iout_user s0 (requested g s0)).
  set (U := upstream_vout_of (swept g) s0).
  assert (Hta : stype a = "INPUT"%string) by exact Ht.
  assert (Hea := computed_input_errors U a Hta).
  change (vin_min a) with (vin_min s0) in Hea.
  change (vin_max a) with (vin_max s0) in Hea.
  change (vout a) with (vout s0) in Hea.
  change (name a) with (name s0) in Hea.
  destruct (computed_frame U a)
    as (Hci & _ & Hcn & _ & _ & _ & _ & Hcx & _).
  change (id a) with (id s0) in Hci.
  change (name a) with (name s0) in Hcn.
  change (iout_max_ic a) with (iout_max_ic s0) in Hcx.
  unfold supply_checked, append_error.
  rewrite stype_computed, Hta. cbn [String.eqb Ascii.eqb Bool.eqb].
  rewrite Hci, Hcn, Hcx.
  destruct (iout_max_ic s0 <? _).
  { stage_simpl. rewrite Hea. reflexivity. }
  destruct (iout_max_ic s0 * 0.9 <? _).
  { stage_simpl. rewrite Hea. reflexivity. }
  rewrite Hea. now rewrite app_nil_r.
Qed.

Lemma supply_check_diagnostics_witness :
  exists sc',
    recompute_all source_chain = ret sc' /\
    forall n', In n' (nodes sc') -> stype (stage n') = "INPUT"%string ->
      let s := stage n' in
      let total := sum_children iout_user (nodes sc') (node_id n') in
      errors s
      = (if (vin_min s <=? vout s) && (vout s <=? vin_max s) then []
         else [OutputOutsideSourceRange (name s) (vout s) (vin_min s)
                 (vin_max s)])
        ++ (if iout_max_ic s <? total
            then [TotalLoadAboveSourceImax (name s) total (iout_max_ic s)]
            else if iout_max_ic s * 0.9 <? total
            then [TotalLoadCloseToSourceImax (name s) total (iout_max_ic s)]
            else []).
Proof.
  apply (supply_check_diagnostics source_chain).
  - apply wfb_sound. reflexivity.
  - apply acyclicb_sound; [apply nodupb_sound|]; reflexivity.
Defined.

End RecomputeMore.

(** ** Adding, removing and editing nodes *)

Section NodesMore.

Implicit Types (ns g : list NodeItem) (k : string) (s : PowerStage).

Lemma up_app_root ns n a b :
  upstream (stage n) = None -> (up (ns ++ [n]) a b <-> up ns a b).
Proof.
  intros Hn. unfold up, skeleton. rewrite map_app, in_app_iff. cbn.
  rewrite Hn. split; [|auto].
  intros [H | [H | []]]; [assumption|discriminate].
Qed.

Lemma wf_app_root ns n :
  wf ns -> upstream (stage n) = None ->
  ~ In (node_id n) (ids ns) -> node_id n <> ""%string ->
  wf (ns ++ [n]).
Proof.
  intros (Hnd & He & Hd) Hn Hf Hne. unfold wf, ids. rewrite map_app. cbn.
  repeat split.
  - apply NoDup_app; [assumption|repeat constructor; auto|].
    intros x Hx [<- | []]. contradiction.
  - rewrite in_app_iff. intros [H | [H | []]]; [contradiction|congruence].
  - intros a b H. apply (up_app_root ns n a b Hn) in H.
    rewrite in_app_iff. left. eapply Hd; eauto.
Qed.

Lemma acyclic_app_root ns n :
  acyclic ns -> upstream (stage n) = None -> acyclic (ns ++ [n]).
Proof.
  intros Hac Hn a Hc. apply (Hac a).
  eapply clos_trans_mono; [|exact Hc].
  intros x y. now apply up_app_root.
Qed.

Lemma nodes_get_app ns n k :
  nodes_get (ns ++ [n]) k
  = match nodes_get ns k with
    | Some m => Some m
    | None => if (node_id n =? k)%string then Some n else None
    end.
Proof.
  unfold nodes_get. induction ns as [|m ns IH]; cbn [app find].
  - reflexivity.
  - destruct (node_id m =? k)%string; [reflexivity|apply IH].
Qed.

(** X15: [add_stage] on a well-formed scene without a cycle, with a new
    id: it returns; the new node is the last of the dict, at the position
    given or at [(50 + n, 50 + n)] with [n] the number of nodes before the
    call; it has no upstream and has the type asked for, the name
    [<type>_<n+1>] and the colour of its type ([#ffffff] for a type out of
    the map); an [INPUT] gets the window 11 V to 13 V around 12 V and a
    limit of 2 A; every other node keeps its settings and the edges are
    unchanged; the scene is still well formed and without a cycle. *)
Theorem add_stage_appends (sc : PowerScene) (fresh_id t : string)
    (position : option (float * float)) :
  wf (nodes sc) -> acyclic (nodes sc) ->
  ~ In fresh_id (ids (nodes sc)) -> fresh_id <> ""%string ->
  exists sc' s',
    add_stage sc fresh_id t position = ret sc' /\
    wf (nodes sc') /\ acyclic (nodes sc') /\
    ids (nodes sc') = ids (nodes sc) ++ [fresh_id] /\
    map pos (nodes sc')
    = map pos (nodes sc)
      ++ [match position with
          | Some p => p
          | None => (Py.of_nat (50 + length (nodes sc)),
                     Py.of_nat (50 + length (nodes sc)))
          end] /\
    edges sc' = edges sc /\
    stage_of (nodes sc') fresh_id = Some s' /\
    upstream s' = None /\ stage_type s' = t /\
    name s' = (t ++ "_" ++ Py.str_of_nat (length (nodes sc) + 1))%string /\
    color s' = default_color t /\
    (Py.upper t = "INPUT"%string ->
     vin_nom s' = 12%float /\ vin_min s' = 11%float /\
     vin_max s' = 13%float /\ iout_max_ic s' = 2%float) /\
    (forall k s, stage_of (nodes sc) k = Some s ->
       exists s'', stage_of (nodes sc') k = Some s'' /\ same_settings s s'').
Proof.
  intros Hwf Hac Hf Hne. unfold add_stage.
  match goal with
  | |- context [nodes_set _ ?n] => set (new := n)
  end.
  assert (Hid : node_id new = fresh_id).
  { unfold new, node_id. cbn [stage].
    now destruct (Py.upper t =? "INPUT")%string. }
  assert (Hup : upstream (stage new) = None).
  { unfold new. cbn [stage].
    now destruct (Py.upper t =? "INPUT")%string. }
  rewrite (nodes_set_new (nodes sc) new) by now rewrite Hid.
  set (sc0 := mkPowerScene (nodes sc ++ [new]) (edges sc)).
  assert (W0 : wf (nodes sc0)).
  { apply wf_app_root; trivial; now rewrite Hid. }
  assert (C0 : acyclic (nodes sc0)) by now apply acyclic_app_root.
  destruct (recompute_all_settings sc0 W0 C0)
    as (sc' & Hr & Hids & Hpos & Hed & Hst).
  destruct (recompute_all_keeps sc0 sc' W0 C0 Hr) as (W & C & _ & _).
  assert (Hnew : stage_of (nodes sc0) fresh_id = Some (stage new)).
  { unfold stage_of, sc0. cbn [nodes]. rewrite nodes_get_app.
    destruct (nodes_get (nodes sc) fresh_id) eqn:E.
    - exfalso. apply Hf. eapply get_in_ids; eauto.
    - rewrite Hid, String.eqb_refl. reflexivity. }
  destruct (Hst _ _ Hnew) as (s' & Hs' & Hset & Hv).
  exists sc', s'. split; [exact Hr|].
  split; [assumption|]. split; [assumption|].
  split.
  { rewrite Hids. unfold sc0, ids. cbn [nodes]. rewrite map_app. cbn.
    now rewrite Hid. }
  split.
  { rewrite Hpos. unfold sc0. cbn [nodes]. rewrite map_app. unfold new.
    cbn [map pos]. now destruct position. }
  split; [exact Hed|]. split; [exact Hs'|].
  destruct Hset as (_ & Ht & Hn & _ & Hmin & Hmax & Himax & _ & _ & _ & Hu
                    & Hc & _).
  rewrite Hu, Ht, Hn, Hc, Hmin, Hmax, Himax.
  split; [exact Hup|].
  assert (Hothers : forall k s, stage_of (nodes sc) k = Some s ->
            exists s'', stage_of (nodes sc') k = Some s''
                        /\ same_settings s s'').
  { intros k s Hk.
    assert (Hk0 : stage_of (nodes sc0) k = Some s).
    { unfold stage_of, sc0 in *. cbn [nodes]. rewrite nodes_get_app.
      destruct (nodes_get (nodes sc) k); [assumption|discriminate]. }
    destruct (Hst _ _ Hk0) as (s'' & H1 & H2 & _). eauto. }
  assert (Hnom : Py.upper t = "INPUT"%string -> vin_nom s' = 12%float).
  { intros Et.
    assert (Hnl : stype (stage new) <> "LOAD"%string).
    { assert (E : stage_type (stage new) = t).
      { unfold new. cbn [stage].
        now destruct (Py.upper t =? "INPUT")%string. }
      unfold stype. rewrite E, Et. discriminate. }
    destruct (Hv Hnl) as [_ ->]. unfold new. cbn [stage].
    apply String.eqb_eq in Et. rewrite Et. reflexivity. }
  unfold new. cbn [stage].
  destruct (Py.upper t =? "INPUT")%string eqn:Et.
  - apply String.eqb_eq in Et.
    split; [reflexivity|]. split; [reflexivity|]. split; [reflexivity|].
    split; [|assumption].
    intros _. split; [now apply Hnom|]. repeat split.
  - split; [reflexivity|]. split; [reflexivity|]. split; [reflexivity|].
    split; [|assumption].
    intros E. rewrite E in Et. discriminate.
Qed.

Lemma add_stage_appends_witness :
  exists sc' s',
    add_stage source_chain "n" "INPUT" None = ret sc' /\
    wf (nodes sc') /\ acyclic (nodes sc') /\
    ids (nodes sc') = ids (nodes source_chain) ++ ["n"%string] /\
    map pos (nodes sc')
    = map pos (nodes source_chain)
      ++ [(Py.of_nat (50 + length (nodes source_chain)),
           Py.of_nat (50 + length (nodes source_chain)))] /\
    edges sc' = edges source_chain /\
    stage_of (nodes sc') "n" = Some s' /\
    upstream s' = None /\ stage_type s' = "INPUT"%string /\
    name s'
    = ("INPUT" ++ "_"
       ++ Py.str_of_nat (length (nodes source_chain) + 1))%string /\
    color s' = default_color "INPUT" /\
    (Py.upper "INPUT" = "INPUT"%string ->
     vin_nom s' = 12%float /\ vin_min s' = 11%float /\
     vin_max s' = 13%float /\ iout_max_ic s' = 2%float) /\
    (forall k s, stage_of (nodes source_chain) k = Some s ->
       exists s'', stage_of (nodes sc') k = Some s'' /\ same_settings s s'').
Proof.
  apply (add_stage_appends source_chain "n" "INPUT" None).
  - apply wfb_sound. reflexivity.
  - apply acyclicb_sound; [apply nodupb_sound|]; reflexivity.
  - cbn. intros [H | [H | [H | []]]]; discriminate.
  - discriminate.
Defined.

End NodesMore.

(** ** Removing nodes *)

Section RemoveMore.

Implicit Types (ns g : list NodeItem) (k : string) (s : PowerStage).

(** The store [remove_node] hands to [recompute_all]. *)
Lemma up_removed ns k a b :
  up (nodes_del
        (map (fun n => if upstream_is n k
                       then mkNodeItem (set_upstream (stage n) None) (pos n)
                       else n) ns) k) a b
  <-> up ns a b /\ a <> k /\ b <> k.
Proof.
  rewrite !up_iff. unfold nodes_del. split.
  - intros (n & Hn & Ha & Hb).
    apply filter_In in Hn. destruct Hn as [Hn Hk].
    apply in_map_iff in Hn. destruct Hn as (m & <- & Hm).
    apply negb_true_iff, String.eqb_neq in Hk.
    unfold upstream_is in *.
    destruct (upstream (stage m)) as [u|] eqn:Eu.
    + destruct (u =? k)%string eqn:Ek.
      * cbn in Hb. discriminate.
      * rewrite Eu in Hb. injection Hb as ->.
        apply String.eqb_neq in Ek.
        split; [exists m; auto|]. split; congruence.
    + rewrite Eu in Hb. discriminate.
  - intros ((m & Hm & Ha & Hb) & Hak & Hbk).
    exists m. unfold upstream_is.
    assert (E : (if match upstream (stage m) with
                    | Some u => (u =? k)%string
                    | None => false
                    end
                 then mkNodeItem (set_upstream (stage m) None) (pos m)
                 else m) = m).
    { rewrite Hb. apply String.eqb_neq in Hbk. now rewrite Hbk. }
    split; [|auto].
    apply filter_In. split.
    + apply in_map_iff. exists m. split; [|assumption].
      unfold upstream_is. exact E.
    + apply negb_true_iff, String.eqb_neq. congruence.
Qed.

Lemma ids_removed ns k :
  ids (nodes_del
         (map (fun n => if upstream_is n k
                        then mkNodeItem (set_upstream (stage n) None) (pos n)
                        else n) ns) k)
  = filter (fun x => negb (x =? k)%string) (ids ns).
Proof.
  unfold nodes_del, ids. induction ns as [|n ns IH]; [reflexivity|].
  cbn [map filter].
  assert (E : node_id (if upstream_is n k
                       then mkNodeItem (set_upstream (stage n) None) (pos n)
                       else n) = node_id n)
    by now destruct (upstream_is n k).
  rewrite E.
  destruct (node_id n =? k)%string; cbn [negb map]; [apply IH|].
  now rewrite E, IH.
Qed.

Lemma remove_node_spec sc k :
  wf (nodes sc) -> acyclic (nodes sc) ->
  exists sc',
    remove_node sc k = ret sc' /\
    wf (nodes sc') /\ acyclic (nodes sc') /\
    ids (nodes sc')
    = filter (fun x => negb (x =? k)%string) (ids (nodes sc)) /\
    (forall a b, up (nodes sc') a b
                 <-> up (nodes sc) a b /\ a <> k /\ b <> k) /\
    edges sc'
    = filter (fun e => negb ((fst e =? k)%string || (snd e =? k)%string))
        (edges sc) /\
    (forall x s, x <> k -> stage_of (nodes sc) x = Some s ->
       upstream s <> Some k ->
       exists s', stage_of (nodes sc') x = Some s' /\ same_settings s s').
Proof.
  intros Hwf Hac. unfold remove_node.
  set (ns2 := nodes_del _ k).
  set (es := filter _ (edges sc)).
  assert (Hup := up_removed (nodes sc) k). fold ns2 in Hup.
  assert (Hids := ids_removed (nodes sc) k). fold ns2 in Hids.
  assert (W2 : wf ns2).
  { destruct Hwf as (Hnd & He & Hd). repeat split.
    - rewrite Hids. now apply NoDup_filter.
    - rewrite Hids, filter_In. tauto.
    - intros a b H. apply Hup in H. destruct H as (H & _ & Hb).
      rewrite Hids. apply filter_In. split; [eapply Hd; eauto|].
      apply negb_true_iff, String.eqb_neq. assumption. }
  assert (C2 : acyclic ns2).
  { intros a Hc. apply (Hac a). eapply clos_trans_mono; [|exact Hc].
    intros x y H. now apply Hup in H. }
  destruct (recompute_all_settings (mkPowerScene ns2 es) W2 C2)
    as (sc' & Hr & Hi & _ & He & Hst).
  destruct (recompute_all_keeps (mkPowerScene ns2 es) sc' W2 C2 Hr)
    as (W & C & S & _).
  cbn [nodes edges] in *.
  exists sc'. split; [exact Hr|].
  split; [assumption|]. split; [assumption|].
  split; [congruence|].
  split.
  { intros a b. rewrite (up_skeleton _ _ a b S). apply Hup. }
  split; [exact He|].
  intros x s Hx Hs Hu.
  assert (H2 : stage_of ns2 x = Some s).
  { destruct (stage_of_Some _ _ _ Hs) as (n & Hn & Hid & Hst').
    assert (Hin : In n ns2).
    { unfold ns2, nodes_del. apply filter_In. split.
      - apply in_map_iff. exists n. split; [|assumption].
        unfold upstream_is. rewrite Hst'.
        destruct (upstream s) as [u|]; [|reflexivity].
        destruct (u =? k)%string eqn:E; [|reflexivity].
        apply String.eqb_eq in E. congruence.
      - apply negb_true_iff, String.eqb_neq. congruence. }
    rewrite <- Hid, <- Hst'. apply stage_of_node; [apply W2|assumption]. }
  destruct (Hst _ _ H2) as (s' & H' & Hset & _). eauto.
Qed.

(** X16: [remove_node] on a well-formed scene without a cycle: it
    returns; the node is gone and the other nodes stay in their order; the
    nodes that had it as upstream have none; every other upstream pointer
    is as it was; the edges that touched it are gone and the others stay
    in their order; the nodes it was not the upstream of keep their
    settings; the scene is still well formed and without a cycle. *)
Theorem remove_node_detaches (sc : PowerScene) (k : string) :
  wf (nodes sc) -> acyclic (nodes sc) ->
  exists sc',
    remove_node sc k = ret sc' /\
    wf (nodes sc') /\ acyclic (nodes sc') /\
    ids (nodes sc')
    = filter (fun x => negb (x =? k)%string) (ids (nodes sc)) /\
    (forall a b, up (nodes sc') a b
                 <-> up (nodes sc) a b /\ a <> k /\ b <> k) /\
    edges sc'
    = filter (fun e => negb ((fst e =? k)%string || (snd e =? k)%string))
        (edges sc) /\
    (forall x s, x <> k -> stage_of (nodes sc) x = Some s ->
       upstream s <> Some k ->
       exists s', stage_of (nodes sc') x = Some s' /\ same_settings s s').
Proof. apply remove_node_spec. Qed.

Lemma remove_node_detaches_witness :
  exists sc',
    remove_node source_chain "a" = ret sc' /\
    wf (nodes sc') /\ acyclic (nodes sc') /\
    ids (nodes sc')
    = filter (fun x => negb (x =? "a")%string) (ids (nodes source_chain)) /\
    (forall a b, up (nodes sc') a b
                 <-> up (nodes source_chain) a b
                     /\ a <> "a"%string /\ b <> "a"%string) /\
    edges sc'
    = filter (fun e => negb ((fst e =? "a")%string || (snd e =? "a")%string))
        (edges source_chain) /\
    (forall x s, x <> "a"%string ->
       stage_of (nodes source_chain) x = Some s ->
       upstream s <> Some "a"%string ->
       exists s', stage_of (nodes sc') x = Some s' /\ same_settings s s').
Proof.
  apply (remove_node_detaches source_chain "a").
  - apply wfb_sound. reflexivity.
  - apply acyclicb_sound; [apply nodupb_sound|]; reflexivity.
Defined.

Lemma filter_filter {A : Type} (p q : A -> bool) l :
  filter q (filter p l) = filter (fun x => p x && q x) l.
Proof.
  induction l as [|a l IH]; [reflexivity|]. cbn [filter].
  destruct (p a); cbn [filter andb]; [|assumption].
  destruct (q a); now rewrite IH.
Qed.

Lemma remove_nodes_spec selected :
  forall sc,
    wf (nodes sc) -> acyclic (nodes sc) ->
    exists sc',
      remove_nodes sc selected = ret sc' /\
      wf (nodes sc') /\ acyclic (nodes sc') /\
      ids (nodes sc')
      = filter (fun x => negb (mem x selected)) (ids (nodes sc)) /\
      (forall a b, up (nodes sc') a b
                   <-> up (nodes sc) a b /\ ~ In a selected
                       /\ ~ In b selected) /\
      edges sc'
      = filter (fun e => negb (mem (fst e) selected || mem (snd e) selected))
          (edges sc).
Proof.
  induction selected as [|k rest IH]; intros sc Hwf Hac.
  - exists sc. cbn [remove_nodes mem]. split; [reflexivity|].
    split; [assumption|]. split; [assumption|].
    split.
    { symmetry. apply forallb_filter_id. now apply forallb_forall. }
    split; [tauto|].
    symmetry. apply forallb_filter_id. now apply forallb_forall.
  - destruct (remove_node_spec sc k Hwf Hac)
      as (sc1 & Hr & W1 & C1 & I1 & U1 & E1 & _).
    destruct (IH sc1 W1 C1) as (sc' & Hr' & W & C & I & U & E).
    exists sc'. cbn [remove_nodes]. rewrite Hr. cbn [bind].
    split; [exact Hr'|]. split; [assumption|]. split; [assumption|].
    split.
    { rewrite I, I1, filter_filter. apply filter_ext. intros x.
      rewrite mem_cons, (String.eqb_sym k x).
      now destruct (x =? k)%string, (mem x rest). }
    split.
    { intros a b. rewrite U, U1. cbn [In]. intuition congruence. }
    rewrite E, E1, filter_filter. apply filter_ext. intros [x y].
    cbn [fst snd]. rewrite !mem_cons, (String.eqb_sym k x),
      (String.eqb_sym k y).
    destruct (x =? k)%string, (y =? k)%string, (mem x rest), (mem y rest);
      reflexivity.
Qed.

(** X17: [delete_selected] on a well-formed scene without a cycle, with
    any selection of nodes: it returns; exactly the selected nodes are
    gone, the others stay in their order; an upstream pointer remains
    exactly when neither its node nor its target was selected; an edge
    remains exactly when neither of its ends was selected; the scene is
    still well formed and without a cycle. *)
Theorem delete_selected_removes (sc : PowerScene) (selected : list string) :
  wf (nodes sc) -> acyclic (nodes sc) ->
  exists sc',
    delete_selected sc selected = ret sc' /\
    wf (nodes sc') /\ acyclic (nodes sc') /\
    ids (nodes sc')
    = filter (fun x => negb (mem x selected)) (ids (nodes sc)) /\
    (forall a b, up (nodes sc') a b
                 <-> up (nodes sc) a b /\ ~ In a selected
                     /\ ~ In b selected) /\
    edges sc'
    = filter (fun e => negb (mem (fst e) selected || mem (snd e) selected))
        (edges sc).
Proof.
  intros Hwf Hac.
  destruct (remove_nodes_spec selected sc Hwf Hac)
    as (sc1 & Hr & W1 & C1 & I1 & U1 & E1).
  destruct (recompute_all_returns sc1 C1) as [sc' Hr'].
  destruct (recompute_all_keeps sc1 sc' W1 C1 Hr') as (W & C & S & E).
  exists sc'. unfold delete_selected. rewrite Hr. cbn [bind].
  split; [exact Hr'|]. split; [assumption|]. split; [assumption|].
  split; [rewrite (ids_of_skeleton _ _ S); exact I1|].
  split; [|congruence].
  intros a b. rewrite (up_skeleton _ _ a b S). apply U1.
Qed.

Lemma delete_selected_removes_witness :
  exists sc',
    delete_selected source_chain ["a"; "s"]%string = ret sc' /\
    wf (nodes sc') /\ acyclic (nodes sc') /\
    ids (nodes sc')
    = filter (fun x => negb (mem x ["a"; "s"]%string))
        (ids (nodes source_chain)) /\
    (forall a b, up (nodes sc') a b
                 <-> up (nodes source_chain) a b
                     /\ ~ In a ["a"; "s"]%string
                     /\ ~ In b ["a"; "s"]%string) /\
    edges sc'
    = filter (fun e => negb (mem (fst e) ["a"; "s"]%string
                             || mem (snd e) ["a"; "s"]%string))
        (edges source_chain).
Proof.
  apply (delete_selected_removes source_chain ["a"; "s"]%string).
  - apply wfb_sound. reflexivity.
  - apply acyclicb_sound; [apply nodupb_sound|]; reflexivity.
Defined.

End RemoveMore.

(** ** The inspector, the codec and the error panel *)

Section EditorsMore.

Implicit Types (ns g : list NodeItem) (k : string) (s : PowerStage).

Lemma apply_form_links w : keeps_links (apply_form w).
Proof. intros s. split; reflexivity. Qed.

(** X18: an edit in the inspector, on a well-formed scene without a
    cycle: [_on_change] returns; the nodes, their order, their positions,
    their upstream pointers and the edges are as they were; the node
    edited holds the type, name, IC name, voltage window, load current,
    current limit, efficiency, quiescent current and notes of the form
    (and its [vout] and [vin_nom] unless the form makes it a [LOAD]), with
    the colour it had; every other node keeps its settings. *)
Theorem on_change_applies (sc : PowerScene) (k : string) (w : form) :
  wf (nodes sc) -> acyclic (nodes sc) ->
  exists sc',
    on_change sc k w = ret sc' /\
    wf (nodes sc') /\ acyclic (nodes sc') /\
    skeleton (nodes sc') = skeleton (nodes sc) /\
    map pos (nodes sc') = map pos (nodes sc) /\
    edges sc' = edges sc /\
    (forall s, stage_of (nodes sc) k = Some s ->
       exists s', stage_of (nodes sc') k = Some s' /\
         stage_type s' = f_stage_type w /\ name s' = f_name w /\
         ic_name s' = f_ic_name w /\ vin_min s' = f_vin_min w /\
         vin_max s' = f_vin_max w /\
         load_current s' = f_load_current w /\
         iout_max_ic s' = f_iout_max_ic w /\
         efficiency_user s' = f_efficiency_user w /\ iq s' = f_iq w /\
         notes s' = f_notes w /\ color s' = color s /\
         (Py.upper (f_stage_type w) <> "LOAD"%string ->
          vout s' = f_vout w /\ vin_nom s' = f_vin_nom w)) /\
    (forall x s, x <> k -> stage_of (nodes sc) x = Some s ->
       exists s', stage_of (nodes sc') x = Some s' /\ same_settings s s').
Proof.
  intros Hwf Hac. unfold on_change.
  set (ns1 := update_stage (nodes sc) k (apply_form w)).
  assert (S1 : skeleton ns1 = skeleton (nodes sc))
    by apply skeleton_update_stage, apply_form_links.
  assert (W1 : wf ns1) by (eapply wf_skeleton; eauto).
  assert (C1 : acyclic ns1) by (eapply acyclic_skeleton; eauto).
  destruct (recompute_all_settings (mkPowerScene ns1 (edges sc)) W1 C1)
    as (sc' & Hr & _ & Hp & He & Hst).
  destruct (recompute_all_keeps (mkPowerScene ns1 (edges sc)) sc' W1 C1 Hr)
    as (W & C & S & _).
  cbn [nodes edges] in *.
  assert (Hget : forall x,
    stage_of ns1 x = if (x =? k)%string
                     then option_map (apply_form w) (stage_of (nodes sc) x)
                     else stage_of (nodes sc) x).
  { intros x. unfold ns1. apply stage_of_update. intros m _ Hm. exact Hm. }
  exists sc'. split; [exact Hr|].
  split; [assumption|]. split; [assumption|]. split; [congruence|].
  split; [unfold ns1 in Hp; now rewrite pos_update_stage in Hp|].
  split; [exact He|]. split.
  - intros s Hs.
    assert (H1 : stage_of ns1 k = Some (apply_form w s)).
    { rewrite Hget, String.eqb_refl, Hs. reflexivity. }
    destruct (Hst _ _ H1) as (s' & Hs' & Hset & Hv).
    exists s'. split; [exact Hs'|].
    destruct Hset as (_&?&?&?&?&?&?&?&?&?&_&?&?).
    repeat (split; [assumption|]).
    exact Hv.
  - intros x s Hx Hs.
    assert (H1 : stage_of ns1 x = Some s).
    { rewrite Hget. apply String.eqb_neq in Hx. now rewrite Hx. }
    destruct (Hst _ _ H1) as (s' & Hs' & Hset & _). eauto.
Qed.

Lemma on_change_applies_witness :
  exists sc',
    on_change source_chain "a" (form_of (stage (plain "a" "DCDC" None)))
    = ret sc' /\
    wf (nodes sc') /\ acyclic (nodes sc') /\
    skeleton (nodes sc') = skeleton (nodes source_chain).
Proof.
  destruct (on_change_applies source_chain "a"
              (form_of (stage (plain "a" "DCDC" None))))
    as (sc' & H1 & H2 & H3 & H4 & _).
  - apply wfb_sound. reflexivity.
  - apply acyclicb_sound; [apply nodupb_sound|]; reflexivity.
  - exists sc'. auto.
Defined.

(** *** The codec *)

(** X19: a stage survives its dict: [from_dict(to_dict(s))] is [s], field
    by field, the id included (the fresh id [PowerStage()] draws is
    overwritten) and the computed values and diagnostics too. *)
Theorem stage_dict_round_trip (fresh_id : string) (s : PowerStage) :
  from_dict fresh_id (to_dict s) = s.
Proof. apply from_dict_to_dict. Qed.

Lemma fold_load_edge_edges es :
  forall sc,
    edges (fold_left load_edge es sc)
    = edges sc
      ++ filter (fun e => mem (fst e) (ids (nodes sc))
                          && mem (snd e) (ids (nodes sc))) es.
Proof.
  induction es as [|e es IH]; intros sc; cbn [fold_left filter].
  - now rewrite app_nil_r.
  - rewrite IH, ids_load_edge. unfold load_edge.
    rewrite !mem_ids_get.
    destruct (nodes_get (nodes sc) (fst e)) as [src|] eqn:Es;
      [|reflexivity].
    destruct (nodes_get (nodes sc) (snd e)) as [dst|] eqn:Ed;
      [|reflexivity].
    cbn [edges andb].
    apply nodes_get_Some in Es, Ed. destruct Es as [_ ->], Ed as [_ ->].
    rewrite <- app_assoc. cbn. now destruct e.
Qed.

(** X20: [deserialize] keeps the edges of the document whose two ends are
    among the nodes it has recreated, in the document's order, and drops
    the others without an error; the nodes it has recreated have distinct
    ids. *)
Theorem deserialize_edges (fresh : nat -> string) (data : document) :
  let loaded := ids (loaded_nodes fresh data) in
  NoDup loaded /\
  ids (nodes (load_document fresh data)) = loaded /\
  edges (load_document fresh data)
  = filter (fun e => mem (fst e) loaded && mem (snd e) loaded)
      (doc_edges data) /\
  forall sc',
    deserialize fresh data = ret sc' ->
    ids (nodes sc') = loaded /\
    edges sc'
    = filter (fun e => mem (fst e) loaded && mem (snd e) loaded)
        (doc_edges data).
Proof.
  intros loaded.
  assert (Hnd : NoDup loaded) by apply loaded_nodes_NoDup.
  assert (Hi : ids (nodes (load_document fresh data)) = loaded).
  { unfold load_document. now rewrite ids_fold_load_edge. }
  assert (He : edges (load_document fresh data)
               = filter (fun e => mem (fst e) loaded && mem (snd e) loaded)
                   (doc_edges data)).
  { unfold load_document. now rewrite fold_load_edge_edges. }
  split; [assumption|]. split; [assumption|]. split; [assumption|].
  intros sc' H.
  assert (Hnd' : NoDup (ids (nodes (load_document fresh data))))
    by (rewrite Hi; exact Hnd).
  destruct (recompute_all_skeleton _ _ Hnd' H) as [S E].
  split; [|congruence].
  now rewrite (ids_skeleton (nodes sc')), S, <- ids_skeleton.
Qed.

(** *** The error panel *)

Section Panel.

Variable render : diagnostic -> string.

Lemma show_errors_spec errs :
  forall items seen,
    NoDup items -> (forall m, In m seen <-> In m items) ->
    let st := fold_left (show_error render) errs (items, seen) in
    NoDup (fst st) /\ (forall m, In m (snd st) <-> In m (fst st)) /\
    (forall m, In m (fst st) <-> In m items \/ In m (map render errs)) /\
    exists more, fst st = items ++ more.
Proof.
  induction errs as [|e errs IH]; intros items seen Hnd Hs; cbn zeta.
  - cbn. split; [assumption|]. split; [assumption|].
    split; [tauto|]. exists []. now rewrite app_nil_r.
  - cbn [fold_left].
    replace (show_error render (items, seen) e)
      with (if mem (render e) seen then (items, seen)
            else (items ++ [render e], render e :: seen)) by reflexivity.
    destruct (mem (render e) seen) eqn:E.
    + destruct (IH items seen Hnd Hs) as (H1 & H2 & H3 & H4).
      split; [exact H1|]. split; [exact H2|]. split; [|exact H4].
      intros m. rewrite H3. cbn [map In]. split; [tauto|].
      intros [H | [<- | H]]; auto.
      left. apply Hs. now apply mem_In.
    + apply mem_false in E.
      destruct (IH (items ++ [render e]) (render e :: seen))
        as (H1 & H2 & H3 & more & H4).
      * apply NoDup_app; [assumption|repeat constructor; auto|].
        intros x Hx [<- | []]. apply E. now apply Hs.
      * intros m. cbn [In]. rewrite in_app_iff, Hs. cbn. tauto.
      * split; [assumption|]. split; [assumption|]. split.
        -- intros m. rewrite H3, in_app_iff. cbn. tauto.
        -- exists (render e :: more). rewrite H4, <- app_assoc.
           reflexivity.
Qed.

Lemma refresh_spec ns :
  forall items seen,
    NoDup items -> (forall m, In m seen <-> In m items) ->
    let st :=
      fold_left (fun st n => fold_left (show_error render)
                               (errors (stage n)) st) ns (items, seen) in
    NoDup (fst st) /\
    (forall m, In m (fst st) <-> In m items \/ In m (messages render ns)).
Proof.
  induction ns as [|n ns IH]; intros items seen Hnd Hs; cbn zeta.
  - cbn. split; [assumption|tauto].
  - cbn [fold_left].
    destruct (show_errors_spec (errors (stage n)) items seen Hnd Hs)
      as (H1 & H2 & H3 & _).
    destruct (fold_left (show_error render) (errors (stage n)) (items, seen))
      as [items' seen'].
    cbn [fst snd] in *.
    destruct (IH items' seen' H1 H2) as [G1 G2].
    split; [assumption|].
    intros m. rewrite G2, H3. unfold messages. cbn [flat_map].
    rewrite in_app_iff. tauto.
Qed.

(** X21: the error panel lists every message once.  Whatever the scene,
    the list [refresh] builds has no repeated item, and a text is in it
    exactly when it is the message of a diagnostic of some node. *)
Theorem refresh_lists_each_once (ns : list NodeItem) :
  NoDup (refresh render ns) /\
  forall m, In m (refresh render ns) <->
    exists n e, In n ns /\ In e (errors (stage n)) /\ render e = m.
Proof.
  destruct (refresh_spec ns [] [] (NoDup_nil _) (fun m => iff_refl _))
    as [H1 H2].
  split; [exact H1|].
  intros m. unfold refresh. rewrite H2. unfold messages.
  rewrite in_flat_map. split.
  - intros [[] | (n & Hn & Hm)]. apply in_map_iff in Hm.
    destruct Hm as (e & He & Hin). eauto.
  - intros (n & e & Hn & He & Hr). right. exists n. split; [assumption|].
    apply in_map_iff. eauto.
Qed.

End Panel.

End EditorsMore.

(** ** Voltages settle in one recompute *)

Section VoltagesMore.

Implicit Types (ns g : list NodeItem) (k : string) (s : PowerStage).

Lemma voltage_kept j :
  forall g, wf g -> acyclic g ->
    forall k s1 s2,
      stage_of (swept g) k = Some s1 ->
      stage_of (sweeps j (swept g)) k = Some s2 ->
      vout s2 = vout s1.
Proof.
  induction j as [|j IH]; intros g Hwf Hac k s1 s2 H1 H2.
  - cbn [sweeps] in H2. congruence.
  - cbn [sweeps] in H2.
    destruct (swept_keeps g Hwf Hac) as (W1 & C1 & S1).
    assert (H' := swept_stage _ _ _ W1 C1 H1).
    rewrite <- (voltage_settled g Hwf Hac k s1 _ H1 H').
    exact (IH (swept g) W1 C1 k _ s2 H' H2).
Qed.

(** X24: voltages settle in one recompute.  On a well-formed scene
    without a cycle, whatever the depth of its chains, a second
    [recompute_all] run on the scene the first one left returns and
    leaves every node with the [vout] the first one left it. *)
Theorem recompute_voltages_stable (sc : PowerScene) :
  wf (nodes sc) -> acyclic (nodes sc) ->
  exists sc1 sc2,
    recompute_all sc = ret sc1 /\ recompute_all sc1 = ret sc2 /\
    forall k s1, stage_of (nodes sc1) k = Some s1 ->
      exists s2, stage_of (nodes sc2) k = Some s2 /\ vout s2 = vout s1.
Proof.
  intros Hwf Hac.
  destruct (last_pass sc Hwf Hac) as (g & W & C & S & Hr & _).
  destruct (swept_keeps g W C) as (W1 & C1 & S1).
  destruct (pass_count_returns _ C1) as (c & Hc & _).
  exists (mkPowerScene (swept g) (edges sc)),
         (mkPowerScene (sweeps c (swept g)) (edges sc)).
  split; [exact Hr|]. split.
  { unfold recompute_all. cbn [nodes edges]. rewrite Hc. cbn [bind ret].
    now rewrite passes_sweeps. }
  cbn [nodes]. intros k s1 H1.
  destruct (sweeps_keeps c _ W1 C1) as (_ & _ & Sc).
  assert (Hin : In k (ids (sweeps c (swept g)))).
  { rewrite (ids_of_skeleton _ _ Sc). apply stage_of_in. eauto. }
  apply stage_of_in in Hin. destruct Hin as [s2 H2].
  exists s2. split; [assumption|].
  exact (voltage_kept c g W C k s1 s2 H1 H2).
Qed.

Lemma recompute_voltages_stable_witness :
  exists sc1 sc2,
    recompute_all regulator_and_load = ret sc1 /\
    recompute_all sc1 = ret sc2 /\
    forall k s1, stage_of (nodes sc1) k = Some s1 ->
      exists s2, stage_of (nodes sc2) k = Some s2 /\ vout s2 = vout s1.
Proof.
  apply (recompute_voltages_stable regulator_and_load).
  - apply wfb_sound. reflexivity.
  - apply acyclicb_sound; [apply nodupb_sound|]; reflexivity.
Defined.

End VoltagesMore.
